(** * game-stats-exporter: the upstream acquisition layer, embedded in Rocq

    The development follows the Go packages of the repository:

    - [Wire]: little-endian reads over a [bytes.Reader] (encoding/binary as
      the decoder uses it);
    - [Strconv], [Cache]: the conversions and the key-value store the
      collectors rely on;
    - [Osrs]: [internal/osrs] -- world types, [decodeWorldData] and the
      metric reporting functions;
    - [Steam]: [internal/steam] -- [RateLimitState] and the achievement
      collector with its cache time-to-live policy;
    - [SteamReport], [SteamCollect]: the Steam gauges, [Collect] and the
      cached lookups of the owned games and the user name;
    - [OsrsCollect]: the two fetches of the OSRS client and the OSRS
      collector;
    - [Api]: [internal/api] -- the gatherers behind the metric endpoints.

    Integers of fixed width are kept in [Z]; positions and lengths of byte
    slices are in [nat]. *)

From Stdlib Require Import ZArith List Lia Bool.
From Stdlib Require Import Strings.Byte Strings.Ascii Strings.String.
From Stdlib Require Sorting.Sorted.
From stdpp Require Import base option list gmap strings pretty.
Import ListNotations.

Local Open Scope Z_scope.

(** ** Results of fallible Go functions: a value or an error. *)

Inductive result (E A : Type) : Type :=
| Ok (a : A)
| Err (e : E).
Arguments Ok {E A} a.
Arguments Err {E A} e.

Definition mapErr {E F A : Type} (f : E -> F) (r : result E A) : result F A :=
  match r with
  | Ok a => Ok a
  | Err e => Err (f e)
  end.

Declare Scope result_scope.
Notation "'let?' p ':=' m 'in' k" :=
  (match m with
   | Ok p => k
   | Err e => Err e
   end)
  (at level 10, p pattern, m at level 100, k at level 200) : result_scope.
Local Open Scope result_scope.

(** ** Wire: [bytes.Reader] and the little-endian reads of encoding/binary *)

Module Wire.

(** The two errors [io.ReadFull] and [ReadByte] hand back. *)
Inductive IOError : Type :=
| EOF
| UnexpectedEOF.

(** [bytes.Reader]: the slice [s] and the read index [i]. *)
Record Reader : Type := mkReader { buf : list byte; off : nat }.

Definition NewReader (data : list byte) : Reader := mkReader data 0.

(** [Reader.Len]: the number of unread bytes, 0 once the index is at or
    past the end. *)
Definition Len (r : Reader) : nat := (length (buf r) - off r)%nat.

Definition Size (r : Reader) : nat := length (buf r).

(** [Reader.Seek(abs, io.SeekStart)]: no upper bound is enforced. *)
Definition Seek (r : Reader) (abs : nat) : Reader := mkReader (buf r) abs.

Definition unread (r : Reader) : list byte := drop (off r) (buf r).

Definition advance (r : Reader) (n : nat) : Reader :=
  mkReader (buf r) (off r + n).

Definition u8 (b : byte) : Z := Z.of_N (Byte.to_N b).

(** Two's complement reading of an unsigned [w]-bit value. *)
Definition signed (w : Z) (z : Z) : Z :=
  if z <? 2 ^ (w - 1) then z else z - 2 ^ w.

(** [binary.LittleEndian.Uint16] and [Uint32]. *)
Definition le16 (b0 b1 : byte) : Z :=
  Z.lor (u8 b0) (Z.shiftl (u8 b1) 8).

Definition le32 (b0 b1 b2 b3 : byte) : Z :=
  Z.lor (Z.lor (Z.lor (u8 b0) (Z.shiftl (u8 b1) 8)) (Z.shiftl (u8 b2) 16))
        (Z.shiftl (u8 b3) 24).

(** [binary.Read] into a fixed-size value goes through [io.ReadFull]:
    [EOF] when nothing is left, [UnexpectedEOF] when too little is. *)
Definition readUint16 (r : Reader) : result IOError (Z * Reader) :=
  match unread r with
  | b0 :: b1 :: _ => Ok (le16 b0 b1, advance r 2)
  | [] => Err EOF
  | _ => Err UnexpectedEOF
  end.

Definition readInt16 (r : Reader) : result IOError (Z * Reader) :=
  let? (v, r') := readUint16 r in Ok (signed 16 v, r').

Definition readInt32 (r : Reader) : result IOError (Z * Reader) :=
  match unread r with
  | b0 :: b1 :: b2 :: b3 :: _ => Ok (signed 32 (le32 b0 b1 b2 b3), advance r 4)
  | [] => Err EOF
  | _ => Err UnexpectedEOF
  end.

Definition readInt8 (r : Reader) : result IOError (Z * Reader) :=
  match unread r with
  | b0 :: _ => Ok (signed 8 (u8 b0), advance r 1)
  | [] => Err EOF
  end.

(** [Reader.ReadByte]. *)
Definition ReadByte (r : Reader) : result IOError (byte * Reader) :=
  match unread r with
  | b :: _ => Ok (b, advance r 1)
  | [] => Err EOF
  end.

End Wire.

(** ** Strconv: the conversions of package strconv the reporters use *)

Module Strconv.

Inductive NumError : Type :=
| ErrSyntax
| ErrRange.

Definition maxUint64 : Z := 2 ^ 64 - 1.

(** A decimal digit, or [None] for any other byte (in base 10 a letter or
    an underscore is a syntax error as well). *)
Definition digitOf (c : ascii) : option Z :=
  let n := Z.of_N (N_of_ascii c) in
  if (48 <=? n) && (n <=? 57) then Some (n - 48) else None.

(** The digit loop of [ParseUint(s, 10, 64)]. *)
Fixpoint parseUintLoop (s : string) (n : Z) : Z * option NumError :=
  match s with
  | EmptyString => (n, None)
  | String c s' =>
      match digitOf c with
      | None => (0, Some ErrSyntax)
      | Some d =>
          if maxUint64 / 10 + 1 <=? n then (maxUint64, Some ErrRange)
          else
            let n1 := n * 10 + d in
            if maxUint64 <? n1 then (maxUint64, Some ErrRange)
            else parseUintLoop s' n1
      end
  end.

Definition ParseUint (s : string) : Z * option NumError :=
  match s with
  | EmptyString => (0, Some ErrSyntax)
  | _ => parseUintLoop s 0
  end.

(** [ParseInt(s, 10, 64)]: the value and the error. A syntax error gives
    0, a range error the nearest int64. *)
Definition ParseInt (s : string) : Z * option NumError :=
  match s with
  | EmptyString => (0, Some ErrSyntax)
  | String c rest =>
      let neg := Ascii.eqb c "-" in
      let s' := if Ascii.eqb c "+" || neg then rest else s in
      match ParseUint s' with
      | (_, Some ErrSyntax) => (0, Some ErrSyntax)
      | (un, _) =>
          let cutoff := 2 ^ 63 in
          if negb neg && (cutoff <=? un) then (cutoff - 1, Some ErrRange)
          else if neg && (cutoff <? un) then (- cutoff, Some ErrRange)
          else (if neg then - un else un, None)
      end
  end.

Definition FormatBool (b : bool) : string :=
  if b then "true" else "false".

(** [FormatUint(n, 10)]. *)
Definition FormatUint (n : Z) : string := pretty (Z.to_N n).

End Strconv.

(** ** Cache: the key-value store with per-entry time-to-live *)

Module Cache.

(** Durations and instants are int64 nanosecond counts, as in package
    time. *)
Definition Nanosecond : Z := 1.
Definition Second : Z := 1000000000.
Definition Minute : Z := 60 * Second.
Definition Hour : Z := 60 * Minute.

(** What [Set] stored: the bytes, the time-to-live it was given and the
    instant of the call. *)
Record Item : Type := mkItem {
  value : list byte;
  ttl : Z;
  storedAt : Z
}.

(** The store, and the [Set] calls made on it so far (oldest first). *)
Record Cache : Type := mkCache {
  items : gmap string Item;
  setCalls : list (string * Item)
}.

Definition empty : Cache := mkCache ∅ [].

(** An entry with a positive time-to-live is gone once that much time has
    passed; a time-to-live of zero keeps it. *)
Definition live (now : Z) (it : Item) : bool :=
  (ttl it <=? 0) || (now <? storedAt it + ttl it).

(** [Cache.Get]: the bytes and [true], or [false] on a miss. *)
Definition Get (now : Z) (c : Cache) (key : string) : option (list byte) :=
  match items c !! key with
  | Some it => if live now it then Some (value it) else None
  | None => None
  end.

(** [Cache.Set]. *)
Definition Set_ (now : Z) (c : Cache) (key : string) (v : list byte)
    (ttl : Z) : Cache :=
  let it := mkItem v ttl now in
  mkCache (<[key := it]> (items c)) (setCalls c ++ [(key, it)]).

(** [Cache.Delete]. *)
Definition Delete (c : Cache) (key : string) : Cache :=
  mkCache (delete key (items c)) (setCalls c).

(** [json.Marshal] and [json.Unmarshal] at one Go type; [None] is a
    non-nil error. *)
Class JSON (A : Type) : Type := {
  Marshal : A -> option (list byte);
  Unmarshal : list byte -> option A
}.

End Cache.

(** ** Osrs: world records, the world-list decoder, metric reporting *)

Module Osrs.
Import Wire.

(** *** types.go *)

Inductive WorldLocation : Type :=
| WorldLocationGermany
| WorldLocationUSA
| WorldLocationUK
| WorldLocationAustralia
| WorldLocationUnknown.

Inductive WorldType : Type :=
| WorldTypeFreeToPlay
| WorldTypeMembers
| WorldTypePVP
| WorldTypeBounty
| WorldTypePVPArena
| WorldTypeSkillTotal
| WorldTypeQuestSpeedrunning
| WorldTypeHighRisk
| WorldTypeLastManStanding
| WorldTypeNoSaveMode
| WorldTypeTournament
| WorldTypeFreshStartWorld
| WorldTypeDeadman
| WorldTypeBeta
| WorldTypeSoulWars
| WorldTypeMinigame
| WorldTypeSeasonal
| WorldTypeUnknown.

(** The string constant behind each enumerator (both Go types are
    [string]s). *)
Definition WorldLocation_string (l : WorldLocation) : string :=
  match l with
  | WorldLocationGermany => "Germany"
  | WorldLocationUSA => "USA"
  | WorldLocationUK => "UK"
  | WorldLocationAustralia => "Australia"
  | WorldLocationUnknown => "Unknown"
  end.

Definition WorldType_string (t : WorldType) : string :=
  match t with
  | WorldTypeFreeToPlay => "FreeToPlay"
  | WorldTypeMembers => "Members"
  | WorldTypePVP => "PVP"
  | WorldTypeBounty => "Bounty"
  | WorldTypePVPArena => "PVPArena"
  | WorldTypeSkillTotal => "SkillTotal"
  | WorldTypeQuestSpeedrunning => "QuestSpeedrunning"
  | WorldTypeHighRisk => "HighRisk"
  | WorldTypeLastManStanding => "LastManStanding"
  | WorldTypeNoSaveMode => "NoSaveMode"
  | WorldTypeTournament => "Tournament"
  | WorldTypeFreshStartWorld => "FreshStartWorld"
  | WorldTypeDeadman => "Deadman"
  | WorldTypeBeta => "Beta"
  | WorldTypeSoulWars => "SoulWars"
  | WorldTypeMinigame => "Minigame"
  | WorldTypeSeasonal => "Seasonal"
  | WorldTypeUnknown => "Unknown"
  end.

#[global] Instance WorldType_eq_dec : EqDecision WorldType.
Proof. solve_decision. Defined.

#[global] Instance WorldLocation_eq_dec : EqDecision WorldLocation.
Proof. solve_decision. Defined.

(** [World]: [ID] is a uint16, [Players] an int16; the two strings are kept
    as the bytes they were read from. *)
Record World : Type := mkWorld {
  ID : Z;
  Types : list WorldType;
  Address : list byte;
  Activity : list byte;
  Location : WorldLocation;
  Players : Z
}.

(** [World.IsMembers]. *)
Fixpoint hasMembers (ts : list WorldType) : bool :=
  match ts with
  | [] => false
  | t :: ts' => if decide (t = WorldTypeMembers) then true else hasMembers ts'
  end.

Definition IsMembers (w : World) : bool := hasMembers (Types w).

(** The [switch] inside the loop of [World.WorldType]: the fourteen cases
    return the type they name, every other type falls through. *)
Definition switchCase (t : WorldType) : option WorldType :=
  match t with
  | WorldTypeQuestSpeedrunning => Some WorldTypeQuestSpeedrunning
  | WorldTypeHighRisk => Some WorldTypeHighRisk
  | WorldTypeLastManStanding => Some WorldTypeLastManStanding
  | WorldTypeBounty => Some WorldTypeBounty
  | WorldTypePVP => Some WorldTypePVP
  | WorldTypePVPArena => Some WorldTypePVPArena
  | WorldTypeNoSaveMode => Some WorldTypeNoSaveMode
  | WorldTypeDeadman => Some WorldTypeDeadman
  | WorldTypeTournament => Some WorldTypeTournament
  | WorldTypeSkillTotal => Some WorldTypeSkillTotal
  | WorldTypeFreshStartWorld => Some WorldTypeFreshStartWorld
  | WorldTypeMinigame => Some WorldTypeMinigame
  | WorldTypeSoulWars => Some WorldTypeSoulWars
  | WorldTypeSeasonal => Some WorldTypeSeasonal
  | _ => None
  end.

(** [for _, t := range types { switch t { ... } }]: the first element of
    the slice that hits a case decides. *)
Fixpoint rangeTypes (ts : list WorldType) : option WorldType :=
  match ts with
  | [] => None
  | t :: ts' =>
      match switchCase t with
      | Some r => Some r
      | None => rangeTypes ts'
      end
  end.

(** [World.WorldType]. *)
Definition WorldType_of (w : World) : WorldType :=
  match rangeTypes (Types w) with
  | Some t => t
  | None => if IsMembers w then WorldTypeMembers else WorldTypeFreeToPlay
  end.

(** *** client.go *)

(** [flags&(1<<k) != 0] on an int32. *)
Definition flagSet (flags : Z) (k : Z) : bool :=
  negb (Z.land flags (Z.shiftl 1 k) =? 0).

(** The sixteen [if flags&... != 0 { types = append(types, ...) }]
    statements of [parseWorldTypes], in source order. *)
Definition flagTable : list (Z * WorldType) :=
  [ (0, WorldTypeMembers);
    (2, WorldTypePVP);
    (5, WorldTypeBounty);
    (6, WorldTypePVPArena);
    (7, WorldTypeSkillTotal);
    (8, WorldTypeQuestSpeedrunning);
    (10, WorldTypeHighRisk);
    (14, WorldTypeLastManStanding);
    (22, WorldTypeSoulWars);
    (23, WorldTypeBeta);
    (25, WorldTypeNoSaveMode);
    (26, WorldTypeTournament);
    (27, WorldTypeFreshStartWorld);
    (28, WorldTypeMinigame);
    (29, WorldTypeDeadman);
    (30, WorldTypeSeasonal) ].

Fixpoint appendFlags (tbl : list (Z * WorldType)) (flags : Z)
    (types : list WorldType) : list WorldType :=
  match tbl with
  | [] => types
  | (k, t) :: tbl' =>
      appendFlags tbl' flags (if flagSet flags k then types ++ [t] else types)
  end.

Definition parseWorldTypes (flags : Z) : list WorldType :=
  let types := appendFlags flagTable flags [] in
  if (length types =? 0)%nat then types ++ [WorldTypeFreeToPlay] else types.

(** [locationFromByte] on an int8. *)
Definition locationFromByte (b : Z) : WorldLocation :=
  match b with
  | 0 => WorldLocationUSA
  | 1 => WorldLocationUK
  | 3 => WorldLocationAustralia
  | 7 => WorldLocationGermany
  | _ => WorldLocationUnknown
  end.

(** The [for] loop of [readNullTerminatedString]: [ReadByte] until a
    zero byte. Every round consumes a byte, so [fuel] above the number of
    unread bytes is never used up: [ReadByte] fails with [EOF] first. *)
Fixpoint readStringLoop (fuel : nat) (r : Reader) (bytes : list byte)
    : result IOError (list byte * Reader) :=
  match fuel with
  | O => Err EOF
  | S fuel' =>
      match ReadByte r with
      | Err err => Err err
      | Ok (b, r') =>
          if Byte.eqb b x00 then Ok (bytes, r')
          else readStringLoop fuel' r' (bytes ++ [b])
      end
  end.

(** [readNullTerminatedString]: the bytes before the first zero byte; the
    reader ends up just after it. *)
Definition readNullTerminatedString (r : Reader)
    : result IOError (list byte * Reader) :=
  readStringLoop (S (Len r)) r [].

(** The errors [decodeWorldData] returns, one per [fmt.Errorf] site; the
    wrapped I/O error is kept where the message wraps one. *)
Inductive DecodeError : Type :=
| ErrTooShort (got : nat)
| ErrBufferSize (e : IOError)
| ErrWorldCountEOF
| ErrWorldCount (e : IOError)
| ErrTypeFlags (e : IOError)
| ErrAddress (e : IOError)
| ErrActivity (e : IOError)
| ErrLocation (e : IOError)
| ErrPlayerCount (e : IOError).

Definition validID (worldID : Z) : bool :=
  negb ((worldID <? 300) || (700 <? worldID)).

(** The inner [for offset := 1; offset < 20 && reader.Len() >= 2; offset++]
    loop. [fuel] is [20 - offset]. The result is the id found and the
    reader just after it, or [None] when [foundValid] stays false. *)
Fixpoint scanAlignment (fuel : nat) (currentPos : nat) (offset : nat)
    (r : Reader) : option (Z * Reader) :=
  match fuel with
  | O => None
  | S fuel' =>
      if (Len r <? 2)%nat then None
      else
        let testPos := (currentPos + offset)%nat in
        match readUint16 (Seek r testPos) with
        | Err _ => None
        | Ok (testID, r') =>
            if (300 <=? testID) && (testID <=? 700) then Some (testID, r')
            else scanAlignment fuel' currentPos (S offset) (Seek r' testPos)
        end
  end.

(** The part of the loop body after the world id: flags, two strings,
    location, player count; then the [World] is built. *)
Definition readWorldBody (worldID : Z) (r : Reader)
    : result DecodeError (World * Reader) :=
  let? (worldTypeFlags, r1) := mapErr ErrTypeFlags (readInt32 r) in
  let? (address, r2) := mapErr ErrAddress (readNullTerminatedString r1) in
  let? (activity, r3) := mapErr ErrActivity (readNullTerminatedString r2) in
  let? (locationByte, r4) := mapErr ErrLocation (readInt8 r3) in
  let? (playerCount, r5) := mapErr ErrPlayerCount (readInt16 r4) in
  let location := locationFromByte locationByte in
  let types := parseWorldTypes worldTypeFlags in
  Ok (mkWorld worldID types address activity location playerCount, r5).

(** How the main loop was left. The first four are the [break]s and the
    loop condition, the last two the [return]s inside the loop. *)
Inductive Stop : Type :=
| StopAttempts
| StopInsufficient
| StopReadID (e : IOError)
| StopInvalidID
| StopNoAlignment
| StopError (e : DecodeError).

(** The loop state when the loop is left: [attempts] is the value of [i],
    [reader] the reader, [parsed] the slice [worlds]. *)
Record LoopEnd : Type := mkLoopEnd {
  stop : Stop;
  attempts : nat;
  reader : Reader;
  parsed : list World
}.

(** [for i := 0; i < maxAttempts; i++ { ... }]; [fuel] is
    [maxAttempts - i]. *)
Fixpoint decodeLoop (parseIteratively : bool) (fuel : nat) (i : nat)
    (r : Reader) (worlds : list World) : LoopEnd :=
  match fuel with
  | O => mkLoopEnd StopAttempts i r worlds
  | S fuel' =>
      if (Len r <? 11)%nat then mkLoopEnd StopInsufficient i r worlds
      else
        let currentPos := (Size r - Len r)%nat in
        match readUint16 r with
        | Err e => mkLoopEnd (StopReadID e) i r worlds
        | Ok (worldID, r1) =>
            let aligned : result Stop (Z * Reader) :=
              if (worldID <? 300) || (700 <? worldID) then
                if (i =? 0)%nat && parseIteratively then
                  match scanAlignment 19 currentPos 1 r1 with
                  | Some found => Ok found
                  | None => Err StopNoAlignment
                  end
                else Err StopInvalidID
              else Ok (worldID, r1) in
            match aligned with
            | Err StopInvalidID =>
                mkLoopEnd StopInvalidID i (Seek r1 currentPos) worlds
            | Err why => mkLoopEnd why i r1 worlds
            | Ok (worldID', r2) =>
                match readWorldBody worldID' r2 with
                | Err e => mkLoopEnd (StopError e) i r2 worlds
                | Ok (world, r3) =>
                    decodeLoop parseIteratively fuel' (S i) r3
                               (worlds ++ [world])
                end
            end
        end
  end.

(** What [decodeWorldData] returns for each way of leaving the loop. *)
Definition outcome (e : LoopEnd) : result DecodeError (list World) :=
  match stop e with
  | StopError err => Err err
  | StopNoAlignment => Ok []
  | _ => Ok (parsed e)
  end.

Definition maxReasonableWorlds : Z := 200.

(** [numWorlds <= 0 || numWorlds > int16(maxReasonableWorlds)]. *)
Definition parseIterativelyOf (numWorlds : Z) : bool :=
  (numWorlds <=? 0) || (maxReasonableWorlds <? numWorlds).

(** [maxAttempts]: [int(numWorlds)], overridden by 300 in iterative
    mode. *)
Definition maxAttemptsOf (numWorlds : Z) : nat :=
  if parseIterativelyOf numWorlds then 300%nat else Z.to_nat numWorlds.

(** The loop [decodeWorldData] runs once the header is read: [numWorlds]
    is the int16 record count. *)
Definition decodeRun (numWorlds : Z) (r : Reader) : LoopEnd :=
  decodeLoop (parseIterativelyOf numWorlds) (maxAttemptsOf numWorlds) 0 r [].

Definition decodeWorldData (data : list byte)
    : result DecodeError (list World) :=
  if (length data <? 6)%nat then Err (ErrTooShort (length data))
  else
    let r := NewReader data in
    let? (bufferSizeRaw, r1) := mapErr ErrBufferSize (readInt32 r) in
    match readInt16 r1 with
    | Err EOF => Err ErrWorldCountEOF
    | Err e => Err (ErrWorldCount e)
    | Ok (numWorlds, r2) => outcome (decodeRun numWorlds r2)
    end.

(** *** types.go, player side *)

Record SkillInfo : Type := mkSkillInfo {
  Rank : string;
  Level : string;
  XP : string;
  Name : string;
  Player : string;
  Profile : string
}.

(** *** metrics.go *)

Section Metrics.

(** float64 values stay abstract: [ParseFloat] is [strconv.ParseFloat]
    with the error dropped, [ofInt] the conversion [float64(n)]. *)
Context {float64 : Type}.
Variable ParseFloat : string -> float64.
Variable ofInt : Z -> float64.

(** A label set of a gauge vector: the label values in declaration
    order. *)
Definition PlayerLabels : Type := string * string * string * string.
Definition WorldLabels : Type := string * string * string * string.

(** The four package-level gauge vectors: the value last [Set] under each
    label set. *)
Record Gauges : Type := mkGauges {
  playerLevelGauge : gmap PlayerLabels float64;
  playerXPGauge : gmap PlayerLabels float64;
  playerRankGauge : gmap PlayerLabels float64;
  worldPlayersGauge : gmap WorldLabels float64
}.

Definition ResetPlayerMetrics (g : Gauges) : Gauges :=
  mkGauges ∅ ∅ ∅ (worldPlayersGauge g).

Definition ResetWorldMetrics (g : Gauges) : Gauges :=
  mkGauges (playerLevelGauge g) (playerXPGauge g) (playerRankGauge g) ∅.

Definition playerLabels (stat : SkillInfo) (mode : string) : PlayerLabels :=
  (Name stat, Player stat, Profile stat, mode).

(** [rankInt, _ := strconv.ParseInt(stat.Rank, 10, 64)]. *)
Definition rankIntOf (stat : SkillInfo) : Z :=
  fst (Strconv.ParseInt (Rank stat)).

(** One iteration of the loop of [ReportPlayerStats]. *)
Definition reportStat (mode : string) (g : Gauges) (stat : SkillInfo)
    : Gauges :=
  let level := ParseFloat (Level stat) in
  let xp := ParseFloat (XP stat) in
  let rankInt := rankIntOf stat in
  let rank := ofInt rankInt in
  let labels := playerLabels stat mode in
  let levels := <[labels := level]> (playerLevelGauge g) in
  let xps := <[labels := xp]> (playerXPGauge g) in
  let ranks :=
    if 0 <=? rankInt then <[labels := rank]> (playerRankGauge g)
    else playerRankGauge g in
  mkGauges levels xps ranks (worldPlayersGauge g).

Definition ReportPlayerStats (stats : list SkillInfo) (mode : string)
    (g : Gauges) : Gauges :=
  fold_left (reportStat mode) stats (ResetPlayerMetrics g).

(** The two [if]s on [playerCount] in [ReportWorldData]. *)
Definition clampPlayers (players : Z) : Z :=
  let playerCount := players in
  let playerCount := if playerCount <? 0 then 0 else playerCount in
  let playerCount := if 2000 <? playerCount then 2000 else playerCount in
  playerCount.

Definition worldLabels (world : World) : WorldLabels :=
  (Strconv.FormatUint (ID world),
   WorldLocation_string (Location world),
   Strconv.FormatBool (IsMembers world),
   WorldType_string (WorldType_of world)).

(** One iteration of the loop of [ReportWorldData]. *)
Definition reportWorld (g : Gauges) (world : World) : Gauges :=
  let playerCount := clampPlayers (Players world) in
  mkGauges (playerLevelGauge g) (playerXPGauge g) (playerRankGauge g)
           (<[worldLabels world := ofInt playerCount]> (worldPlayersGauge g)).

Definition ReportWorldData (worlds : list World) (g : Gauges) : Gauges :=
  fold_left reportWorld worlds (ResetWorldMetrics g).

End Metrics.

(** *** collector.go: activity of a player from experience points *)

Section Activity.
Import Cache.

Context {jsonXP : JSON (gmap string Z)}.

(** The loop filling [currentXP], which also raises [active] when a
    skill's experience is above the value last stored for it. *)
Definition xpStep (lastXP : gmap string Z)
    (acc : bool * gmap string Z) (stat : SkillInfo) : bool * gmap string Z :=
  let '(active, currentXP) := acc in
  let xp := fst (Strconv.ParseInt (XP stat)) in
  let currentXP := <[Name stat := xp]> currentXP in
  match lastXP !! Name stat with
  | Some lastXPValue => (if lastXPValue <? xp then true else active, currentXP)
  | None => (active, currentXP)
  end.

Definition storeXP (now : Z) (c : Cache) (cacheKey : string)
    (currentXP : gmap string Z) : Cache :=
  match Marshal currentXP with
  | Some data => Set_ now c cacheKey data (24 * Hour)
  | None => c
  end.

(** [Collector.IsActive] once the current stats are fetched. *)
Definition IsActive (now : Z) (rsn : string) (stats : list SkillInfo)
    (c : Cache) : bool * Cache :=
  let cacheKey := ("osrs:last_xp:" ++ rsn)%string in
  let lastXP : gmap string Z :=
    match Get now c cacheKey with
    | Some cachedData =>
        match Unmarshal cachedData with
        | Some m => m
        | None => ∅
        end
    | None => ∅
    end in
  if (size lastXP =? 0)%nat then
    let currentXP := snd (fold_left (xpStep ∅) stats (false, ∅)) in
    (false, storeXP now c cacheKey currentXP)
  else
    let '(active, currentXP) := fold_left (xpStep lastXP) stats (false, ∅) in
    (active, storeXP now c cacheKey currentXP).

End Activity.

End Osrs.
(** ** Steam: the rate-limit coordinator and the achievement collector *)

Module Steam.
Import Cache.

(** *** ratelimit.go *)

(** Go's [int] and [time.Duration] are 64 bits wide; arithmetic on them
    wraps. *)
Definition wrap64 (z : Z) : Z :=
  (z + 2 ^ 63) mod 2 ^ 64 - 2 ^ 63.

(** The exported fields of [RateLimitState]; the mutex has no content and
    the cache is passed next to the state. *)
Record RateLimitState : Type := mkRateLimitState {
  IsRateLimited : bool;
  BlockedUntil : Z;
  Consecutive403 : Z;
  BackoffHours : Z
}.

Definition rateLimitCacheKey : string := "steam:rate_limit_state".
Definition initialBackoff : Z := 1 * Hour.
Definition maxBackoff : Z := 24 * Hour.
Definition backoffMultiplier : Z := 2.

(** [Duration.Hours] followed by the conversion to [int]. *)
Definition hoursOf (d : Z) : Z := Z.quot d Hour.

Section Coordinator.

Context {jsonState : JSON RateLimitState}.

(** [saveState]: a day of time-to-live, or the rest of the window plus one
    hour while blocked. *)
Definition saveState (now : Z) (rl : RateLimitState) (c : Cache) : Cache :=
  match Marshal rl with
  | Some data =>
      let ttl := 24 * Hour in
      let ttl :=
        if IsRateLimited rl && (now <? BlockedUntil rl) then
          let remaining := BlockedUntil rl - now in
          remaining + 1 * Hour
        else ttl in
      Set_ now c rateLimitCacheKey data ttl
  | None => c
  end.

(** [loadState]: the fields are overwritten only when the key is there
    and decodes. *)
Definition loadState (now : Z) (rl : RateLimitState) (c : Cache)
    : RateLimitState :=
  match Get now c rateLimitCacheKey with
  | Some cachedData =>
      match Unmarshal cachedData with
      | Some state => state
      | None => rl
      end
  | None => rl
  end.

Definition NewRateLimitState (now : Z) (c : Cache) : RateLimitState :=
  loadState now (mkRateLimitState false 0 0 1) c.

(** [CheckAndBlock]: [true] means blocked. *)
Definition CheckAndBlock (now : Z) (rl : RateLimitState) (c : Cache)
    : bool * RateLimitState * Cache :=
  if negb (IsRateLimited rl) then (false, rl, c)
  else if now <? BlockedUntil rl then (true, rl, c)
  else
    let rl' := mkRateLimitState false (BlockedUntil rl) 0 1 in
    (false, rl', saveState now rl' c).

(** [for i := 0; i < rl.Consecutive403-1 && backoffDuration < maxBackoff;
    i++]; [n] is the number of values [i] may still take. *)
Fixpoint backoffLoop (n : nat) (backoffDuration : Z) : Z :=
  match n with
  | O => backoffDuration
  | S n' =>
      if backoffDuration <? maxBackoff then
        let backoffDuration := wrap64 (backoffDuration * backoffMultiplier) in
        if maxBackoff <? backoffDuration then maxBackoff
        else backoffLoop n' backoffDuration
      else backoffDuration
  end.

(** [Record403]. *)
Definition Record403 (now : Z) (rl : RateLimitState) (c : Cache)
    : RateLimitState * Cache :=
  let consecutive := wrap64 (Consecutive403 rl + 1) in
  let backoffDuration :=
    backoffLoop (Z.to_nat (wrap64 (consecutive - 1))) initialBackoff in
  let rl' :=
    mkRateLimitState true (now + backoffDuration) consecutive
                     (hoursOf backoffDuration) in
  (rl', saveState now rl' c).

(** [RecordSuccess]. *)
Definition RecordSuccess (now : Z) (rl : RateLimitState) (c : Cache)
    : RateLimitState * Cache :=
  if negb (IsRateLimited rl) || (BlockedUntil rl <? now) then
    let rl' := mkRateLimitState false (BlockedUntil rl) 0 1 in
    (rl', saveState now rl' c)
  else (rl, c).

End Coordinator.

(** *** types.go *)

Record Achievement : Type := mkAchievement {
  AchName : string;
  Achieved : Z
}.

Record GlobalAchievement : Type := mkGlobalAchievement {
  GlobalName : string;
  Percent : string
}.

Record OwnedGame : Type := mkOwnedGame {
  AppId : Z;
  GameName : string;
  PlaytimeForever : Z
}.

(** A slice that may be [nil]: [None] is the nil slice. *)
Definition slice (A : Type) : Type := option (list A).

Definition len {A : Type} (s : slice A) : nat :=
  match s with
  | Some l => length l
  | None => 0%nat
  end.

(** *** collector.go *)

(** The value kept under a user-achievements key. *)
Record cacheEntry : Type := mkCacheEntry {
  UserAchievements : slice Achievement;
  Playtime : Z
}.

(** The two client calls [collectAchievements] makes, as the answers the
    upstream gives: an error message or the decoded list. *)
Record Client : Type := mkClient {
  GetGlobalAchievementPercentages : Z -> result string (slice GlobalAchievement);
  GetUserStatsForGame : string -> Z -> result string (slice Achievement)
}.

(** One call of [ReportAchievements], with its arguments. *)
Record Report : Type := mkReport {
  repUser : slice Achievement;
  repGlobal : slice GlobalAchievement;
  repGame : string;
  repAppId : Z;
  repSteamId : string;
  repUsername : string
}.

(** What a collector call reads and changes: the cache, the clock, the
    number of values drawn from math/rand so far, the limiter (absent when
    [c.rateLimit] is nil) and the reports made. *)
Record Env : Type := mkEnv {
  cache : Cache;
  clock : Z;
  draws : nat;
  rateLimit : option RateLimitState;
  reports : list Report
}.

(** [strings.ToLower] on the ASCII letters. *)
Definition lowerAscii (c : ascii) : ascii :=
  let n := N_of_ascii c in
  if ((65 <=? n) && (n <=? 90))%N then ascii_of_N (n + 32) else c.

Fixpoint ToLower (s : string) : string :=
  match s with
  | EmptyString => EmptyString
  | String c s' => String (lowerAscii c) (ToLower s')
  end.

(** [strings.Contains]. *)
Fixpoint Contains (s substr : string) : bool :=
  String.prefix substr s
  || match s with
     | EmptyString => false
     | String _ s' => Contains s' substr
     end.

Definition userAchievementsKey (steamId : string) (appId : Z) : string :=
  ("steam:user_achievements:" ++ steamId ++ ":" ++ Strconv.FormatUint appId)%string.

Definition globalAchievementsKey (appId : Z) : string :=
  ("steam:global_achievements:" ++ Strconv.FormatUint appId)%string.

Section Collector.

Context {jsonState : JSON RateLimitState}.
Context {jsonEntry : JSON cacheEntry}.
Context {jsonGlobal : JSON (slice GlobalAchievement)}.

(** The source of math/rand: the raw value of each draw, in order. *)
Variable randSource : nat -> Z.

(** [rand.Intn(n)] as the draw number [k]. *)
Definition Intn (n : Z) (k : nat) : Z := randSource k mod n.

(** [hasPlaytimeIncreased]. *)
Definition hasPlaytimeIncreased (env : Env) (appId : Z) (steamId : string)
    (currentPlaytime : Z) : bool :=
  let userCacheKey := userAchievementsKey steamId appId in
  match Get (clock env) (cache env) userCacheKey with
  | Some cachedData =>
      match Unmarshal cachedData with
      | Some entry => Playtime entry <? currentPlaytime
      | None => true
      end
  | None => true
  end.

Definition shouldInvalidateUserCache (env : Env) (appId : Z)
    (steamId : string) (currentPlaytime : Z) : bool :=
  hasPlaytimeIncreased env appId steamId currentPlaytime.

(** The loop of [IsActive] over the games the upstream returned. *)
Fixpoint anyGameActive (env : Env) (steamId : string)
    (games : list OwnedGame) : bool :=
  match games with
  | [] => false
  | game :: games' =>
      if PlaytimeForever game =? 0 then anyGameActive env steamId games'
      else if shouldInvalidateUserCache env (AppId game) steamId
                (PlaytimeForever game)
           then true
           else anyGameActive env steamId games'
  end.

(** [IsActive], given the answer of [GetOwnedGames]. *)
Definition IsActive (env : Env) (steamId : string)
    (resp : result string (list OwnedGame)) : result string bool :=
  let? games := resp in Ok (anyGameActive env steamId games).

(** The time-to-live of a user-achievements entry, from the draw [k]. *)
Definition userTTL (playtimeIncreased : bool) (k : nat) : Z :=
  if playtimeIncreased then 2 * Minute + Intn 180 k * Second
  else 4 * Hour + Intn 120 k * Minute.

(** The first part of [collectAchievements]: the global list, from the
    cache or fetched and then cached for seven days plus jitter. *)
Definition loadGlobalAchievements (client : Client) (game : OwnedGame)
    (env : Env) : result string (slice GlobalAchievement) * Env :=
  let globalCacheKey := globalAchievementsKey (AppId game) in
  let fromCache : slice GlobalAchievement :=
    match Get (clock env) (cache env) globalCacheKey with
    | Some cachedData =>
        match Unmarshal cachedData with
        | Some l => if (0 <? len l)%nat then l else None
        | None => None
        end
    | None => None
    end in
  match fromCache with
  | Some l => (Ok (Some l), env)
  | None =>
      match GetGlobalAchievementPercentages client (AppId game) with
      | Err msg =>
          if String.eqb msg "steam API rate limited - backoff period active"
             || String.eqb msg
                  "forbidden (403) - Steam API rate limit detected, backing off"
          then (Err ("steam API rate limited: " ++ msg)%string, env)
          else (Err ("error fetching global achievements: " ++ msg)%string, env)
      | Ok globalAchievements =>
          match Marshal globalAchievements with
          | Some data =>
              let ttl := 7 * 24 * Hour + Intn 720 (draws env) * Minute in
              (Ok globalAchievements,
               mkEnv (Set_ (clock env) (cache env) globalCacheKey data ttl)
                     (clock env) (S (draws env)) (rateLimit env) (reports env))
          | None => (Ok globalAchievements, env)
          end
      end
  end.

(** [c.rateLimit == nil || !c.rateLimit.CheckAndBlock()], then the five
    second sleep when it holds. *)
Definition pauseUnlessBlocked (env : Env) : Env :=
  match rateLimit env with
  | None =>
      mkEnv (cache env) (clock env + 5 * Second) (draws env) None (reports env)
  | Some rl =>
      let '(blocked, rl', c') := CheckAndBlock (clock env) rl (cache env) in
      mkEnv c' (if blocked then clock env else clock env + 5 * Second)
            (draws env) (Some rl') (reports env)
  end.

(** The fallback on a failed fetch: the cached achievements when the
    message says "rate limited" and the cache holds a non-empty list. *)
Definition cachedOnRateLimit (env : Env) (userCacheKey : string)
    (msg : string) : result string (slice Achievement) :=
  let failure : result string (slice Achievement) :=
    Err ("error fetching user achievements: " ++ msg)%string in
  if Contains (ToLower msg) "rate limited" then
    match Get (clock env) (cache env) userCacheKey with
    | Some cachedData =>
        match Unmarshal cachedData with
        | Some entry =>
            if (0 <? len (UserAchievements entry))%nat
            then Ok (UserAchievements entry)
            else failure
        | None => failure
        end
    | None => failure
    end
  else failure.

Definition report (env : Env) (r : Report) : Env :=
  mkEnv (cache env) (clock env) (draws env) (rateLimit env)
        (reports env ++ [r]).

(** [collectAchievements]. *)
Definition collectAchievements (client : Client) (steamId : string)
    (game : OwnedGame) (username : string) (env : Env)
    : result string unit * Env :=
  match loadGlobalAchievements client game env with
  | (Err e, env1) => (Err e, env1)
  | (Ok globalAchievements, env1) =>
      if (len globalAchievements =? 0)%nat then (Ok tt, env1)
      else
        let userCacheKey := userAchievementsKey steamId (AppId game) in
        let playtimeIncreased :=
          hasPlaytimeIncreased env1 (AppId game) steamId (PlaytimeForever game) in
        let userAchievements : slice Achievement :=
          if negb playtimeIncreased then
            match Get (clock env1) (cache env1) userCacheKey with
            | Some cachedData =>
                match Unmarshal cachedData with
                | Some entry => UserAchievements entry
                | None => None
                end
            | None => None
            end
          else None in
        let finish (ua : slice Achievement) (env' : Env) :=
          (Ok tt,
           report env' (mkReport ua globalAchievements (GameName game)
                                 (AppId game) steamId username)) in
        match userAchievements with
        | Some _ => finish userAchievements env1
        | None =>
            let env2 := pauseUnlessBlocked env1 in
            let fetched : result string (slice Achievement) :=
              match GetUserStatsForGame client steamId (AppId game) with
              | Err msg => cachedOnRateLimit env2 userCacheKey msg
              | Ok achievements => Ok achievements
              end in
            match fetched with
            | Err e => (Err e, env2)
            | Ok userAchievements =>
                let entry := mkCacheEntry userAchievements (PlaytimeForever game) in
                let env3 :=
                  match Marshal entry with
                  | Some data =>
                      let ttl := userTTL playtimeIncreased (draws env2) in
                      mkEnv (Set_ (clock env2) (cache env2) userCacheKey data ttl)
                            (clock env2) (S (draws env2)) (rateLimit env2)
                            (reports env2)
                  | None => env2
                  end in
                finish userAchievements env3
            end
        end
  end.

End Collector.

End Steam.

(** ** WireFormat: the byte layout [decodeWorldData] reads, written down as
    an encoder, to state what a well-formed payload is *)

Module WireFormat.
Import Wire Osrs.

(** The byte holding the low eight bits of [z]. *)
Definition byteOf (z : Z) : byte :=
  match Byte.of_N (Z.to_N (z mod 256)) with
  | Some b => b
  | None => x00
  end.

(** Little-endian, two's complement. *)
Definition put16 (z : Z) : list byte := [byteOf z; byteOf (z / 256)].

Definition put32 (z : Z) : list byte :=
  [byteOf z; byteOf (z / 256); byteOf (z / 65536); byteOf (z / 16777216)].

(** A record as it travels: the fields before any interpretation. *)
Record WireWorld : Type := mkWireWorld {
  wID : Z;
  wFlags : Z;
  wAddress : list byte;
  wActivity : list byte;
  wLocation : Z;
  wPlayers : Z
}.

Definition encodeBody (w : WireWorld) : list byte :=
  put32 (wFlags w) ++ wAddress w ++ [x00] ++ wActivity w ++ [x00]
  ++ [byteOf (wLocation w)] ++ put16 (wPlayers w).

Definition encodeWorld (w : WireWorld) : list byte :=
  put16 (wID w) ++ encodeBody w.

Definition encodeWorlds (ws : list WireWorld) : list byte :=
  flat_map encodeWorld ws.

(** The six header bytes: the buffer size and the record count. *)
Definition header (bufferSize count : Z) : list byte :=
  put32 bufferSize ++ put16 count.

Definition noNul (s : list byte) : Prop := Forall (fun b => b <> x00) s.

(** Every field fits its width and no string holds the terminator. *)
Record wellFormed (w : WireWorld) : Prop := mkWellFormed {
  wf_id : 0 <= wID w < 65536;
  wf_flags : - 2 ^ 31 <= wFlags w < 2 ^ 31;
  wf_address : noNul (wAddress w);
  wf_activity : noNul (wActivity w);
  wf_location : - 128 <= wLocation w < 128;
  wf_players : - 32768 <= wPlayers w < 32768
}.

(** The id lies in the window 300..700 the decoder accepts. *)
Definition inRange (w : WireWorld) : Prop := validID (wID w) = true.

(** The [World] whose fields are those of the wire record. *)
Definition worldOf (w : WireWorld) : World :=
  mkWorld (wID w) (parseWorldTypes (wFlags w)) (wAddress w) (wActivity w)
          (locationFromByte (wLocation w)) (wPlayers w).

(** The sender's side of the flag word: the bit a world type is sent as.
    Free-to-play is sent as the absence of every such bit; the unknown type
    is not sent. *)
Definition bitOf (t : WorldType) : option Z :=
  match t with
  | WorldTypeMembers => Some 0
  | WorldTypePVP => Some 2
  | WorldTypeBounty => Some 5
  | WorldTypePVPArena => Some 6
  | WorldTypeSkillTotal => Some 7
  | WorldTypeQuestSpeedrunning => Some 8
  | WorldTypeHighRisk => Some 10
  | WorldTypeLastManStanding => Some 14
  | WorldTypeSoulWars => Some 22
  | WorldTypeBeta => Some 23
  | WorldTypeNoSaveMode => Some 25
  | WorldTypeTournament => Some 26
  | WorldTypeFreshStartWorld => Some 27
  | WorldTypeMinigame => Some 28
  | WorldTypeDeadman => Some 29
  | WorldTypeSeasonal => Some 30
  | WorldTypeFreeToPlay => None
  | WorldTypeUnknown => None
  end.

(** The code a location is sent as; the unknown location has none. *)
Definition codeOf (l : WorldLocation) : option Z :=
  match l with
  | WorldLocationUSA => Some 0
  | WorldLocationUK => Some 1
  | WorldLocationAustralia => Some 3
  | WorldLocationGermany => Some 7
  | WorldLocationUnknown => None
  end.

(** [t1] is sent on a lower bit than [t2]. *)
Definition lowerBit (t1 t2 : WorldType) : Prop :=
  match bitOf t1, bitOf t2 with
  | Some k1, Some k2 => k1 < k2
  | _, _ => False
  end.

(** The world [w] holds what the wire record [rec] says, field by field:
    the id, the address, the activity and the player count are those of
    the record; a type with a bit is listed exactly when that bit of the
    flag word is set, free-to-play exactly when none of them is, the
    unknown type never, and the types stand by rising bit, none twice; the
    location is the one whose code the location byte is, and the unknown
    one when it is no code. *)
Record carries (rec : WireWorld) (w : World) : Prop := mkCarries {
  carries_id : ID w = wID rec;
  carries_types : forall t k, bitOf t = Some k ->
    (In t (Types w) <-> Z.testbit (wFlags rec) k = true);
  carries_free : In WorldTypeFreeToPlay (Types w)
    <-> (forall t k, bitOf t = Some k -> Z.testbit (wFlags rec) k = false);
  carries_known : ~ In WorldTypeUnknown (Types w);
  carries_order : Sorted.StronglySorted lowerBit (Types w);
  carries_address : Address w = wAddress rec;
  carries_activity : Activity w = wActivity rec;
  carries_location : forall l c, codeOf l = Some c ->
    (Location w = l <-> wLocation rec = c);
  carries_no_location : Location w = WorldLocationUnknown
    <-> (forall l c, codeOf l = Some c -> wLocation rec <> c);
  carries_players : Players w = wPlayers rec
}.

(** The int16 at offset 4 of a payload: the declared record count. *)
Definition declaredCount (data : list byte) : Z :=
  match readInt16 (mkReader data 4) with
  | Ok (n, _) => n
  | Err _ => 0
  end.

(** The uint16 at offset [p], when two bytes are there. *)
Definition idAt (data : list byte) (p : nat) : option Z :=
  match readUint16 (mkReader data p) with
  | Ok (id, _) => Some id
  | Err _ => None
  end.

(** Offset [p] holds a readable id inside the accepted window. *)
Definition alignedAt (data : list byte) (p : nat) : bool :=
  match idAt data p with
  | Some id => validID id
  | None => false
  end.

(** The least offset in 1..19 past [p] at which an accepted id sits. *)
Definition firstAligned (data : list byte) (p : nat) : option nat :=
  find (fun offset => alignedAt data (p + offset)) (seq 1 19).

(** Decoding taken up at position [p] as the first record of an iterative
    run: the id at [p], the rest of the record, then the remaining 299
    attempts. *)
Definition resumeAt (data : list byte) (p : nat)
    : result DecodeError (list World) :=
  match readUint16 (mkReader data p) with
  | Err _ => Ok []
  | Ok (worldID, r) =>
      match readWorldBody worldID r with
      | Err e => Err e
      | Ok (world, r') => outcome (decodeLoop true 299 1 r' [world])
      end
  end.

(** The priority list of the specification, highest first. *)
Definition priorityOrder : list WorldType :=
  [ WorldTypeQuestSpeedrunning; WorldTypeHighRisk; WorldTypeLastManStanding;
    WorldTypeBounty; WorldTypePVP; WorldTypePVPArena; WorldTypeNoSaveMode;
    WorldTypeDeadman; WorldTypeTournament; WorldTypeSkillTotal;
    WorldTypeFreshStartWorld; WorldTypeMinigame; WorldTypeSoulWars;
    WorldTypeSeasonal; WorldTypeMembers; WorldTypeFreeToPlay ].

(** Resolution as the specification words it: the first entry of the
    priority list that is among the record's types; free-to-play when none
    is. *)
Definition byPriority (types : list WorldType) : WorldType :=
  match find (fun t => bool_decide (t ∈ types)) priorityOrder with
  | Some t => t
  | None => WorldTypeFreeToPlay
  end.

End WireFormat.

(** ** Scenarios: call sequences and sample inputs the statements use *)

Module Scenarios.
Import Wire Osrs WireFormat Cache Steam.

(** A world whose types come from the flag word [flags]. *)
Definition flaggedWorld (flags : Z) : World :=
  mkWorld 301 (parseWorldTypes flags) [] [] WorldLocationUSA 0.

(** [Record403] called once at each of the given instants, in order. *)
Definition rejections {jsonState : JSON RateLimitState} (times : list Z)
    (rl : RateLimitState) (c : Cache) : RateLimitState * Cache :=
  fold_left (fun s t => Record403 t (fst s) (snd s)) times (rl, c).

(** What is known of the loop of [decodeWorldData] from the way it was
    left, started at attempt [i] with [fuel] attempts to go. *)
Definition stopFacts (iter : bool) (e : LoopEnd) (i fuel : nat) : Prop :=
  match stop e with
  | StopAttempts => attempts e = (i + fuel)%nat
  | StopInsufficient => (Len (reader e) < 11)%nat
  | StopReadID _ => False
  | StopInvalidID =>
      (11 <= Len (reader e))%nat
      /\ (exists id r', readUint16 (reader e) = Ok (id, r') /\ validID id = false)
      /\ (attempts e <> 0%nat \/ iter = false)
  | StopNoAlignment => iter = true /\ attempts e = 0%nat
  | StopError err => exists id, readWorldBody id (reader e) = Err err
  end.


(** An environment whose cache is empty: nothing was observed before. *)
Definition firstObservation (now : Z) (drawn : nat)
    (limiter : option RateLimitState) : Env :=
  mkEnv Cache.empty now drawn limiter [].

(** Two records: world 301, a members world at "a", 100 players; world
    302, free to play, at "oldschool", 250 players. *)
Definition sampleFirst : WireWorld :=
  mkWireWorld 301 1 [x61] [x2d] 0 100.

Definition sampleSecond : WireWorld :=
  mkWireWorld 302 0 [x6f; x6c; x64; x73; x63; x68; x6f; x6f; x6c] [x2d] 1 250.

(** A payload whose count field reads -1, holding the two records and
    then twelve zero bytes. *)
Definition sampleCorruptCount : list byte :=
  header 0 (-1) ++ encodeWorlds [sampleFirst; sampleSecond]
  ++ repeat x00 12.

(** The same count, three stray bytes, then the two records. *)
Definition sampleMisaligned : list byte :=
  header 0 (-1) ++ [x00; x00; x09] ++ encodeWorlds [sampleFirst; sampleSecond].

(** A codec that writes a one-byte document and reads none back; enough
    to run the coordinator. *)
Definition writeOnlyJSON (A : Type) : JSON A :=
  {| Marshal := fun _ => Some [x7b]; Unmarshal := fun _ => None |}.

End Scenarios.

(** ** Examples: the definitions run on small inputs *)

Module Examples.
Import Wire Osrs WireFormat Cache Steam Scenarios.

Example le16_301 : le16 x2d x01 = 301.
Proof. reflexivity. Qed.

Example signed_minus_one : signed 16 65535 = -1 /\ signed 8 255 = -1.
Proof. split; reflexivity. Qed.

Example put16_minus_one : put16 (-1) = [xff; xff].
Proof. reflexivity. Qed.

Example parse_unranked : Strconv.ParseInt "-1" = (-1, None).
Proof. reflexivity. Qed.

Example parse_rank : Strconv.ParseInt "1234567" = (1234567, None).
Proof. reflexivity. Qed.

Example parse_not_a_number :
  Strconv.ParseInt "" = (0, Some Strconv.ErrSyntax)
  /\ Strconv.ParseInt "12a" = (0, Some Strconv.ErrSyntax)
  /\ Strconv.ParseInt "-" = (0, Some Strconv.ErrSyntax).
Proof. repeat split; reflexivity. Qed.

Example parse_out_of_range :
  Strconv.ParseInt "9223372036854775808"
  = (9223372036854775807, Some Strconv.ErrRange)
  /\ Strconv.ParseInt "-99999999999999999999"
     = (-9223372036854775808, Some Strconv.ErrRange).
Proof. split; vm_compute; reflexivity. Qed.

Example types_of_no_flag : parseWorldTypes 0 = [WorldTypeFreeToPlay].
Proof. reflexivity. Qed.

Example types_of_members_pvp :
  parseWorldTypes 5 = [WorldTypeMembers; WorldTypePVP].
Proof. reflexivity. Qed.

Example type_of_members_only :
  WorldType_of (flaggedWorld 1) = WorldTypeMembers.
Proof. reflexivity. Qed.

Example type_of_minigame_pvp :
  WorldType_of (flaggedWorld (2 ^ 28 + 2 ^ 2)) = WorldTypePVP.
Proof. vm_compute. reflexivity. Qed.

Example location_codes :
  map locationFromByte [0; 1; 3; 7; 2; -1]
  = [WorldLocationUSA; WorldLocationUK; WorldLocationAustralia;
     WorldLocationGermany; WorldLocationUnknown; WorldLocationUnknown].
Proof. reflexivity. Qed.

Example too_short : decodeWorldData [x00; x00; x00] = Err (ErrTooShort 3).
Proof. reflexivity. Qed.

Example header_only : decodeWorldData (header 0 5) = Ok [].
Proof. vm_compute. reflexivity. Qed.

Example first_record_bytes :
  encodeWorld sampleFirst
  = [x2d; x01; x01; x00; x00; x00; x61; x00; x2d; x00; x00; x64; x00].
Proof. vm_compute. reflexivity. Qed.

Example decode_first_record :
  decodeWorldData (header 0 1 ++ encodeWorld sampleFirst)
  = Ok [mkWorld 301 [WorldTypeMembers] [x61] [x2d] WorldLocationUSA 100].
Proof. vm_compute. reflexivity. Qed.

Example decode_corrupt_count :
  decodeWorldData sampleCorruptCount
  = Ok [worldOf sampleFirst; worldOf sampleSecond].
Proof. vm_compute. reflexivity. Qed.

Example no_alignment_found :
  decodeWorldData (header 0 (-1) ++ repeat x00 40) = Ok [].
Proof. vm_compute. reflexivity. Qed.

Example backoff_table :
  map (fun n => hoursOf (backoffLoop n initialBackoff)) (seq 0 8)
  = [1; 2; 4; 8; 16; 24; 24; 24].
Proof. vm_compute. reflexivity. Qed.

(** Gauges over integers: [float64(n)] of a small integer is that
    integer, a level or xp string is measured by its length. *)
Definition lengthAsFloat (s : string) : Z := Z.of_nat (String.length s).

Definition noGauges : Gauges (float64 := Z) := mkGauges ∅ ∅ ∅ ∅.

Example clamp_values :
  map clampPlayers [-5; 0; 150; 2000; 3000] = [0; 0; 150; 2000; 2000].
Proof. reflexivity. Qed.

Example negative_count_reported_as_zero :
  let world := mkWorld 301 [WorldTypeMembers] [] [] WorldLocationUK (-1) in
  worldPlayersGauge (ReportWorldData id [world] noGauges)
    !! ("301", "UK", "true", "Members")
  = Some 0.
Proof. vm_compute. reflexivity. Qed.

Example unranked_skill_has_no_rank :
  let stat := mkSkillInfo "-1" "1" "0" "Sailing" "zezima" "Standard" in
  let g := ReportPlayerStats lengthAsFloat id [stat] "vanilla" noGauges in
  let labels := ("Sailing", "zezima", "Standard", "vanilla") in
  playerLevelGauge g !! labels = Some 1
  /\ playerXPGauge g !! labels = Some 1
  /\ playerRankGauge g !! labels = None.
Proof. vm_compute. repeat split; reflexivity. Qed.

Example ranked_skill_has_rank :
  let stat := mkSkillInfo "4321" "99" "13034431" "Attack" "zezima" "Standard" in
  let g := ReportPlayerStats lengthAsFloat id [stat] "vanilla" noGauges in
  playerRankGauge g !! ("Attack", "zezima", "Standard", "vanilla") = Some 4321.
Proof. vm_compute. reflexivity. Qed.

(** A client whose upstream lists one global and one user achievement. *)
Definition sampleClient : Client :=
  mkClient (fun _ => Ok (Some [mkGlobalAchievement "first" "50.0"]))
           (fun _ _ => Ok (Some [mkAchievement "first" 1])).

Definition sampleGame : OwnedGame := mkOwnedGame 440 "game" 90.

(** First observation with every draw equal to 7: the global list is
    stored for 7 days and 7 minutes, the user data for 2 minutes and 7
    seconds. *)
Example first_collect_writes :
  let env := firstObservation 0 0 None in
  let env' :=
    snd (collectAchievements (jsonEntry := writeOnlyJSON _)
           (jsonGlobal := writeOnlyJSON _) (jsonState := writeOnlyJSON _)
           (fun _ => 7) sampleClient "7656" sampleGame "name" env) in
  map (fun call => (fst call, ttl (snd call))) (setCalls (cache env'))
  = [("steam:global_achievements:440", 7 * 24 * Hour + 7 * Minute);
     ("steam:user_achievements:7656:440", 2 * Minute + 7 * Second)]
  /\ draws env' = 2%nat
  /\ clock env' = 5 * Second.
Proof. vm_compute. repeat split; reflexivity. Qed.

End Examples.


(** ** JSON codecs that lose nothing *)

Module Codecs.
Import Cache.

(** A codec is faithful when every value has an encoding and decodes
    back from it, as encoding/json does for the plain structs, slices and
    maps the exporter stores. *)
Definition faithful {A : Type} (J : JSON A) : Prop :=
  forall x : A, exists data, Marshal x = Some data /\ Unmarshal data = Some x.

(** A faithful codec for any countable type: the binary digits of the
    code of a value, lowest first, one per byte. *)
Fixpoint bitsOf (p : positive) : list byte :=
  match p with
  | xH => []
  | xO q => x00 :: bitsOf q
  | xI q => x01 :: bitsOf q
  end.

Fixpoint posOf (bs : list byte) : positive :=
  match bs with
  | [] => xH
  | b :: bs' => if Byte.eqb b x00 then xO (posOf bs') else xI (posOf bs')
  end.

Definition countableJSON (A : Type) `{Countable A} : JSON A :=
  {| Marshal := fun x => Some (bitsOf (encode x));
     Unmarshal := fun bs => decode (posOf bs) |}.

(** The bytes a codec stores for a value. *)
Definition bytesOf {A : Type} (J : JSON A) (x : A) : list byte :=
  match @Marshal A J x with
  | Some data => data
  | None => []
  end.

End Codecs.

(** ** Steam: the gauges of metrics.go *)

Module SteamReport.
Import Steam.

(** The elements a [range] over a slice visits: none for the nil slice. *)
Definition rangeOf {A : Type} (s : slice A) : list A :=
  match s with
  | Some l => l
  | None => []
  end.

Section Gauges.

(** float64 values stay abstract: [ofInt] is the conversion
    [float64(n)]. *)
Context {float64 : Type}.
Variable ofInt : Z -> float64.

(** Label values in the order the vectors declare them: app_id,
    game_name, steam_id, username; and app_id, game_name,
    achievement_name, steam_id, username, achieved. *)
Definition OwnedLabels : Type := string * string * string * string.
Definition AchievementLabels : Type :=
  string * string * string * string * string * string.

Record Gauges : Type := mkGauges {
  ownedGamePlaytimeGauge : gmap OwnedLabels float64;
  achievementGauge : gmap AchievementLabels float64
}.

(** [ReportOwnedGame]; the product is taken on [int]. *)
Definition ReportOwnedGame (game : OwnedGame) (userId username : string)
    (g : Gauges) : Gauges :=
  let playtimeSeconds := ofInt (wrap64 (60 * PlaytimeForever game)) in
  mkGauges
    (<[(Strconv.FormatUint (AppId game), GameName game, userId, username)
       := playtimeSeconds]> (ownedGamePlaytimeGauge g))
    (achievementGauge g).

(** The first loop of [ReportAchievements]. *)
Definition userAchievementMap (userAchievements : slice Achievement)
    : gmap string Z :=
  fold_left (fun m achievement => <[AchName achievement := Achieved achievement]> m)
            (rangeOf userAchievements) ∅.

Definition achievedOf (m : gmap string Z) (globalAchievement : GlobalAchievement)
    : Z :=
  match m !! GlobalName globalAchievement with
  | Some earned => earned
  | None => 0
  end.

Definition achievedLabel (achieved : Z) : string :=
  if achieved =? 1 then "true" else "false".

Definition achievementLabels (gameName : string) (appId : Z)
    (userId username : string) (name : string) (achieved : Z)
    : AchievementLabels :=
  (Strconv.FormatUint appId, gameName, name, userId, username,
   achievedLabel achieved).

(** One iteration of the second loop of [ReportAchievements]. *)
Definition reportAchievement (m : gmap string Z) (gameName : string)
    (appId : Z) (userId username : string) (g : Gauges)
    (globalAchievement : GlobalAchievement) : Gauges :=
  let achieved := achievedOf m globalAchievement in
  mkGauges
    (ownedGamePlaytimeGauge g)
    (<[achievementLabels gameName appId userId username
                         (GlobalName globalAchievement) achieved
       := ofInt achieved]> (achievementGauge g)).

Definition ReportAchievements (userAchievements : slice Achievement)
    (globalAchievements : slice GlobalAchievement) (gameName : string)
    (appId : Z) (userId username : string) (g : Gauges) : Gauges :=
  let m := userAchievementMap userAchievements in
  fold_left (reportAchievement m gameName appId userId username)
            (rangeOf globalAchievements) g.

End Gauges.

End SteamReport.

(** ** Steam: [Collect] and the two cached lookups it starts with *)

Module SteamCollect.
Import Cache Steam SteamReport.

Record OwnedGamesResponse : Type := mkOwnedGamesResponse {
  GameCount : Z;
  Games : slice OwnedGame
}.

Record PlayerSummary : Type := mkPlayerSummary {
  SteamID : string;
  PersonaName : string;
  ProfileURL : string;
  Avatar : string;
  AvatarMedium : string;
  AvatarFull : string
}.

(** The answers of the upstream to the four client calls. *)
Record Upstream : Type := mkUpstream {
  achievements : Client;
  GetOwnedGames : string -> result string OwnedGamesResponse;
  GetPlayerSummaries : list string -> result string (slice PlayerSummary)
}.

(** The environment of [collectAchievements] and the calls of
    [ReportOwnedGame] made so far, with their arguments. *)
Record Session : Type := mkSession {
  base : Env;
  ownedReports : list (OwnedGame * string * string)
}.

Definition ownedGamesKey (steamId : string) : string :=
  ("steam:owned_games:" ++ steamId)%string.

Definition usernameKey (steamId : string) : string :=
  ("steam:username:" ++ steamId)%string.

Section Collector.

Context {jsonState : JSON RateLimitState}.
Context {jsonEntry : JSON cacheEntry}.
Context {jsonGlobal : JSON (slice GlobalAchievement)}.
Context {jsonOwned : JSON OwnedGamesResponse}.
Context {jsonName : JSON string}.
Variable randSource : nat -> Z.

(** [getOwnedGames]. *)
Definition getOwnedGames (up : Upstream) (steamId : string) (env : Env)
    : result string OwnedGamesResponse * Env :=
  let cacheKey := ownedGamesKey steamId in
  let cached : option OwnedGamesResponse :=
    match Get (clock env) (cache env) cacheKey with
    | Some cachedData => Unmarshal cachedData
    | None => None
    end in
  match cached with
  | Some resp => (Ok resp, env)
  | None =>
      match GetOwnedGames up steamId with
      | Err err => (Err err, env)
      | Ok resp =>
          match Marshal resp with
          | Some data =>
              (Ok resp,
               mkEnv (Set_ (clock env) (cache env) cacheKey data (30 * Minute))
                     (clock env) (draws env) (rateLimit env) (reports env))
          | None => (Ok resp, env)
          end
      end
  end.

(** [getUsername]. *)
Definition getUsername (up : Upstream) (steamId : string) (env : Env)
    : result string string * Env :=
  let cacheKey := usernameKey steamId in
  let cached : option string :=
    match Get (clock env) (cache env) cacheKey with
    | Some cachedData =>
        match Unmarshal cachedData with
        | Some username =>
            if negb (String.eqb username "") then Some username else None
        | None => None
        end
    | None => None
    end in
  match cached with
  | Some username => (Ok username, env)
  | None =>
      match GetPlayerSummaries up [steamId] with
      | Err err => (Err ("failed to get player summary: " ++ err)%string, env)
      | Ok summaries =>
          match rangeOf summaries with
          | [] =>
              (Err ("no player summary found for Steam ID " ++ steamId)%string,
               env)
          | first :: _ =>
              let username := PersonaName first in
              if String.eqb username "" then
                (Err ("username (personaname) is empty for Steam ID "
                      ++ steamId)%string, env)
              else
                match Marshal username with
                | Some data =>
                    let ttl := 24 * Hour + Intn randSource 120 (draws env) * Minute in
                    (Ok username,
                     mkEnv (Set_ (clock env) (cache env) cacheKey data ttl)
                           (clock env) (S (draws env)) (rateLimit env)
                           (reports env))
                | None => (Ok username, env)
                end
          end
      end
  end.

(** The owned games [Collect] goes on with: the answer of
    [getOwnedGames], or on a "rate limited" failure the cached answer when
    it decodes and lists a game. *)
Definition resolveOwnedGames (steamId : string) (env : Env)
    (answer : result string OwnedGamesResponse)
    : result string OwnedGamesResponse :=
  match answer with
  | Ok resp => Ok resp
  | Err msg =>
      let failure : result string OwnedGamesResponse :=
        Err ("failed to get owned games: " ++ msg)%string in
      if Contains (ToLower msg) "rate limited" then
        match Get (clock env) (cache env) (ownedGamesKey steamId) with
        | Some cachedData =>
            match Unmarshal cachedData with
            | Some cachedResp =>
                if (0 <? len (Games cachedResp))%nat then Ok cachedResp
                else failure
            | None => failure
            end
        | None => failure
        end
      else failure
  end.

(** [c.rateLimit != nil && c.rateLimit.CheckAndBlock()]. *)
Definition checkRateLimited (env : Env) : bool * Env :=
  match rateLimit env with
  | None => (false, env)
  | Some rl =>
      let '(blocked, rl', c') := CheckAndBlock (clock env) rl (cache env) in
      (blocked,
       mkEnv c' (clock env) (draws env) (Some rl') (reports env))
  end.

(** One iteration of the loop over the games; the error of
    [collectAchievements] is dropped on both paths. *)
Definition collectGame (up : Upstream) (steamId username : string)
    (isRateLimited : bool) (s : Session) (game : OwnedGame) : Session :=
  let owned := ownedReports s ++ [(game, steamId, username)] in
  if isRateLimited then
    mkSession (snd (collectAchievements randSource (achievements up) steamId
                                        game username (base s)))
              owned
  else if PlaytimeForever game =? 0 then mkSession (base s) owned
  else
    mkSession (snd (collectAchievements randSource (achievements up) steamId
                                        game username (base s)))
              owned.

(** [Collect]. *)
Definition Collect (up : Upstream) (steamId : string) (s : Session)
    : result string unit * Session :=
  let '(named, env1) := getUsername up steamId (base s) in
  let username :=
    match named with
    | Ok username => username
    | Err _ => ""%string
    end in
  let '(answer, env2) := getOwnedGames up steamId env1 in
  match resolveOwnedGames steamId env2 answer with
  | Err e => (Err e, mkSession env2 (ownedReports s))
  | Ok ownedGamesResp =>
      let '(isRateLimited, env3) := checkRateLimited env2 in
      (Ok tt,
       fold_left (collectGame up steamId username isRateLimited)
                 (rangeOf (Games ownedGamesResp))
                 (mkSession env3 (ownedReports s)))
  end.

End Collector.

End SteamCollect.

(** ** OSRS: the two fetches of client.go and the collector *)

Module OsrsCollect.
Import Cache Wire Osrs.
Import Steam(slice, len).
Import SteamReport(rangeOf).

(** *** client.go *)

Definition Skills : list string :=
  ["Overall"; "Attack"; "Defence"; "Strength"; "Hitpoints"; "Ranged";
   "Prayer"; "Magic"; "Cooking"; "Woodcutting"; "Fletching"; "Fishing";
   "Firemaking"; "Crafting"; "Smithing"; "Mining"; "Herblore"; "Agility";
   "Thieving"; "Slayer"; "Farming"; "Runecrafting"; "Hunter";
   "Construction"; "Stuff"]%string.

Definition PlayerProfileStandard : string := "Standard".

(** [strings.Split(s, sep)] for a separator of one byte. *)
Fixpoint Split (s : string) (sep : ascii) : list string :=
  match s with
  | EmptyString => [EmptyString]
  | String c s' =>
      if Ascii.eqb c sep then EmptyString :: Split s' sep
      else
        match Split s' sep with
        | part :: parts => String c part :: parts
        | [] => [String c EmptyString]
        end
  end.

Definition newline : ascii := ascii_of_nat 10.
Definition comma : ascii := ascii_of_nat 44.

(** What the HTTP round trip gave: a transport error, or a status with
    the body or the error of reading it. *)
Inductive Answer (body : Type) : Type :=
| Failed (err : string)
| Responded (status : Z) (read : result string body).
Arguments Failed {body} err.
Arguments Responded {body} status read.

(** [fmt.Sprintf] of an [int] under the verb d. *)
Definition FormatInt (n : Z) : string := pretty n.

Section PlayerStats.

(** [strings.TrimSpace] stays abstract. *)
Variable TrimSpace : string -> string.

(** The loop over the lines; [i] is the index of the line. *)
Fixpoint parseLines (rsn : string) (i : nat) (lines : list string)
    (skills : slice SkillInfo) : slice SkillInfo :=
  match lines with
  | [] => skills
  | line :: rest =>
      let line := TrimSpace line in
      if String.eqb line "" then parseLines rsn (S i) rest skills
      else
        let parts := Split line comma in
        match parts with
        | [rank; level; xp] =>
            match Skills !! i with
            | None => skills
            | Some name =>
                let skill :=
                  mkSkillInfo rank level xp name rsn PlayerProfileStandard in
                parseLines rsn (S i) rest (Some (rangeOf skills ++ [skill]))
            end
        | _ => parseLines rsn (S i) rest skills
        end
  end.

(** [GetPlayerStats]. *)
Definition GetPlayerStats (rsn : string) (answer : Answer string)
    : result string (slice SkillInfo) :=
  match answer with
  | Failed err => Err ("failed to fetch player stats: " ++ err)%string
  | Responded status read =>
      if negb (status =? 200) then
        Err ("player not found (status: " ++ FormatInt status ++ ")")%string
      else
        match read with
        | Err err => Err ("failed to read response: " ++ err)%string
        | Ok body => Ok (parseLines rsn 0 (Split body newline) None)
        end
  end.

End PlayerStats.

(** Errors of [GetWorldData]. *)
Inductive WorldDataError : Type :=
| FetchFailed (err : string)
| BadStatus (status : Z)
| ReadFailed (err : string)
| EmptyBody
| Undecodable (err : DecodeError).

(** The slice [decodeWorldData] returns: [worlds] is declared without a
    value and stays nil until the first [append]; the return on a failed
    realignment is the empty literal. *)
Definition decodedSlice (e : LoopEnd) : result DecodeError (slice World) :=
  match stop e with
  | StopError err => Err err
  | StopNoAlignment => Ok (Some [])
  | _ => Ok (match parsed e with
             | [] => None
             | worlds => Some worlds
             end)
  end.

Definition decodeWorldDataSlice (data : list byte)
    : result DecodeError (slice World) :=
  if (length data <? 6)%nat then Err (ErrTooShort (length data))
  else
    let r := NewReader data in
    let? (bufferSizeRaw, r1) := mapErr ErrBufferSize (readInt32 r) in
    match readInt16 r1 with
    | Err EOF => Err ErrWorldCountEOF
    | Err e => Err (ErrWorldCount e)
    | Ok (numWorlds, r2) => decodedSlice (decodeRun numWorlds r2)
    end.

(** [GetWorldData]. *)
Definition GetWorldData (answer : Answer (list byte))
    : result WorldDataError (slice World) :=
  match answer with
  | Failed err => Err (FetchFailed err)
  | Responded status read =>
      if negb (status =? 200) then Err (BadStatus status)
      else
        match read with
        | Err err => Err (ReadFailed err)
        | Ok body =>
            if (length body =? 0)%nat then Err EmptyBody
            else mapErr Undecodable (decodeWorldDataSlice body)
        end
  end.

(** *** collector.go *)

(** The value kept under a player-stats key. *)
Record statsEntry : Type := mkStatsEntry {
  Stats : slice SkillInfo;
  LastUpdate : Z
}.

(** The two errors of the collector, each wrapping the error of the
    fetch. *)
Inductive CollectError (E : Type) : Type :=
| FailedToGetPlayerStats (err : E)
| FailedToGetWorldData (err : E).
Arguments FailedToGetPlayerStats {E} err.
Arguments FailedToGetWorldData {E} err.

Definition playerStatsKey (rsn : string) : string :=
  ("osrs:player_stats:" ++ rsn)%string.

Definition worldDataKey : string := "osrs:world_data".

Section Collector.

Context {float64 : Type}.
Variable ParseFloat : string -> float64.
Variable ofInt : Z -> float64.
Context {jsonStats : JSON statsEntry}.
Context {jsonWorlds : JSON (slice World)}.

(** [CollectPlayerStats]; [fetched] is what [GetPlayerStats] answers if
    it is called. *)
Definition CollectPlayerStats {E : Type} (fetched : result E (slice SkillInfo))
    (rsn mode : string) (now : Z) (c : Cache) (g : Gauges)
    : result (CollectError E) unit * Cache * Gauges :=
  let cacheKey := playerStatsKey rsn in
  let stats : slice SkillInfo :=
    match Get now c cacheKey with
    | Some cachedData =>
        match Unmarshal cachedData with
        | Some entry => Stats entry
        | None => None
        end
    | None => None
    end in
  let report (stats : slice SkillInfo) (c : Cache) :=
    (Ok tt, c,
     ReportPlayerStats ParseFloat ofInt (rangeOf stats) mode
                       (ResetWorldMetrics g)) in
  match stats with
  | Some _ => report stats c
  | None =>
      match fetched with
      | Err err => (Err (FailedToGetPlayerStats err), c, g)
      | Ok freshStats =>
          let entry := mkStatsEntry freshStats now in
          let c :=
            match Marshal entry with
            | Some data => Set_ now c cacheKey data (15 * Minute)
            | None => c
            end in
          report freshStats c
      end
  end.

(** [CollectWorldData]; [fetched] is what [GetWorldData] answers if it
    is called. *)
Definition CollectWorldData {E : Type} (fetched : result E (slice World))
    (now : Z) (c : Cache) (g : Gauges)
    : result (CollectError E) unit * Cache * Gauges :=
  let cacheKey := worldDataKey in
  let worlds : slice World :=
    match Get now c cacheKey with
    | Some cachedData =>
        match Unmarshal cachedData with
        | Some worlds => worlds
        | None => None
        end
    | None => None
    end in
  let report (worlds : slice World) (c : Cache) :=
    (Ok tt, c,
     ReportWorldData ofInt (rangeOf worlds) (ResetPlayerMetrics g)) in
  match worlds with
  | Some _ => report worlds c
  | None =>
      match fetched with
      | Err err => (Err (FailedToGetWorldData err), c, g)
      | Ok freshWorlds =>
          let c :=
            match Marshal freshWorlds with
            | Some data => Set_ now c cacheKey data (5 * Minute)
            | None => c
            end in
          report freshWorlds c
      end
  end.

End Collector.

End OsrsCollect.

(** ** The metric endpoints: metrics_filter.go *)

Module Api.

Section Gatherers.

(** A [dto.MetricFamily]: the name, which is a pointer and may be nil,
    and the rest of the family. *)
Context {content : Type}.

Record MetricFamily : Type := mkMetricFamily {
  FamilyName : option string;
  Content : content
}.

(** What the wrapped gatherer's [Gather] returned. *)
Definition Gathered : Type := result string (list MetricFamily).

(** [len(name) >= len(prefix) && name[:len(prefix)] == prefix]; the
    slice is in range under the first conjunct. *)
Definition startsWith (name prefix : string) : bool :=
  (String.length prefix <=? String.length name)%nat
  && String.eqb (substring 0 (String.length prefix) name) prefix.

(** The loop of [FilteredGatherer.Gather]. *)
Definition keepPrefixed (prefix : string) (filtered : list MetricFamily)
    (mf : MetricFamily) : list MetricFamily :=
  match FamilyName mf with
  | Some name =>
      if startsWith name prefix then filtered ++ [mf] else filtered
  | None => filtered
  end.

Definition FilteredGather (prefix : string) (inner : Gathered) : Gathered :=
  let? all := inner in
  Ok (fold_left (keepPrefixed prefix) all []).

(** The inner loop of [ExcludedPrefixGatherer.Gather], left at the first
    prefix that matches. *)
Fixpoint anyPrefix (name : string) (excluded : list string) : bool :=
  match excluded with
  | [] => false
  | prefix :: rest =>
      if startsWith name prefix then true else anyPrefix name rest
  end.

Definition dropExcluded (excluded : list string)
    (filtered : list MetricFamily) (mf : MetricFamily) : list MetricFamily :=
  match FamilyName mf with
  | None => filtered
  | Some name =>
      if negb (anyPrefix name excluded) then filtered ++ [mf] else filtered
  end.

Definition ExcludedGather (excluded : list string) (inner : Gathered)
    : Gathered :=
  let? all := inner in
  Ok (fold_left (dropExcluded excluded) all []).

(** The gatherers behind the three handlers. *)
Definition SystemMetricsHandler (inner : Gathered) : Gathered :=
  ExcludedGather ["steam_"; "osrs_"]%string inner.

Definition SteamHandler (inner : Gathered) : Gathered :=
  FilteredGather "steam_" inner.

Definition OSRSHandler (inner : Gathered) : Gathered :=
  FilteredGather "osrs_" inner.

End Gatherers.

Arguments MetricFamily : clear implicits.
Arguments Gathered : clear implicits.

End Api.

(** ** Further vocabulary for the statements *)

Module DecoderTerms.
Import Wire Osrs.

(** The types of the table entries whose flag is set, in table order. *)
Definition flagged (flags : Z) (tbl : list (Z * WorldType)) : list WorldType :=
  map snd (filter (fun p => flagSet flags (fst p) = true) tbl).

(** The entries of the flag table whose type is a case of the switch in
    [World.WorldType], in table order. *)
Definition switchTable : list (Z * WorldType) :=
  List.filter (fun p => match switchCase (snd p) with Some _ => true | None => false end)
              flagTable.

(** What every decoded world satisfies. *)
Definition plausible (w : World) : Prop :=
  300 <= ID w <= 700 /\ Types w <> [] /\ - 32768 <= Players w < 32768.

(** The errors of the reads inside a record. *)
Definition fieldError (e : DecodeError) : Prop :=
  match e with
  | ErrTypeFlags _ | ErrAddress _ | ErrActivity _ | ErrLocation _
  | ErrPlayerCount _ => True
  | _ => False
  end.

End DecoderTerms.

Module CollectorTerms.
Import Cache Steam.

(** The [Set] calls between two environments all satisfy [P]. *)
Definition writesOnly (P : string -> Item -> Prop) (before after : Env) : Prop :=
  exists new, setCalls (cache after) = setCalls (cache before) ++ new
              /\ forall key item, In (key, item) new -> P key item.

End CollectorTerms.

Module ReportTerms.
Import Steam.

(** [u] is the last entry of the user's list that bears [name]. *)
Definition lastNamed (l : list Achievement) (name : string) (u : Achievement)
    : Prop :=
  exists before after,
    l = before ++ u :: after
    /\ AchName u = name
    /\ forall v, In v after -> AchName v <> name.

(** What the user's list says of an achievement name: the achieved value
    of its last entry with that name, 0 when no entry has it. *)
Definition earned (l : list Achievement) (name : string) (value : Z) : Prop :=
  (exists u, lastNamed l name u /\ value = Achieved u)
  \/ ((forall u, In u l -> AchName u <> name) /\ value = 0).

End ReportTerms.

Module OsrsTerms.
Import Osrs OsrsCollect.

(** The map [IsActive] stores: the loop filling [currentXP]. *)
Definition snapshot (stats : list SkillInfo) : gmap string Z :=
  snd (fold_left (xpStep ∅) stats (false, ∅)).

(** [xp, _ := strconv.ParseInt(stat.XP, 10, 64)]. *)
Definition xpOf (stat : SkillInfo) : Z := fst (Strconv.ParseInt (XP stat)).

(** [strings.Join(parts, sep)] for a separator of one byte. *)
Fixpoint Join (parts : list string) (sep : ascii) : string :=
  match parts with
  | [] => EmptyString
  | part :: rest =>
      match rest with
      | [] => part
      | _ => (part ++ String sep (Join rest sep))%string
      end
  end.

(** Whether the byte occurs in the string. *)
Fixpoint occurs (c : ascii) (s : string) : bool :=
  match s with
  | EmptyString => false
  | String d s' => Ascii.eqb d c || occurs c s'
  end.

End OsrsTerms.

Module GatherTerms.
Import Api.

Section Families.
Context {content : Type}.

(** The condition of the loop of [FilteredGatherer.Gather]. *)
Definition named (prefix : string) (mf : MetricFamily content) : bool :=
  match FamilyName mf with
  | Some name => startsWith name prefix
  | None => false
  end.

(** The condition of the loop of [ExcludedPrefixGatherer.Gather]. *)
Definition kept (excluded : list string) (mf : MetricFamily content) : bool :=
  match FamilyName mf with
  | Some name => negb (anyPrefix name excluded)
  | None => false
  end.

End Families.

End GatherTerms.

(** ** Sample codecs, caches and upstreams *)

Module Samples.
Import Cache Osrs Steam SteamReport SteamCollect OsrsCollect Codecs.

#[global] Instance RateLimitState_eq_dec : EqDecision RateLimitState.
Proof. solve_decision. Defined.

#[global] Instance RateLimitState_countable : Countable RateLimitState.
Proof.
  refine (inj_countable'
            (fun s => (IsRateLimited s, BlockedUntil s, Consecutive403 s, BackoffHours s))
            (fun t => let '(a, b, c, d) := t in mkRateLimitState a b c d) _).
  intros []. reflexivity.
Defined.

#[global] Instance Achievement_eq_dec : EqDecision Achievement.
Proof. solve_decision. Defined.

#[global] Instance Achievement_countable : Countable Achievement.
Proof.
  refine (inj_countable' (fun a => (AchName a, Achieved a))
                         (fun t => mkAchievement (fst t) (snd t)) _).
  intros []. reflexivity.
Defined.

#[global] Instance GlobalAchievement_eq_dec : EqDecision GlobalAchievement.
Proof. solve_decision. Defined.

#[global] Instance GlobalAchievement_countable : Countable GlobalAchievement.
Proof.
  refine (inj_countable' (fun a => (GlobalName a, Percent a))
                         (fun t => mkGlobalAchievement (fst t) (snd t)) _).
  intros []. reflexivity.
Defined.

#[global] Instance cacheEntry_eq_dec : EqDecision cacheEntry.
Proof. unfold slice. solve_decision. Defined.

#[global] Instance cacheEntry_countable : Countable cacheEntry.
Proof.
  refine (inj_countable'
            (fun e => ((UserAchievements e : option (list Achievement)), Playtime e))
            (fun t => mkCacheEntry (fst t) (snd t)) _).
  intros []. reflexivity.
Defined.

#[global] Instance OwnedGame_eq_dec : EqDecision OwnedGame.
Proof. solve_decision. Defined.

#[global] Instance OwnedGame_countable : Countable OwnedGame.
Proof.
  refine (inj_countable' (fun g => (AppId g, GameName g, PlaytimeForever g))
                         (fun t => let '(a, b, c) := t in mkOwnedGame a b c) _).
  intros []. reflexivity.
Defined.

#[global] Instance OwnedGamesResponse_eq_dec : EqDecision OwnedGamesResponse.
Proof. unfold slice. solve_decision. Defined.

#[global] Instance OwnedGamesResponse_countable : Countable OwnedGamesResponse.
Proof.
  refine (inj_countable'
            (fun r => (GameCount r, (Games r : option (list OwnedGame))))
            (fun t => mkOwnedGamesResponse (fst t) (snd t)) _).
  intros []. reflexivity.
Defined.

Definition allWorldTypes : list WorldType :=
  [WorldTypeFreeToPlay; WorldTypeMembers; WorldTypePVP; WorldTypeBounty;
   WorldTypePVPArena; WorldTypeSkillTotal; WorldTypeQuestSpeedrunning;
   WorldTypeHighRisk; WorldTypeLastManStanding; WorldTypeNoSaveMode;
   WorldTypeTournament; WorldTypeFreshStartWorld; WorldTypeDeadman;
   WorldTypeBeta; WorldTypeSoulWars; WorldTypeMinigame; WorldTypeSeasonal;
   WorldTypeUnknown].

Definition allWorldLocations : list WorldLocation :=
  [WorldLocationGermany; WorldLocationUSA; WorldLocationUK;
   WorldLocationAustralia; WorldLocationUnknown].

#[global] Instance WorldType_countable : Countable WorldType.
Proof.
  refine (inj_countable WorldType_string
            (fun s => List.find (fun t => String.eqb (WorldType_string t) s)
                                allWorldTypes) _).
  intros []; reflexivity.
Defined.

#[global] Instance WorldLocation_countable : Countable WorldLocation.
Proof.
  refine (inj_countable WorldLocation_string
            (fun s => List.find (fun l => String.eqb (WorldLocation_string l) s)
                                allWorldLocations) _).
  intros []; reflexivity.
Defined.

#[global] Instance byte_eq_dec : EqDecision byte := Byte.byte_eq_dec.

#[global] Instance byte_countable : Countable byte.
Proof.
  refine (inj_countable Byte.to_N Byte.of_N _).
  intros b. apply Byte.of_to_N.
Defined.

#[global] Instance World_eq_dec : EqDecision World.
Proof. solve_decision. Defined.

#[global] Instance World_countable : Countable World.
Proof.
  refine (inj_countable'
            (fun w => (ID w, Types w, Address w, Activity w, Location w,
                       Players w))
            (fun t => let '(a, b, c, d, e, f) := t in mkWorld a b c d e f) _).
  intros []. reflexivity.
Defined.

#[global] Instance SkillInfo_eq_dec : EqDecision SkillInfo.
Proof. solve_decision. Defined.

Definition stateJSON : JSON RateLimitState := countableJSON RateLimitState.
Definition entryJSON : JSON cacheEntry := countableJSON cacheEntry.
Definition globalsJSON : JSON (slice GlobalAchievement) :=
  countableJSON (option (list GlobalAchievement)).
Definition ownedJSON : JSON OwnedGamesResponse :=
  countableJSON OwnedGamesResponse.
Definition nameJSON : JSON string := countableJSON string.
Definition xpJSON : JSON (gmap string Z) := countableJSON (gmap string Z).
Definition worldsJSON : JSON (slice World) :=
  countableJSON (option (list World)).

Definition sampleGlobals : list GlobalAchievement :=
  [mkGlobalAchievement "first" "50.0"].

Definition sampleEntry (playtime : Z) : cacheEntry :=
  mkCacheEntry (Some [mkAchievement "first" 1]) playtime.

(** An environment at time 0 whose cache holds the global list of game 440
    and, for user 7656, the achievements seen at the given playtime. *)
Definition warmEnv (playtime : Z) (limiter : option RateLimitState) : Env :=
  let c := Set_ 0 Cache.empty (globalAchievementsKey 440)
                (bytesOf globalsJSON (Some sampleGlobals)) (7 * 24 * Hour) in
  let c := Set_ 0 c (userAchievementsKey "7656" 440)
                (bytesOf entryJSON (sampleEntry playtime)) (4 * Hour) in
  mkEnv c 0 0 limiter [].

(** A client whose every request fails with the given message. *)
Definition failingClient (msg : string) : Client :=
  mkClient (fun _ => Err msg) (fun _ _ => Err msg).

(** An upstream that owns two games, one of them never played, and knows
    the user as "name". *)
Definition sampleLibrary : OwnedGamesResponse :=
  mkOwnedGamesResponse 2
    (Some [mkOwnedGame 440 "game" 90; mkOwnedGame 570 "other" 0]).

Definition sampleUpstream : Upstream :=
  mkUpstream Examples.sampleClient
             (fun _ => Ok sampleLibrary)
             (fun _ => Ok (Some [mkPlayerSummary "7656" "name" "" "" "" ""])).


(** One skill line of a player, with the given experience. *)
Definition sampleSkill (xp : string) : SkillInfo :=
  mkSkillInfo "1200" "99" xp "Attack" "player" "Standard".

Definition freshSession : Session :=
  mkSession (Scenarios.firstObservation 0 0 None) [].

End Samples.
(** ** Facts about the reader and the wire format *)

Module DecoderFacts.
Import Wire Osrs WireFormat Scenarios.

Lemma u8_range b : 0 <= u8 b < 256.
Proof.
  unfold u8. pose proof (Byte.to_N_bounded b). lia.
Qed.

Lemma u8_byteOf z : u8 (byteOf z) = z mod 256.
Proof.
  unfold u8, byteOf.
  pose proof (Z.mod_pos_bound z 256 ltac:(lia)) as Hb.
  destruct (Byte.of_N (Z.to_N (z mod 256))) as [b|] eqn:E.
  - apply Byte.to_of_N in E. rewrite E. lia.
  - apply Byte.of_N_None_iff in E. lia.
Qed.

Lemma lor_shiftl_add a b n :
  0 <= n -> 0 <= a < 2 ^ n -> Z.lor a (Z.shiftl b n) = a + b * 2 ^ n.
Proof.
  intros Hn Ha.
  pose proof (Z.add_lor_land a (Z.shiftl b n)) as Hadd.
  assert (Z.land a (Z.shiftl b n) = 0) as Hland.
  { apply Z.bits_inj'. intros k Hk.
    rewrite Z.land_spec, Z.bits_0.
    destruct (Z.lt_ge_cases k n).
    - rewrite (Z.shiftl_spec_low b n k) by lia. apply andb_false_r.
    - rewrite <- (Z.mod_small a (2 ^ n)) by lia.
      rewrite Z.mod_pow2_bits_high by lia. reflexivity. }
  rewrite Z.shiftl_mul_pow2 in * by lia. lia.
Qed.

Lemma le16_add b0 b1 : le16 b0 b1 = u8 b0 + 256 * u8 b1.
Proof.
  unfold le16. rewrite lor_shiftl_add; [lia | lia |].
  pose proof (u8_range b0). simpl. lia.
Qed.

Lemma le32_add b0 b1 b2 b3 :
  le32 b0 b1 b2 b3 = u8 b0 + 256 * u8 b1 + 65536 * u8 b2 + 16777216 * u8 b3.
Proof.
  unfold le32.
  pose proof (u8_range b0). pose proof (u8_range b1). pose proof (u8_range b2).
  rewrite (lor_shiftl_add (u8 b0)) by (simpl; lia).
  rewrite (lor_shiftl_add _ _ 16) by (simpl; lia).
  rewrite (lor_shiftl_add _ _ 24) by (simpl; lia).
  lia.
Qed.

Lemma le16_put z : le16 (byteOf z) (byteOf (z / 256)) = z mod 65536.
Proof.
  rewrite le16_add, !u8_byteOf.
  replace (z mod 65536) with (z - 65536 * (z / 256 / 256)).
  2:{ rewrite Z.div_div by lia. change (256 * 256) with 65536.
      pose proof (Z.mod_eq z 65536 ltac:(lia)). lia. }
  pose proof (Z.mod_eq z 256 ltac:(lia)).
  pose proof (Z.mod_eq (z / 256) 256 ltac:(lia)).
  lia.
Qed.

Lemma le32_put z :
  le32 (byteOf z) (byteOf (z / 256)) (byteOf (z / 65536)) (byteOf (z / 16777216))
  = z mod 4294967296.
Proof.
  rewrite le32_add, !u8_byteOf.
  replace (z / 65536) with (z / 256 / 256) by (rewrite Z.div_div by lia; reflexivity).
  replace (z / 16777216) with (z / 256 / 256 / 256) by (rewrite !Z.div_div by lia; reflexivity).
  replace (z mod 4294967296) with (z - 4294967296 * (z / 256 / 256 / 256 / 256)).
  2:{ rewrite !Z.div_div by lia. change (256 * (256 * (256 * 256))) with 4294967296.
      pose proof (Z.mod_eq z 4294967296 ltac:(lia)). lia. }
  pose proof (Z.mod_eq z 256 ltac:(lia)).
  pose proof (Z.mod_eq (z / 256) 256 ltac:(lia)).
  pose proof (Z.mod_eq (z / 256 / 256) 256 ltac:(lia)).
  pose proof (Z.mod_eq (z / 256 / 256 / 256) 256 ltac:(lia)).
  lia.
Qed.

Lemma signed_mod w z :
  0 < w -> - 2 ^ (w - 1) <= z < 2 ^ (w - 1) -> signed w (z mod 2 ^ w) = z.
Proof.
  intros Hw Hz. unfold signed.
  assert (2 ^ w = 2 * 2 ^ (w - 1)) as Hp.
  { replace w with (Z.succ (w - 1)) at 1 by lia. rewrite Z.pow_succ_r; lia. }
  destruct (Z.lt_ge_cases z 0).
  - replace (z mod 2 ^ w) with (z + 2 ^ w).
    2:{ apply Z.mod_unique with (q := -1); lia. }
    destruct (Z.ltb_spec (z + 2 ^ w) (2 ^ (w - 1))); lia.
  - rewrite Z.mod_small by lia.
    destruct (Z.ltb_spec z (2 ^ (w - 1))); lia.
Qed.


Lemma unread_advance r n : unread (advance r n) = drop n (unread r).
Proof. unfold unread, advance. simpl. rewrite drop_drop. reflexivity. Qed.

Lemma advance_advance r n m : advance (advance r n) m = advance r (n + m).
Proof. unfold advance. simpl. f_equal. lia. Qed.

Lemma Len_unread r : Len r = length (unread r).
Proof. unfold Len, unread. rewrite length_drop. reflexivity. Qed.

Lemma readStringLoop_spec s :
  forall fuel r rest acc,
    noNul s -> unread r = s ++ x00 :: rest -> (length s < fuel)%nat ->
    readStringLoop fuel r acc = Ok (acc ++ s, advance r (S (length s))).
Proof.
  induction s as [|b s IH]; intros fuel r rest acc Hs Hr Hfuel;
    (destruct fuel as [|fuel]; [simpl in Hfuel; lia|]);
    cbn [readStringLoop]; unfold ReadByte; rewrite Hr; cbn [app].
  - cbn [Byte.eqb]. rewrite app_nil_r. reflexivity.
  - inversion Hs as [|? ? Hb Hs']; subst.
    destruct (Byte.eqb b x00) eqn:E.
    + apply Byte.byte_dec_bl in E. contradiction.
    + rewrite (IH fuel (advance r 1) rest (acc ++ [b]) Hs').
      * rewrite <- app_assoc, advance_advance. reflexivity.
      * rewrite unread_advance, Hr. reflexivity.
      * simpl in Hfuel. lia.
Qed.

Lemma readString_spec r s rest :
  noNul s -> unread r = s ++ x00 :: rest ->
  readNullTerminatedString r = Ok (s, advance r (S (length s))).
Proof.
  intros Hs Hr. unfold readNullTerminatedString.
  rewrite (readStringLoop_spec s _ r rest [] Hs Hr); [reflexivity|].
  rewrite Len_unread, Hr, length_app. simpl. lia.
Qed.

Lemma encodeBody_app w rest :
  encodeBody w ++ rest
  = put32 (wFlags w)
    ++ (wAddress w ++ x00 :: (wActivity w ++ x00 ::
         (byteOf (wLocation w) :: put16 (wPlayers w) ++ rest))).
Proof.
  unfold encodeBody. rewrite <- ?app_assoc. simpl.
  rewrite <- ?app_assoc. reflexivity.
Qed.

Lemma encodeBody_length w :
  length (encodeBody w)
  = (4 + S (length (wAddress w)) + S (length (wActivity w)) + 1 + 2)%nat.
Proof.
  unfold encodeBody. rewrite !length_app. simpl. lia.
Qed.

Lemma readInt32_spec r z rest :
  - 2 ^ 31 <= z < 2 ^ 31 -> unread r = put32 z ++ rest ->
  readInt32 r = Ok (z, advance r 4).
Proof.
  intros Hz Hr. unfold readInt32. rewrite Hr. cbn [put32 app].
  rewrite le32_put. change 4294967296 with (2 ^ 32).
  rewrite signed_mod by lia. reflexivity.
Qed.

Lemma readUint16_spec r z rest :
  0 <= z < 65536 -> unread r = put16 z ++ rest ->
  readUint16 r = Ok (z, advance r 2).
Proof.
  intros Hz Hr. unfold readUint16. rewrite Hr. cbn [put16 app].
  rewrite le16_put, Z.mod_small by lia. reflexivity.
Qed.

Lemma readInt16_spec r z rest :
  - 32768 <= z < 32768 -> unread r = put16 z ++ rest ->
  readInt16 r = Ok (z, advance r 2).
Proof.
  intros Hz Hr. unfold readInt16, readUint16. rewrite Hr. cbn [put16 app].
  rewrite le16_put. change 65536 with (2 ^ 16).
  rewrite signed_mod by lia. reflexivity.
Qed.

Lemma readInt8_spec r z rest :
  - 128 <= z < 128 -> unread r = byteOf z :: rest ->
  readInt8 r = Ok (z, advance r 1).
Proof.
  intros Hz Hr. unfold readInt8. rewrite Hr.
  rewrite u8_byteOf. change 256 with (2 ^ 8).
  rewrite signed_mod by lia. reflexivity.
Qed.

Lemma unread_step r n pre rest :
  unread r = pre ++ rest -> n = length pre -> unread (advance r n) = rest.
Proof.
  intros Hr ->. rewrite unread_advance, Hr. apply drop_app_length.
Qed.

Lemma unread_string r s rest :
  unread r = s ++ x00 :: rest -> unread (advance r (S (length s))) = rest.
Proof.
  intros Hr. apply unread_step with (pre := s ++ [x00]).
  - rewrite Hr, <- app_assoc. reflexivity.
  - rewrite length_app. simpl. lia.
Qed.

Lemma unread_byte r b rest :
  unread r = b :: rest -> unread (advance r 1) = rest.
Proof.
  intros Hr. apply unread_step with (pre := [b]); [exact Hr | reflexivity].
Qed.

Lemma readWorldBody_encode id w r rest :
  wellFormed w -> unread r = encodeBody w ++ rest ->
  readWorldBody id r
  = Ok (mkWorld id (parseWorldTypes (wFlags w)) (wAddress w) (wActivity w)
                (locationFromByte (wLocation w)) (wPlayers w),
        advance r (length (encodeBody w))).
Proof.
  intros [Hid Hfl Had Hac Hlo Hpl] Hr.
  rewrite encodeBody_app in Hr. rewrite encodeBody_length. unfold readWorldBody.
  rewrite (readInt32_spec _ _ _ Hfl Hr). cbn [mapErr].
  apply unread_step with (n := 4%nat) in Hr; [|reflexivity].
  rewrite (readString_spec _ _ _ Had Hr). cbn [mapErr].
  apply unread_string in Hr.
  rewrite (readString_spec _ _ _ Hac Hr). cbn [mapErr].
  apply unread_string in Hr.
  rewrite (readInt8_spec _ _ _ Hlo Hr). cbn [mapErr].
  apply unread_byte in Hr.
  rewrite (readInt16_spec _ _ _ Hpl Hr). cbn [mapErr].
  rewrite !advance_advance. do 3 f_equal. lia.
Qed.

Lemma encodeWorld_length w : (11 <= length (encodeWorld w))%nat.
Proof.
  unfold encodeWorld. rewrite length_app, encodeBody_length. simpl. lia.
Qed.

Lemma decodeLoop_records recs :
  forall iter fuel i r ws rest,
    Forall wellFormed recs ->
    Forall inRange recs ->
    unread r = encodeWorlds recs ++ rest ->
    decodeLoop iter (length recs + fuel) i r ws
    = decodeLoop iter fuel (i + length recs)
        (advance r (length (encodeWorlds recs))) (ws ++ map worldOf recs).
Proof.
  induction recs as [|w recs IH]; intros iter fuel i r ws rest Hwf Hid Hr.
  - simpl. rewrite app_nil_r, Nat.add_0_r.
    destruct r; unfold advance; simpl. rewrite Nat.add_0_r. reflexivity.
  - inversion Hwf as [|? ? Hw Hwf']; subst.
    inversion Hid as [|? ? Hv Hid']; subst.
    unfold encodeWorlds in Hr. cbn [flat_map] in Hr.
    unfold encodeWorld in Hr at 1. rewrite <- !app_assoc in Hr.
    cbn [length Nat.add decodeLoop].
    assert (11 <= Len r)%nat as HLen.
    { rewrite Len_unread, Hr, !length_app, encodeBody_length. simpl. lia. }
    destruct (Nat.ltb_spec (Len r) 11); [lia|].
    rewrite (readUint16_spec _ _ _ (wf_id _ Hw) Hr).
    unfold validID in Hv. apply negb_true_iff in Hv. rewrite Hv.
    apply unread_step with (n := 2%nat) in Hr; [|reflexivity].
    rewrite (readWorldBody_encode _ _ _ _ Hw Hr).
    apply unread_step with (n := length (encodeBody w)) in Hr; [|reflexivity].
    cbv zeta. cbn beta iota.
    change (mkWorld (wID w) _ _ _ _ _) with (worldOf w).
    rewrite (IH iter fuel (S i) _ (ws ++ [worldOf w]) rest Hwf' Hid' Hr).
    rewrite !advance_advance, <- app_assoc. cbn [map app].
    unfold encodeWorlds. cbn [flat_map]. rewrite length_app.
    unfold encodeWorld at 2. rewrite length_app. cbn [put16 length].
    replace (S i + length recs)%nat with (i + S (length recs))%nat by lia.
    rewrite Nat.add_assoc. reflexivity.
Qed.


Lemma sampleFirst_ok : wellFormed sampleFirst /\ inRange sampleFirst.
Proof.
  split; [|reflexivity].
  constructor; simpl; try lia; repeat constructor; discriminate.
Qed.

Lemma sampleSecond_ok : wellFormed sampleSecond /\ inRange sampleSecond.
Proof.
  split; [|reflexivity].
  constructor; simpl; try lia; repeat constructor; discriminate.
Qed.

Lemma samples_ok :
  Forall wellFormed [sampleFirst; sampleSecond]
  /\ Forall inRange [sampleFirst; sampleSecond].
Proof.
  destruct sampleFirst_ok, sampleSecond_ok.
  split; (constructor; [assumption|]; constructor; [assumption|]; constructor).
Qed.

Lemma header_length bufferSize count : length (header bufferSize count) = 6%nat.
Proof. reflexivity. Qed.

Lemma outcome_decodeLoop_short iter fuel i r ws :
  (Len r < 11)%nat -> outcome (decodeLoop iter fuel i r ws) = Ok ws.
Proof.
  intros H. destruct fuel as [|fuel]; simpl; [reflexivity|].
  destruct (Nat.ltb_spec (Len r) 11); [reflexivity | lia].
Qed.

Lemma outcome_decodeLoop_done iter i r ws :
  outcome (decodeLoop iter 0 i r ws) = Ok ws.
Proof. reflexivity. Qed.

(** Reading the header of a payload that starts with [header]. *)
Lemma decodeWorldData_header bufferSize count payload :
  - 32768 <= count < 32768 ->
  decodeWorldData (header bufferSize count ++ payload)
  = outcome (decodeRun count (mkReader (header bufferSize count ++ payload) 6)).
Proof.
  intros Hc. unfold decodeWorldData.
  rewrite length_app, header_length.
  destruct (Nat.ltb_spec (6 + length payload) 6); [lia|].
  unfold readInt32, NewReader, unread. cbn [buf off drop header put32 app mapErr].
  assert (unread (advance (mkReader (header bufferSize count ++ payload) 0) 4)
          = put16 count ++ payload) as Hr by reflexivity.
  change (byteOf bufferSize :: _ :: _ :: _ :: put16 count ++ payload)
    with (header bufferSize count ++ payload).
  rewrite (readInt16_spec _ _ _ Hc Hr). reflexivity.
Qed.

Lemma unread_after_header bufferSize count payload :
  unread (mkReader (header bufferSize count ++ payload) 6) = payload.
Proof. reflexivity. Qed.

(** Every successful read leaves the reader on the same slice. *)
Lemma readUint16_buf r v r' : readUint16 r = Ok (v, r') -> buf r' = buf r.
Proof.
  unfold readUint16. destruct (unread r) as [|? [|? ?]]; intros H; inversion H.
  reflexivity.
Qed.

Lemma readInt16_buf r v r' : readInt16 r = Ok (v, r') -> buf r' = buf r.
Proof.
  unfold readInt16. destruct (readUint16 r) as [[? ?]|] eqn:E; intros H; inversion H.
  subst. eapply readUint16_buf; eassumption.
Qed.

Lemma readInt32_buf r v r' : readInt32 r = Ok (v, r') -> buf r' = buf r.
Proof.
  unfold readInt32. destruct (unread r) as [|? [|? [|? [|? ?]]]]; intros H; inversion H.
  reflexivity.
Qed.

Lemma readInt8_buf r v r' : readInt8 r = Ok (v, r') -> buf r' = buf r.
Proof.
  unfold readInt8. destruct (unread r) as [|? ?]; intros H; inversion H.
  reflexivity.
Qed.

Lemma readStringLoop_buf fuel :
  forall r acc v r', readStringLoop fuel r acc = Ok (v, r') -> buf r' = buf r.
Proof.
  induction fuel as [|fuel IH]; intros r acc v r'; cbn [readStringLoop];
    [discriminate|].
  unfold ReadByte. destruct (unread r) as [|b rest]; [discriminate|].
  destruct (Byte.eqb b x00).
  - intros H; inversion H; subst. reflexivity.
  - intros H. apply IH in H. exact H.
Qed.

Lemma readString_buf r v r' :
  readNullTerminatedString r = Ok (v, r') -> buf r' = buf r.
Proof. apply readStringLoop_buf. Qed.

Lemma mapErr_Ok {E F A} (f : E -> F) (m : result E A) a :
  mapErr f m = Ok a -> m = Ok a.
Proof. destruct m; simpl; congruence. Qed.

Lemma readWorldBody_buf id r w r' :
  readWorldBody id r = Ok (w, r') -> buf r' = buf r.
Proof.
  unfold readWorldBody.
  destruct (mapErr ErrTypeFlags (readInt32 r)) as [[? r1]|] eqn:E1; [|discriminate].
  destruct (mapErr ErrAddress (readNullTerminatedString r1)) as [[? r2]|] eqn:E2; [|discriminate].
  destruct (mapErr ErrActivity (readNullTerminatedString r2)) as [[? r3]|] eqn:E3; [|discriminate].
  destruct (mapErr ErrLocation (readInt8 r3)) as [[? r4]|] eqn:E4; [|discriminate].
  destruct (mapErr ErrPlayerCount (readInt16 r4)) as [[? r5]|] eqn:E5; [|discriminate].
  intros H; inversion H; subst.
  apply mapErr_Ok in E1, E2, E3, E4, E5.
  rewrite (readInt16_buf _ _ _ E5), (readInt8_buf _ _ _ E4),
    (readString_buf _ _ _ E3), (readString_buf _ _ _ E2).
  eapply readInt32_buf; eassumption.
Qed.

Lemma scanAlignment_buf fuel :
  forall cur offset r id r',
    scanAlignment fuel cur offset r = Some (id, r') -> buf r' = buf r.
Proof.
  induction fuel as [|fuel IH]; intros cur offset r id r'; simpl; [discriminate|].
  destruct (Len r <? 2)%nat; [discriminate|].
  destruct (readUint16 (Seek r (cur + offset))) as [[testID r1]|] eqn:E; [|discriminate].
  apply readUint16_buf in E. simpl in E.
  destruct ((300 <=? testID) && (testID <=? 700)).
  - intros H; inversion H; subst. exact E.
  - intros H. apply IH in H. simpl in H. congruence.
Qed.

Lemma readUint16_some r :
  (2 <= Len r)%nat -> exists id, readUint16 r = Ok (id, advance r 2).
Proof.
  rewrite Len_unread. unfold readUint16.
  destruct (unread r) as [|b0 [|b1 ?]]; simpl; try lia.
  intros _. eexists. reflexivity.
Qed.

Lemma position_of r : (11 <= Len r)%nat -> (Size r - Len r)%nat = off r.
Proof. unfold Size, Len. lia. Qed.

Lemma Seek_back r : Seek (advance r 2) (off r) = r.
Proof. destruct r. reflexivity. Qed.

(** No complete record body starts where [readWorldBody] fails. *)
Lemma readWorldBody_err id r e :
  readWorldBody id r = Err e ->
  forall w rest, wellFormed w -> unread r <> encodeBody w ++ rest.
Proof.
  intros He w rest Hw Hr.
  rewrite (readWorldBody_encode id w r rest Hw Hr) in He. discriminate.
Qed.

Lemma loopEnd_here iter why i r ws fuel :
  stopFacts iter (mkLoopEnd why i r ws) i fuel ->
  let e := mkLoopEnd why i r ws in
  (i <= attempts e <= i + fuel)%nat
  /\ (exists ws', parsed e = ws ++ ws' /\ length ws' = (attempts e - i)%nat)
  /\ buf (reader e) = buf r
  /\ stopFacts iter e i fuel.
Proof.
  intros Hs. cbv zeta. simpl.
  split; [lia|]. split; [|split; [reflexivity | exact Hs]].
  exists []. rewrite app_nil_r. split; [reflexivity | simpl; lia].
Qed.

Lemma decodeLoop_inv iter fuel :
  forall i r ws,
    let e := decodeLoop iter fuel i r ws in
    (i <= attempts e <= i + fuel)%nat
    /\ (exists ws', parsed e = ws ++ ws' /\ length ws' = (attempts e - i)%nat)
    /\ buf (reader e) = buf r
    /\ stopFacts iter e i fuel.
Proof.
  induction fuel as [|fuel IH]; intros i r ws; cbn [decodeLoop].
  - apply loopEnd_here. unfold stopFacts. simpl. lia.
  - destruct (Nat.ltb_spec (Len r) 11) as [Hlt|Hge].
    { apply loopEnd_here. unfold stopFacts. simpl. exact Hlt. }
    destruct (readUint16_some r ltac:(lia)) as [id Hid]. rewrite Hid.
    rewrite (position_of r Hge).
    assert (forall id2 r2, buf r2 = buf r ->
      let e := match readWorldBody id2 r2 with
               | Ok (world, r3) => decodeLoop iter fuel (S i) r3 (ws ++ [world])
               | Err e0 => mkLoopEnd (StopError e0) i r2 ws
               end in
      (i <= attempts e <= i + S fuel)%nat
      /\ (exists ws', parsed e = ws ++ ws' /\ length ws' = (attempts e - i)%nat)
      /\ buf (reader e) = buf r
      /\ stopFacts iter e i (S fuel)) as Hbody.
    { intros id2 r2 Hb2.
      destruct (readWorldBody id2 r2) as [[world r3]|err] eqn:Eb.
      - specialize (IH (S i) r3 (ws ++ [world])). cbv zeta in *.
        destruct IH as (Ha & (ws' & Hp & Hl) & Hbuf & Hs).
        split; [lia|]. split; [|split].
        + exists (world :: ws'). rewrite Hp, <- app_assoc. split; [reflexivity|].
          simpl. lia.
        + rewrite Hbuf. rewrite (readWorldBody_buf _ _ _ _ Eb). exact Hb2.
        + unfold stopFacts in *.
          destruct (stop (decodeLoop iter fuel (S i) r3 (ws ++ [world])));
            try assumption.
          lia.
      - cbv zeta. simpl. split; [lia|]. split; [|split].
        + exists []. rewrite app_nil_r. split; [reflexivity | simpl; lia].
        + exact Hb2.
        + unfold stopFacts. simpl. exists id2. exact Eb. }
    destruct ((id <? 300) || (700 <? id)) eqn:Einv.
    + destruct ((i =? 0)%nat && iter) eqn:Efirst.
      * destruct (scanAlignment 19 (off r) 1 (advance r 2)) as [[id2 r2]|] eqn:Es.
        -- apply Hbody. apply scanAlignment_buf in Es. exact Es.
        -- apply andb_true_iff in Efirst. destruct Efirst as [Ei Hit].
           apply Nat.eqb_eq in Ei. subst i.
           cbv zeta. simpl. split; [lia|]. split; [|split].
           ++ exists []. rewrite app_nil_r. split; [reflexivity | simpl; lia].
           ++ reflexivity.
           ++ unfold stopFacts. simpl. split; [exact Hit | reflexivity].
      * cbv zeta. simpl. rewrite Seek_back.
        split; [lia|]. split; [|split].
        -- exists []. rewrite app_nil_r. split; [reflexivity | simpl; lia].
        -- reflexivity.
        -- unfold stopFacts. simpl. split; [exact Hge|]. split.
           ++ exists id, (advance r 2). split; [exact Hid|].
              unfold validID. rewrite Einv. reflexivity.
           ++ apply andb_false_iff in Efirst. destruct Efirst as [Ei|Hit].
              ** left. apply Nat.eqb_neq in Ei. exact Ei.
              ** right. exact Hit.
    + apply Hbody. reflexivity.
Qed.

Lemma decodeWorldData_run data :
  (6 <= length data)%nat ->
  decodeWorldData data
  = outcome (decodeRun (declaredCount data) (mkReader data 6)).
Proof.
  intros Hlen. unfold decodeWorldData, declaredCount.
  destruct (Nat.ltb_spec (length data) 6); [lia|].
  destruct data as [|b0 [|b1 [|b2 [|b3 [|b4 [|b5 rest]]]]]]; simpl in Hlen; try lia.
  reflexivity.
Qed.

Lemma reader_eta r : mkReader (buf r) (off r) = r.
Proof. destruct r. reflexivity. Qed.

Lemma find_none_of {A} (f : A -> bool) l :
  (forall x, In x l -> f x = false) -> find f l = None.
Proof.
  induction l as [|a l IH]; intros H; simpl; [reflexivity|].
  rewrite (H a) by (left; reflexivity).
  apply IH. intros x Hx. apply H. right. exact Hx.
Qed.

(** Past the end of the slice no id can be read. *)
Lemma idAt_short data p : (length data < p + 2)%nat -> idAt data p = None.
Proof.
  intros H. unfold idAt, readUint16, unread. simpl.
  pose proof (length_drop data p) as Hd.
  destruct (drop p data) as [|b0 [|b1 ?]]; simpl in Hd; try reflexivity. lia.
Qed.

Lemma alignedAt_short data p : (length data < p + 2)%nat -> alignedAt data p = false.
Proof. intros H. unfold alignedAt. rewrite idAt_short by exact H. reflexivity. Qed.

Lemma validID_window id : validID id = (300 <=? id) && (id <=? 700).
Proof.
  unfold validID.
  destruct (Z.ltb_spec id 300), (Z.ltb_spec 700 id),
    (Z.leb_spec 300 id), (Z.leb_spec id 700); simpl; try reflexivity; lia.
Qed.

Lemma readUint16_next r v r' : readUint16 r = Ok (v, r') -> r' = advance r 2.
Proof.
  unfold readUint16. destruct (unread r) as [|? [|? ?]]; intros H; inversion H.
  reflexivity.
Qed.

(** The inner scan finds the least aligned offset among those left. *)
Lemma scanAlignment_find data cur fuel :
  forall offset r,
    buf r = data ->
    (off r <= cur + offset \/ 2 <= Len r)%nat ->
    scanAlignment fuel cur offset r
    = match find (fun o => alignedAt data (cur + o)) (seq offset fuel) with
      | Some o =>
          match idAt data (cur + o) with
          | Some id => Some (id, mkReader data (cur + o + 2))
          | None => None
          end
      | None => None
      end.
Proof.
  induction fuel as [|fuel IH]; intros offset r Hbuf Hpos; [reflexivity|].
  cbn [scanAlignment seq find].
  destruct (Nat.ltb_spec (Len r) 2) as [Hshort|Hlong].
  - (* nothing can be read at this offset or any later one *)
    assert (length data < cur + offset + 2)%nat as Hend.
    { unfold Len in Hshort, Hpos. rewrite Hbuf in Hshort, Hpos. lia. }
    rewrite alignedAt_short by lia.
    rewrite find_none_of; [reflexivity|].
    intros o Ho. apply in_seq in Ho. apply alignedAt_short. lia.
  - unfold Seek. rewrite Hbuf. unfold alignedAt at 1, idAt at 1.
    destruct (readUint16 (mkReader data (cur + offset))) as [[testID r']|err] eqn:Er.
    + rewrite <- validID_window.
      rewrite (readUint16_next _ _ _ Er) in *.
      destruct (validID testID) eqn:Ev.
      * unfold idAt. rewrite Er. reflexivity.
      * apply IH; [reflexivity|]. left. simpl. lia.
    + assert (length data < cur + offset + 2)%nat as Hend.
      { unfold readUint16, unread in Er. simpl in Er.
        pose proof (length_drop data (cur + offset)) as Hd.
        destruct (drop (cur + offset) data) as [|b0 [|b1 ?]];
          simpl in Hd; try discriminate; lia. }
      rewrite find_none_of; [reflexivity|].
      intros o Ho. apply in_seq in Ho. apply alignedAt_short. lia.
Qed.

Lemma find_seq_least (f : nat -> bool) n :
  forall a o, find f (seq a n) = Some o ->
    (a <= o < a + n)%nat /\ f o = true
    /\ forall o', (a <= o' < o)%nat -> f o' = false.
Proof.
  induction n as [|n IH]; intros a o; simpl; [discriminate|].
  destruct (f a) eqn:Ea.
  - intros H; inversion H; subst. split; [lia|]. split; [exact Ea|]. intros; lia.
  - intros H. destruct (IH _ _ H) as (Hr & Ho & Hmin).
    split; [lia|]. split; [exact Ho|].
    intros o' Ho'. destruct (Nat.eq_dec o' a) as [->|Hne]; [exact Ea|].
    apply Hmin. lia.
Qed.

Lemma find_seq_none (f : nat -> bool) n a :
  find f (seq a n) = None -> forall o, (a <= o < a + n)%nat -> f o = false.
Proof.
  intros H o Ho. apply (find_none f _ H). apply in_seq. exact Ho.
Qed.

(** *** The claims about [decodeWorldData] *)

(** A header declaring N records, N between 1 and 200, followed by exactly
    N complete records whose ids lie in 300..700, decodes without error to
    one world for each record, in the order of the records. *)
Lemma complete_records_decode (bufferSize : Z) (recs : list WireWorld) :
  (1 <= length recs <= 200)%nat ->
  Forall wellFormed recs ->
  Forall inRange recs ->
  decodeWorldData (header bufferSize (Z.of_nat (length recs)) ++ encodeWorlds recs)
  = Ok (map worldOf recs).
Proof.
  intros Hn Hwf Hid.
  rewrite decodeWorldData_header by lia.
  unfold decodeRun, maxAttemptsOf, parseIterativelyOf, maxReasonableWorlds.
  destruct (Z.leb_spec (Z.of_nat (length recs)) 0); [lia|].
  destruct (Z.ltb_spec 200 (Z.of_nat (length recs))); [lia|].
  cbn [orb]. rewrite Nat2Z.id.
  rewrite <- (Nat.add_0_r (length recs)) at 1.
  rewrite (decodeLoop_records recs false 0 0 _ [] []) ; try assumption.
  - reflexivity.
  - rewrite unread_after_header, app_nil_r. reflexivity.
Qed.

(** A cut that leaves fewer than 11 bytes of the next record. A header, k
    complete records with ids in 300..700 (k within the attempt limit of
    the declared count) and such a remainder decode, without error, to
    exactly the k worlds of the complete records. The result is a list and
    an error only: there is no truncation mark to set. *)
Theorem truncated_short_tail (bufferSize count : Z) (recs : list WireWorld)
    (next : WireWorld) (c : nat) :
  - 32768 <= count < 32768 ->
  (length recs <= maxAttemptsOf count)%nat ->
  Forall wellFormed recs ->
  Forall inRange recs ->
  (c < 11)%nat ->
  decodeWorldData (header bufferSize count ++ encodeWorlds recs
                   ++ take c (encodeWorld next))
  = Ok (map worldOf recs).
Proof.
  intros Hc Hk Hwf Hid Hcut.
  rewrite decodeWorldData_header by lia.
  unfold decodeRun.
  replace (maxAttemptsOf count)
    with (length recs + (maxAttemptsOf count - length recs))%nat by lia.
  rewrite (decodeLoop_records recs _ _ 0 _ [] (take c (encodeWorld next)));
    try assumption; [|apply unread_after_header].
  apply outcome_decodeLoop_short.
  rewrite Len_unread, unread_advance, unread_after_header.
  rewrite drop_app_length, length_take. lia.
Qed.

Lemma truncated_short_tail_witness :
  decodeWorldData (header 0 2 ++ encodeWorlds [sampleFirst]
                   ++ take 10 (encodeWorld sampleSecond))
  = Ok [worldOf sampleFirst].
Proof.
  apply (truncated_short_tail 0 2 [sampleFirst] sampleSecond 10).
  - lia.
  - vm_compute. lia.
  - constructor; [apply sampleFirst_ok | constructor].
  - constructor; [apply sampleFirst_ok | constructor].
  - lia.
Defined.

(** C1. Two records are declared; the payload is cut 12 bytes into the
    second one, inside its address, after one complete record. The claim
    asks for that record and no error. The call fails with the address
    error and returns no record at all; cut two bytes earlier, the same
    payload gives the first record and no error. *)
Lemma cut_inside_address_is_an_error :
  wellFormed sampleFirst /\ inRange sampleFirst /\
  wellFormed sampleSecond /\ inRange sampleSecond /\
  (12 < length (encodeWorld sampleSecond))%nat /\
  decodeWorldData (header 0 2 ++ encodeWorlds [sampleFirst]
                   ++ take 12 (encodeWorld sampleSecond))
  = Err (ErrAddress EOF) /\
  decodeWorldData (header 0 2 ++ encodeWorlds [sampleFirst]
                   ++ take 10 (encodeWorld sampleSecond))
  = Ok [mkWorld 301 [WorldTypeMembers] [x61] [x2d] WorldLocationUSA 100].
Proof.
  destruct sampleFirst_ok as [Hw1 Hr1], sampleSecond_ok as [Hw2 Hr2].
  split; [exact Hw1|]. split; [exact Hr1|]. split; [exact Hw2|].
  split; [exact Hr2|]. split; [vm_compute; lia|].
  split; vm_compute; reflexivity.
Qed.

(** C3. The count field reads -1, so the decoder runs in iterative mode.
    One complete record follows the header and the buffer ends 12 bytes
    into the next record, inside its address. The claim asks for the
    record decoded so far. The call fails with the address error and
    returns no record; with the buffer ending two bytes earlier it returns
    the record, as it does when the next id lies outside 300..700. *)
Lemma iterative_cut_inside_address_is_an_error :
  parseIterativelyOf (-1) = true /\
  declaredCount (header 0 (-1) ++ encodeWorlds [sampleFirst]
                 ++ take 12 (encodeWorld sampleSecond)) = -1 /\
  wellFormed sampleFirst /\ inRange sampleFirst /\
  decodeWorldData (header 0 (-1) ++ encodeWorlds [sampleFirst]
                   ++ take 12 (encodeWorld sampleSecond))
  = Err (ErrAddress EOF) /\
  decodeWorldData (header 0 (-1) ++ encodeWorlds [sampleFirst]
                   ++ take 10 (encodeWorld sampleSecond))
  = Ok [mkWorld 301 [WorldTypeMembers] [x61] [x2d] WorldLocationUSA 100] /\
  decodeWorldData (header 0 (-1) ++ encodeWorlds [sampleFirst]
                   ++ put16 299 ++ repeat x00 12)
  = Ok [mkWorld 301 [WorldTypeMembers] [x61] [x2d] WorldLocationUSA 100].
Proof.
  destruct sampleFirst_ok as [Hw1 Hr1].
  split; [reflexivity|]. split; [vm_compute; reflexivity|].
  split; [exact Hw1|]. split; [exact Hr1|].
  repeat split; vm_compute; reflexivity.
Qed.

(** The stops of the iterative mode. When the declared count is at most 0
    or above 200 the decoder runs its loop in iterative mode with 300
    attempts, whatever the count was. It makes at most 300 attempts and
    every attempt before the last one appended a record. It returns the
    records decoded so far when fewer than 11 bytes remain, when the next
    id lies outside 300..700, or when the 300 attempts are used up; an
    empty list when the first id cannot be realigned; and it fails, giving
    no record, where the buffer ends inside a record. *)
Theorem iterative_mode (data : list byte) :
  (6 <= length data)%nat ->
  parseIterativelyOf (declaredCount data) = true ->
  let e := decodeLoop true 300 0 (mkReader data 6) [] in
  decodeWorldData data = outcome e
  /\ (attempts e <= 300)%nat
  /\ length (parsed e) = attempts e
  /\ match stop e with
     | StopInsufficient =>
         (Len (reader e) < 11)%nat /\ decodeWorldData data = Ok (parsed e)
     | StopInvalidID =>
         (0 < attempts e)%nat
         /\ (exists id, idAt data (off (reader e)) = Some id /\ validID id = false)
         /\ decodeWorldData data = Ok (parsed e)
     | StopAttempts =>
         attempts e = 300%nat /\ decodeWorldData data = Ok (parsed e)
     | StopNoAlignment =>
         attempts e = 0%nat /\ decodeWorldData data = Ok []
     | StopError err =>
         (forall w rest, wellFormed w ->
                         unread (reader e) <> encodeBody w ++ rest)
         /\ decodeWorldData data = Err err
     | StopReadID _ => False
     end.
Proof.
  intros Hlen Hiter e.
  assert (decodeWorldData data = outcome e) as Hout.
  { rewrite (decodeWorldData_run data Hlen). unfold decodeRun, maxAttemptsOf.
    rewrite Hiter. reflexivity. }
  destruct (decodeLoop_inv true 300 0 (mkReader data 6) []) as (Ha & (ws' & Hp & Hl) & Hbuf & Hs).
  fold e in Ha, Hp, Hl, Hbuf, Hs.
  split; [exact Hout|]. split; [lia|]. split.
  { rewrite Hp. simpl. lia. }
  rewrite Hout. unfold stopFacts, outcome in *.
  destruct (stop e) eqn:Es.
  - split; [lia | reflexivity].
  - split; [exact Hs | reflexivity].
  - exact Hs.
  - destruct Hs as (_ & (id & r' & Hr & Hv) & [Hn|Hf]); [|discriminate].
    split; [lia|]. split; [|reflexivity].
    exists id. split; [|exact Hv]. unfold idAt.
    simpl in Hbuf. rewrite <- Hbuf, reader_eta, Hr. reflexivity.
  - destruct Hs as (_ & H0). split; [exact H0 | reflexivity].
  - destruct Hs as (id & Hr). split; [|reflexivity].
    intros w rest. apply (readWorldBody_err id _ _ Hr).
Qed.


Lemma iterative_mode_witness :
  decodeWorldData sampleCorruptCount
  = Ok [worldOf sampleFirst; worldOf sampleSecond]
  /\ stop (decodeLoop true 300 0 (mkReader sampleCorruptCount 6) [])
     = StopInvalidID.
Proof.
  assert (6 <= length sampleCorruptCount)%nat as Hlen by (vm_compute; lia).
  assert (parseIterativelyOf (declaredCount sampleCorruptCount) = true) as Hiter
    by (vm_compute; reflexivity).
  destruct (iterative_mode sampleCorruptCount Hlen Hiter) as (Hout & _).
  split; [rewrite Hout|]; vm_compute; reflexivity.
Defined.

(** C4. In iterative mode, when the id of the very first record (offset
    6) lies outside 300..700, the decoder tries the offsets 1..19 past it
    in turn, reading a two-byte id at each, and takes up decoding at the
    least offset whose id lies in 300..700; when there is none it returns
    the empty list and no error. *)
Theorem realignment (data : list byte) :
  (17 <= length data)%nat ->
  parseIterativelyOf (declaredCount data) = true ->
  alignedAt data 6 = false ->
  decodeWorldData data
  = match firstAligned data 6 with
    | Some offset => resumeAt data (6 + offset)
    | None => Ok []
    end
  /\ match firstAligned data 6 with
     | Some offset =>
         (1 <= offset < 20)%nat
         /\ alignedAt data (6 + offset) = true
         /\ forall o, (1 <= o < offset)%nat -> alignedAt data (6 + o) = false
     | None =>
         forall o, (1 <= o < 20)%nat -> alignedAt data (6 + o) = false
     end.
Proof.
  intros Hlen Hiter Hfirst. split.
  - rewrite (decodeWorldData_run data) by lia.
    unfold decodeRun, maxAttemptsOf. rewrite Hiter.
    change 300%nat with (S 299). cbn [decodeLoop].
    assert (11 <= Len (mkReader data 6))%nat as HLen by (unfold Len; simpl; lia).
    destruct (Nat.ltb_spec (Len (mkReader data 6)) 11); [lia|].
    destruct (readUint16_some (mkReader data 6) ltac:(lia)) as [id Hid].
    rewrite Hid. rewrite (position_of _ HLen).
    unfold alignedAt, idAt in Hfirst. rewrite Hid in Hfirst.
    unfold validID in Hfirst. apply negb_false_iff in Hfirst. rewrite Hfirst.
    cbn [Nat.eqb andb off].
    rewrite (scanAlignment_find data 6 19 1 (advance (mkReader data 6) 2));
      [|reflexivity|right; unfold Len, advance; simpl; lia].
    fold (firstAligned data 6).
    destruct (firstAligned data 6) as [offset|] eqn:Ef; [|reflexivity].
    unfold firstAligned in Ef. apply find_seq_least in Ef.
    destruct Ef as (_ & Hal & _).
    unfold resumeAt. unfold alignedAt, idAt in Hal. unfold idAt.
    destruct (readUint16 (mkReader data (6 + offset))) as [[id2 r2]|] eqn:E2;
      [|discriminate].
    rewrite (readUint16_next _ _ _ E2).
    replace (advance (mkReader data (6 + offset)) 2)
      with (mkReader data (6 + offset + 2)) by reflexivity.
    destruct (readWorldBody id2 (mkReader data (6 + offset + 2))) as [[w r3]|err];
      reflexivity.
  - destruct (firstAligned data 6) as [offset|] eqn:Ef; unfold firstAligned in Ef.
    + apply find_seq_least in Ef. destruct Ef as (Hr & Hal & Hmin).
      split; [lia|]. split; [exact Hal|]. exact Hmin.
    + intros o Ho. apply (find_seq_none _ _ _ Ef). lia.
Qed.

Lemma realignment_witness :
  firstAligned sampleMisaligned 6 = Some 3%nat
  /\ decodeWorldData sampleMisaligned = resumeAt sampleMisaligned 9
  /\ resumeAt sampleMisaligned 9 = Ok [worldOf sampleFirst; worldOf sampleSecond].
Proof.
  assert (17 <= length sampleMisaligned)%nat as Hlen by (vm_compute; lia).
  assert (parseIterativelyOf (declaredCount sampleMisaligned) = true) as Hiter
    by (vm_compute; reflexivity).
  assert (alignedAt sampleMisaligned 6 = false) as Hfirst
    by (vm_compute; reflexivity).
  destruct (realignment sampleMisaligned Hlen Hiter Hfirst) as (Hout & _).
  split; [vm_compute; reflexivity|]. split; [exact Hout|].
  vm_compute; reflexivity.
Defined.

End DecoderFacts.

(** ** Facts about world types and metric reporting *)

Module OsrsFacts.
Import Wire Osrs WireFormat Scenarios Examples.

Lemma rangeTypes_app ts us :
  rangeTypes (ts ++ us)
  = match rangeTypes ts with Some t => Some t | None => rangeTypes us end.
Proof.
  induction ts as [|t ts IH]; simpl; [reflexivity|].
  destruct (switchCase t); [reflexivity | exact IH].
Qed.

Lemma rangeTypes_appendFlags tbl flags :
  forall types t,
    rangeTypes types = Some t ->
    rangeTypes (appendFlags tbl flags types) = Some t.
Proof.
  induction tbl as [|[k u] tbl IH]; intros types t Ht; simpl; [exact Ht|].
  apply IH. destruct (flagSet flags k); [|exact Ht].
  rewrite rangeTypes_app, Ht. reflexivity.
Qed.

Lemma appendFlags_cons k t tbl flags types :
  appendFlags ((k, t) :: tbl) flags types
  = appendFlags tbl flags (if flagSet flags k then types ++ [t] else types).
Proof. reflexivity. Qed.

Lemma appendFlags_length tbl flags :
  forall types, (length types <= length (appendFlags tbl flags types))%nat.
Proof.
  induction tbl as [|[k u] tbl IH]; intros types; simpl; [lia|].
  etransitivity; [|apply IH]. destruct (flagSet flags k); [rewrite length_app|]; simpl; lia.
Qed.

(** Whatever else is set, a flag word with the PVP bit reports PVP: only the
    members bit sits below it, and members is no case of the switch. *)
Lemma pvp_flag_always_wins flags :
  flagSet flags 2 = true ->
  WorldType_of (flaggedWorld flags) = WorldTypePVP.
Proof.
  intros H. unfold WorldType_of, flaggedWorld. cbn [Types].
  assert (rangeTypes (parseWorldTypes flags) = Some WorldTypePVP) as ->; [|reflexivity].
  unfold parseWorldTypes. cbv zeta.
  set (types := appendFlags flagTable flags []).
  assert (rangeTypes types = Some WorldTypePVP) as Hr.
  { subst types. unfold flagTable. do 2 rewrite appendFlags_cons. rewrite H.
    apply rangeTypes_appendFlags.
    destruct (flagSet flags 0); reflexivity. }
  destruct (Nat.eqb_spec (length types) 0) as [E|E]; [|exact Hr].
  destruct types; [discriminate | discriminate].
Qed.

(** C2, at the failing input. With the flag word 260 (bits 2 and 8: PVP and
    quest speedrunning) the types are listed in bit order, PVP first, and
    [World.WorldType] reports PVP; the priority list puts quest
    speedrunning above PVP. *)
Lemma bit_order_beats_priority :
  parseWorldTypes 260 = [WorldTypePVP; WorldTypeQuestSpeedrunning]
  /\ WorldType_of (flaggedWorld 260) = WorldTypePVP
  /\ byPriority (parseWorldTypes 260) = WorldTypeQuestSpeedrunning.
Proof. repeat split; vm_compute; reflexivity. Qed.

(** A loop that sets one gauge value per element, under a condition. *)
Section GaugeLoop.
Context {G A V : Type} {K : Type} `{Countable K}.
Variable step : G -> A -> G.
Variable gauge : G -> gmap K V.
Variable key : A -> K.
Variable val : A -> V.
Variable cond : A -> bool.
Hypothesis step_gauge :
  forall g a,
    gauge (step g a) = if cond a then <[key a := val a]> (gauge g) else gauge g.

Lemma gauge_origin l :
  forall g k v,
    gauge (fold_left step l g) !! k = Some v ->
    gauge g !! k = Some v
    \/ exists a, In a l /\ cond a = true /\ k = key a /\ v = val a.
Proof.
  induction l as [|a l IH]; intros g k v Hk; simpl in Hk; [left; exact Hk|].
  apply IH in Hk. destruct Hk as [Hk|(b & Hin & Hc & Hkey & Hval)].
  - rewrite step_gauge in Hk. destruct (cond a) eqn:Ec; [|left; exact Hk].
    destruct (decide (key a = k)) as [E|E].
    + subst k. rewrite lookup_insert_eq in Hk. inversion Hk.
      right. exists a. split; [left; reflexivity|]. repeat split. exact Ec.
    + rewrite lookup_insert_ne in Hk by exact E. left. exact Hk.
  - right. exists b. split; [right; exact Hin|]. repeat split; assumption.
Qed.

Lemma gauge_kept l :
  forall g k, is_Some (gauge g !! k) -> is_Some (gauge (fold_left step l g) !! k).
Proof.
  induction l as [|a l IH]; intros g k Hk; simpl; [exact Hk|].
  apply IH. rewrite step_gauge. destruct (cond a); [|exact Hk].
  destruct (decide (key a = k)) as [E|E].
  - subst k. rewrite lookup_insert_eq. eexists; reflexivity.
  - rewrite lookup_insert_ne by exact E. exact Hk.
Qed.

Lemma gauge_present l :
  forall g a, In a l -> cond a = true ->
    is_Some (gauge (fold_left step l g) !! key a).
Proof.
  induction l as [|b l IH]; intros g a Hin Hc; simpl; [destruct Hin|].
  destruct Hin as [->|Hin]; [|apply IH; assumption].
  apply gauge_kept. rewrite step_gauge, Hc, lookup_insert_eq.
  eexists; reflexivity.
Qed.

Lemma gauge_untouched l :
  forall g, (forall a, In a l -> cond a = false) ->
    gauge (fold_left step l g) = gauge g.
Proof.
  induction l as [|b l IH]; intros g Hc; simpl; [reflexivity|].
  rewrite IH by (intros a Ha; apply Hc; right; exact Ha).
  rewrite step_gauge, (Hc b) by (left; reflexivity). reflexivity.
Qed.

End GaugeLoop.

Section MetricFacts.
Context {float64 : Type}.
Variable ParseFloat : string -> float64.
Variable ofInt : Z -> float64.

Lemma clampPlayers_range p : 0 <= clampPlayers p <= 2000.
Proof.
  unfold clampPlayers.
  destruct (Z.ltb_spec p 0); [simpl; lia|].
  destruct (Z.ltb_spec 2000 p); lia.
Qed.

Lemma clampPlayers_cases p :
  (p < 0 -> clampPlayers p = 0)
  /\ (2000 < p -> clampPlayers p = 2000)
  /\ (0 <= p <= 2000 -> clampPlayers p = p).
Proof.
  unfold clampPlayers.
  destruct (Z.ltb_spec p 0); [simpl; repeat split; intros; lia|].
  destruct (Z.ltb_spec 2000 p); repeat split; intros; lia.
Qed.

(** C9. After [ReportWorldData] every world of the list has a value in
    the world gauge, and every value of the gauge is the player count of
    one of the worlds brought into 0..2000: 0 for a negative count, 2000
    for a count above 2000, the count itself otherwise. *)
Theorem reported_player_count_clamped (worlds : list World)
    (g : Gauges (float64 := float64)) :
  let g' := ReportWorldData ofInt worlds g in
  (forall world, In world worlds ->
     exists count, worldPlayersGauge g' !! worldLabels world = Some (ofInt count)
                   /\ 0 <= count <= 2000)
  /\ (forall labels v, worldPlayersGauge g' !! labels = Some v ->
        exists world, In world worlds /\ labels = worldLabels world
                      /\ v = ofInt (clampPlayers (Players world))
                      /\ 0 <= clampPlayers (Players world) <= 2000
                      /\ (Players world < 0 -> clampPlayers (Players world) = 0)
                      /\ (2000 < Players world ->
                          clampPlayers (Players world) = 2000)
                      /\ (0 <= Players world <= 2000 ->
                          clampPlayers (Players world) = Players world)).
Proof.
  cbv zeta. unfold ReportWorldData.
  set (val := fun world => ofInt (clampPlayers (Players world))).
  assert (forall g0 world,
    worldPlayersGauge (reportWorld ofInt g0 world)
    = if (fun _ : World => true) world
      then <[worldLabels world := val world]> (worldPlayersGauge g0)
      else worldPlayersGauge g0) as Hstep by reflexivity.
  assert (forall labels v,
    worldPlayersGauge (fold_left (reportWorld ofInt) worlds (ResetWorldMetrics g))
      !! labels = Some v ->
    exists world, In world worlds /\ labels = worldLabels world
                  /\ v = val world) as Horigin.
  { intros labels v Hv.
    destruct (gauge_origin _ _ _ _ (fun _ => true) Hstep worlds _ _ _ Hv)
      as [Hv'|(world & Hin & _ & Hl & Hval)].
    - unfold ResetWorldMetrics in Hv'. cbn [worldPlayersGauge] in Hv'.
      rewrite lookup_empty in Hv'. discriminate.
    - exists world. repeat split; assumption. }
  split.
  - intros world Hin.
    destruct (gauge_present _ _ _ _ (fun _ => true) Hstep worlds (ResetWorldMetrics g) world Hin eq_refl)
      as [v Hv].
    destruct (Horigin _ _ Hv) as (w' & _ & _ & ->).
    exists (clampPlayers (Players w')). split; [exact Hv | apply clampPlayers_range].
  - intros labels v Hv. destruct (Horigin _ _ Hv) as (world & Hin & Hl & Hval).
    exists world. split; [exact Hin|]. split; [exact Hl|]. split; [exact Hval|].
    split; [apply clampPlayers_range|]. apply clampPlayers_cases.
Qed.

(** C10. After [ReportPlayerStats] every skill of the list has a level and
    an xp value, and a rank value when its parsed rank is not negative;
    every value of the rank gauge comes from a skill whose parsed rank is
    not negative. One loop iteration sets level and xp, leaves the rank
    gauge as it was for a negative rank and sets it otherwise. *)
Theorem rank_reported_only_when_ranked (stats : list SkillInfo) (mode : string)
    (g : Gauges (float64 := float64)) :
  let g' := ReportPlayerStats ParseFloat ofInt stats mode g in
  (forall stat, In stat stats ->
     is_Some (playerLevelGauge g' !! playerLabels stat mode)
     /\ is_Some (playerXPGauge g' !! playerLabels stat mode)
     /\ (0 <= rankIntOf stat ->
         is_Some (playerRankGauge g' !! playerLabels stat mode)))
  /\ (forall labels v, playerRankGauge g' !! labels = Some v ->
        exists stat, In stat stats /\ labels = playerLabels stat mode
                     /\ 0 <= rankIntOf stat /\ v = ofInt (rankIntOf stat))
  /\ (forall g0 stat,
        let g1 := reportStat ParseFloat ofInt mode g0 stat in
        playerLevelGauge g1 !! playerLabels stat mode
        = Some (ParseFloat (Level stat))
        /\ playerXPGauge g1 !! playerLabels stat mode
           = Some (ParseFloat (XP stat))
        /\ (rankIntOf stat < 0 -> playerRankGauge g1 = playerRankGauge g0)
        /\ (0 <= rankIntOf stat ->
            playerRankGauge g1 !! playerLabels stat mode
            = Some (ofInt (rankIntOf stat)))).
Proof.
  cbv zeta. unfold ReportPlayerStats.
  set (step := reportStat ParseFloat ofInt mode).
  set (key := fun stat => playerLabels stat mode).
  assert (forall g0 stat,
    playerLevelGauge (step g0 stat)
    = if (fun _ : SkillInfo => true) stat
      then <[key stat := ParseFloat (Level stat)]> (playerLevelGauge g0)
      else playerLevelGauge g0) as Hlevel by reflexivity.
  assert (forall g0 stat,
    playerXPGauge (step g0 stat)
    = if (fun _ : SkillInfo => true) stat
      then <[key stat := ParseFloat (XP stat)]> (playerXPGauge g0)
      else playerXPGauge g0) as Hxp by reflexivity.
  assert (forall g0 stat,
    playerRankGauge (step g0 stat)
    = if 0 <=? rankIntOf stat
      then <[key stat := ofInt (rankIntOf stat)]> (playerRankGauge g0)
      else playerRankGauge g0) as Hrank.
  { intros g0 stat. unfold step, reportStat. cbn [playerRankGauge].
    destruct (0 <=? rankIntOf stat); reflexivity. }
  split; [|split].
  - intros stat Hin. split; [|split].
    + exact (gauge_present _ _ _ _ (fun _ => true) Hlevel stats _ stat Hin eq_refl).
    + exact (gauge_present _ _ _ _ (fun _ => true) Hxp stats _ stat Hin eq_refl).
    + intros Hr. apply (gauge_present _ _ _ _ (fun stat => 0 <=? rankIntOf stat) Hrank stats _ stat Hin).
      apply Z.leb_le. exact Hr.
  - intros labels v Hv.
    destruct (gauge_origin _ _ _ _ (fun stat => 0 <=? rankIntOf stat) Hrank stats _ _ _ Hv)
      as [Hv'|(stat & Hin & Hc & Hl & Hval)].
    + unfold ResetPlayerMetrics in Hv'. cbn [playerRankGauge] in Hv'.
      rewrite lookup_empty in Hv'. discriminate.
    + exists stat. apply Z.leb_le in Hc. repeat split; assumption.
  - intros g0 stat. fold step. rewrite Hlevel, Hxp, Hrank.
    rewrite !lookup_insert_eq. split; [reflexivity|]. split; [reflexivity|]. split.
    + intros Hr. destruct (Z.leb_spec 0 (rankIntOf stat)); [lia | reflexivity].
    + intros Hr. destruct (Z.leb_spec 0 (rankIntOf stat)); [|lia].
      apply lookup_insert_eq.
Qed.

End MetricFacts.

(** A world decoded with a player count of -1 is reported as 0. *)
Lemma reported_player_count_clamped_witness :
  let world := mkWorld 301 [WorldTypeMembers] [] [] WorldLocationUK (-1) in
  exists count,
    worldPlayersGauge (ReportWorldData id [world] noGauges) !! worldLabels world
    = Some count
    /\ 0 <= count <= 2000.
Proof.
  cbv zeta.
  exact (proj1 (reported_player_count_clamped id
                  [mkWorld 301 [WorldTypeMembers] [] [] WorldLocationUK (-1)]
                  noGauges)
               _ (or_introl eq_refl)).
Defined.

(** An unranked skill next to a ranked one: only the ranked one has a
    rank value. *)
Lemma rank_reported_only_when_ranked_witness :
  let unranked := mkSkillInfo "-1" "1" "0" "Sailing" "zezima" "Standard" in
  let ranked := mkSkillInfo "4321" "99" "13034431" "Attack" "zezima" "Standard" in
  let g := ReportPlayerStats lengthAsFloat id [unranked; ranked] "vanilla" noGauges in
  is_Some (playerLevelGauge g !! playerLabels unranked "vanilla")
  /\ is_Some (playerRankGauge g !! playerLabels ranked "vanilla")
  /\ playerRankGauge g !! playerLabels unranked "vanilla" = None.
Proof.
  cbv zeta.
  set (unranked := mkSkillInfo "-1" "1" "0" "Sailing" "zezima" "Standard").
  set (ranked := mkSkillInfo "4321" "99" "13034431" "Attack" "zezima" "Standard").
  destruct (rank_reported_only_when_ranked lengthAsFloat id [unranked; ranked]
              "vanilla" noGauges) as (Hset & Horigin & _).
  split; [exact (proj1 (Hset unranked (or_introl eq_refl)))|].
  split.
  - apply (Hset ranked (or_intror (or_introl eq_refl))). vm_compute. discriminate.
  - destruct (playerRankGauge _ !! playerLabels unranked "vanilla") as [v|] eqn:E;
      [|reflexivity].
    destruct (Horigin _ _ E) as (stat & Hin & Hl & Hr & _).
    destruct Hin as [<-|[<-|[]]].
    + exfalso. vm_compute in Hr. apply Hr. reflexivity.
    + discriminate Hl.
Defined.

End OsrsFacts.

(** ** Facts about the rate-limit coordinator and the collector *)

Module SteamFacts.
Import Cache Steam Scenarios Examples.

Lemma wrap64_small z : - 2 ^ 63 <= z < 2 ^ 63 -> wrap64 z = z.
Proof.
  intros H. unfold wrap64. rewrite Z.mod_small by lia. lia.
Qed.

Lemma Hour_value : Hour = 3600000000000.
Proof. reflexivity. Qed.

(** The loop doubles until the cap: from [Hour * 2 ^ m], [m] at most 4,
    [n] rounds give [Hour * 2 ^ (m + n)] cut at 24 hours. *)
Lemma backoffLoop_pow n :
  forall m, 0 <= m <= 4 ->
    backoffLoop n (Hour * 2 ^ m)
    = Z.min (Hour * 2 ^ (m + Z.of_nat n)) maxBackoff.
Proof.
  unfold maxBackoff. rewrite Hour_value.
  induction n as [|n IH]; intros m Hm.
  - cbn [backoffLoop]. rewrite Z.add_0_r.
    assert (m = 0 \/ m = 1 \/ m = 2 \/ m = 3 \/ m = 4) as Hc by lia.
    destruct Hc as [->|[->|[->|[->| ->]]]]; reflexivity.
  - cbn [backoffLoop]. unfold maxBackoff, backoffMultiplier. rewrite Hour_value.
    assert (2 ^ (m + Z.of_nat (S n)) = 2 ^ (m + 1) * 2 ^ Z.of_nat n) as Hpow.
    { rewrite <- Z.pow_add_r by lia. f_equal. lia. }
    assert (1 <= 2 ^ Z.of_nat n) as Hone.
    { pose proof (Z.pow_pos_nonneg 2 (Z.of_nat n)). lia. }
    assert (m = 4 \/ 0 <= m <= 3) as [->|Hm'] by lia.
    + change (3600000000000 * 2 ^ 4) with 57600000000000.
      change (57600000000000 <? 24 * 3600000000000) with true. cbv iota.
      change (wrap64 (57600000000000 * 2)) with 115200000000000.
      change (24 * 3600000000000 <? 115200000000000) with true. cbv iota.
      rewrite Hpow. change (2 ^ (4 + 1)) with 32. lia.
    + specialize (IH (m + 1) ltac:(lia)).
      replace (m + Z.of_nat (S n)) with (m + 1 + Z.of_nat n) by lia.
      rewrite <- IH.
      assert (m = 0 \/ m = 1 \/ m = 2 \/ m = 3) as Hc by lia.
      destruct Hc as [->|[->|[->| ->]]]; reflexivity.
Qed.

Section CoordinatorFacts.
Context {jsonState : JSON RateLimitState}.

Lemma rejections_app times t rl c :
  rejections (times ++ [t]) rl c
  = Record403 t (fst (rejections times rl c)) (snd (rejections times rl c)).
Proof. unfold rejections. rewrite fold_left_app. reflexivity. Qed.

Lemma rejections_count times :
  forall rl c,
    0 <= Consecutive403 rl ->
    Consecutive403 rl + Z.of_nat (length times) < 2 ^ 63 ->
    Consecutive403 (fst (rejections times rl c))
    = Consecutive403 rl + Z.of_nat (length times).
Proof.
  induction times as [|t times IH]; intros rl c H0 Hb.
  - simpl. lia.
  - unfold rejections in *. cbn [fold_left length fst snd] in *.
    destruct (Record403 t rl c) as [rl1 c1] eqn:E.
    assert (Consecutive403 rl1 = Consecutive403 rl + 1) as H1.
    { unfold Record403 in E. inversion E. cbn [Consecutive403].
      apply wrap64_small. lia. }
    rewrite IH; lia.
Qed.

Lemma backoff_hours n :
  hoursOf (Z.min (initialBackoff * 2 ^ Z.of_nat n) maxBackoff)
  = Z.min (2 ^ Z.of_nat n) 24.
Proof.
  unfold hoursOf, initialBackoff, maxBackoff.
  pose proof (Z.pow_pos_nonneg 2 (Z.of_nat n) ltac:(lia) ltac:(lia)) as Hp.
  replace (1 * Hour * 2 ^ Z.of_nat n) with (Hour * 2 ^ Z.of_nat n) by lia.
  replace (24 * Hour) with (Hour * 24) by lia.
  rewrite Z.mul_min_distr_nonneg_l by (rewrite Hour_value; lia).
  rewrite Z.mul_comm. apply Z.quot_mul. rewrite Hour_value. lia.
Qed.

(** C5. After the k-th [Record403] in a row (k within the range of the
    counter) the coordinator is blocked until the instant of that call plus
    min(1 hour * 2^(k-1), 24 hours), and records that many hours.
    [CheckAndBlock] answers true, changing nothing, at every instant before
    that; from that instant on it answers false and clears the blocked flag
    and the counter. One rejection gives one hour, two give two hours, six
    or more give 24 hours. *)
Theorem exponential_backoff (times : list Z) (t : Z) (rl : RateLimitState)
    (c : Cache) :
  Consecutive403 rl = 0 ->
  Z.of_nat (S (length times)) < 2 ^ 63 ->
  let k := S (length times) in
  let backoff := Z.min (initialBackoff * 2 ^ Z.of_nat (k - 1)) maxBackoff in
  let rl' := fst (rejections (times ++ [t]) rl c) in
  let c' := snd (rejections (times ++ [t]) rl c) in
  IsRateLimited rl' = true
  /\ BlockedUntil rl' = t + backoff
  /\ Consecutive403 rl' = Z.of_nat k
  /\ BackoffHours rl' = Z.min (2 ^ Z.of_nat (k - 1)) 24
  /\ (forall now, now < BlockedUntil rl' ->
        CheckAndBlock now rl' c' = (true, rl', c'))
  /\ (forall now, BlockedUntil rl' <= now ->
        exists rl'' c'',
          CheckAndBlock now rl' c' = (false, rl'', c'')
          /\ IsRateLimited rl'' = false /\ Consecutive403 rl'' = 0)
  /\ (k = 1%nat -> backoff = 1 * Hour)
  /\ (k = 2%nat -> backoff = 2 * Hour)
  /\ ((6 <= k)%nat -> backoff = 24 * Hour).
Proof.
  intros Hzero Hbound k backoff rl' c'.
  assert (snd (Record403 t (fst (rejections times rl c)) (snd (rejections times rl c))) = c') as Hc'.
  { subst c'. rewrite rejections_app. reflexivity. }
  assert (rl' = mkRateLimitState true (t + backoff) (Z.of_nat k)
                  (Z.min (2 ^ Z.of_nat (k - 1)) 24)) as Hrl.
  { subst rl'. rewrite rejections_app. cbn [Record403 fst].
    rewrite rejections_count by (rewrite ?Hzero; lia). rewrite Hzero.
    replace (wrap64 (0 + Z.of_nat (length times) + 1)) with (Z.of_nat k)
      by (rewrite wrap64_small by lia; lia).
    replace (wrap64 (Z.of_nat k - 1)) with (Z.of_nat (k - 1))
      by (rewrite wrap64_small by lia; lia).
    rewrite Nat2Z.id.
    replace initialBackoff with (Hour * 2 ^ 0) by reflexivity.
    rewrite backoffLoop_pow by lia.
    replace (Hour * 2 ^ (0 + Z.of_nat (k - 1)))
      with (initialBackoff * 2 ^ Z.of_nat (k - 1))
      by (unfold initialBackoff; rewrite Z.add_0_l; lia).
    fold backoff. f_equal. apply backoff_hours. }
  rewrite Hrl. cbn [IsRateLimited BlockedUntil Consecutive403 BackoffHours].
  split; [reflexivity|]. split; [reflexivity|]. split; [reflexivity|].
  split; [reflexivity|]. split; [|split; [|split; [|split]]].
  - intros now Hnow. unfold CheckAndBlock. cbn [IsRateLimited BlockedUntil negb].
    destruct (Z.ltb_spec now (t + backoff)); [reflexivity | lia].
  - intros now Hnow. unfold CheckAndBlock. cbn [IsRateLimited BlockedUntil negb].
    destruct (Z.ltb_spec now (t + backoff)); [lia|].
    eexists _, _. split; [reflexivity|]. split; reflexivity.
  - intros Hk. subst backoff. rewrite Hk. reflexivity.
  - intros Hk. subst backoff. rewrite Hk. reflexivity.
  - intros Hk. subst backoff. unfold initialBackoff, maxBackoff.
    apply Z.min_r.
    assert (2 ^ 5 <= 2 ^ Z.of_nat (k - 1)) by (apply Z.pow_le_mono_r; lia).
    rewrite Hour_value. lia.
Qed.

End CoordinatorFacts.

Lemma exponential_backoff_witness :
  let fresh := mkRateLimitState false 0 0 1 in
  let half_hour := 30 * Minute in
  let json := writeOnlyJSON RateLimitState in
  let rl' := fst (rejections (jsonState := json) [0; half_hour] fresh Cache.empty) in
  let c' := snd (rejections (jsonState := json) [0; half_hour] fresh Cache.empty) in
  BlockedUntil rl' = half_hour + 2 * Hour
  /\ BackoffHours rl' = 2
  /\ fst (fst (CheckAndBlock (jsonState := json) (2 * Hour) rl' c')) = true
  /\ fst (fst (CheckAndBlock (jsonState := json) (3 * Hour) rl' c')) = false.
Proof.
  cbv zeta. change [0; 30 * Minute] with ([0] ++ [30 * Minute]).
  destruct (exponential_backoff (jsonState := writeOnlyJSON RateLimitState)
              [0] (30 * Minute) (mkRateLimitState false 0 0 1)
              Cache.empty eq_refl)
    as (_ & Huntil & _ & Hhours & Hblocked & Hclear & _);
    [vm_compute; reflexivity|].
  split; [exact Huntil|]. split; [exact Hhours|]. split.
  - rewrite Hblocked; [reflexivity|]. rewrite Huntil. vm_compute. reflexivity.
  - destruct (Hclear (3 * Hour)) as (rl'' & c'' & Hcheck & _).
    + rewrite Huntil. vm_compute. discriminate.
    + rewrite Hcheck. reflexivity.
Defined.



Lemma user_key_not_global steamId appId appId' :
  globalAchievementsKey appId' <> userAchievementsKey steamId appId.
Proof. unfold globalAchievementsKey, userAchievementsKey. simpl. discriminate. Qed.


Section CollectorFacts.
Context {jsonState : JSON RateLimitState}.
Context {jsonEntry : JSON cacheEntry}.
Context {jsonGlobal : JSON (slice GlobalAchievement)}.
Variable randSource : nat -> Z.

Lemma Intn_range n k : 0 < n -> 0 <= Intn randSource n k < n.
Proof. intros Hn. unfold Intn. apply Z.mod_pos_bound. exact Hn. Qed.












(** The activity rule where a previous value is stored: active exactly
    when the current counter is above it. *)
Lemma stored_playtime_rule (env : Env) (appId : Z) (steamId : string)
    (current : Z) (data : list byte) (entry : cacheEntry) :
  Get (clock env) (cache env) (userAchievementsKey steamId appId) = Some data ->
  Unmarshal data = Some entry ->
  hasPlaytimeIncreased env appId steamId current = (Playtime entry <? current).
Proof.
  intros Hget Hun. unfold hasPlaytimeIncreased. rewrite Hget, Hun. reflexivity.
Qed.

(** C7, at the failing input. With nothing stored for the game,
    [hasPlaytimeIncreased] answers true, the answer it gives for a counter
    that did increase: [IsActive] then reports the user active for any game
    with playtime, and the data is stored with the time-to-live of an active
    player. The sibling check on experience points answers false when
    nothing was stored. *)
Theorem first_observation_counts_as_active (now : Z) (drawn : nat)
    (limiter : option RateLimitState) (appId : Z) (steamId : string)
    (current : Z) (jsonXP : JSON (gmap string Z)) (rsn : string)
    (stats : list Osrs.SkillInfo) :
  let env := firstObservation now drawn limiter in
  hasPlaytimeIncreased env appId steamId current = true
  /\ IsActive env steamId (Ok [mkOwnedGame appId "game" 1]) = Ok true
  /\ userTTL randSource (hasPlaytimeIncreased env appId steamId current) drawn
     = 2 * Minute + Intn randSource 180 drawn * Second
  /\ fst (Osrs.IsActive now rsn stats Cache.empty) = false.
Proof.
  cbv zeta.
  assert (hasPlaytimeIncreased (firstObservation now drawn limiter) appId
            steamId current = true) as Hfirst.
  { unfold hasPlaytimeIncreased, firstObservation, Get, Cache.empty.
    cbn [cache items clock]. rewrite lookup_empty. reflexivity. }
  split; [exact Hfirst|]. split; [|split].
  - unfold IsActive. cbn [anyGameActive PlaytimeForever AppId].
    unfold shouldInvalidateUserCache.
    assert (hasPlaytimeIncreased (firstObservation now drawn limiter) appId
              steamId 1 = true) as ->; [|reflexivity].
    unfold hasPlaytimeIncreased, firstObservation, Get, Cache.empty.
    cbn [cache items clock]. rewrite lookup_empty. reflexivity.
  - rewrite Hfirst. reflexivity.
  - unfold Osrs.IsActive, Get, Cache.empty. cbn [items].
    rewrite lookup_empty. reflexivity.
Qed.

End CollectorFacts.


End SteamFacts.

(** ** Facts about the codecs and the cache *)

Module CodecFacts.
Import Cache Codecs.

Lemma posOf_bitsOf p : posOf (bitsOf p) = p.
Proof. induction p as [p IH|p IH|]; simpl; rewrite ?IH; reflexivity. Qed.

Lemma countableJSON_faithful (A : Type) `{Countable A} : faithful (countableJSON A).
Proof.
  intros x. eexists. split; [reflexivity|]. cbn [Unmarshal countableJSON].
  rewrite posOf_bitsOf. apply decode_encode.
Qed.

(** A read of the key just written: the value, while the entry lives. *)
Lemma Get_Set_eq now now' c key v t :
  Get now' (Set_ now c key v t) key
  = if (t <=? 0) || (now' <? now + t) then Some v else None.
Proof.
  unfold Get, Set_. cbn [items]. rewrite lookup_insert_eq. reflexivity.
Qed.

End CodecFacts.

(** ** More about the decoder of the world list *)

Module DecoderMore.
Import Wire Osrs WireFormat Scenarios DecoderFacts DecoderTerms.

Lemma appendFlags_flagged tbl flags :
  forall types, appendFlags tbl flags types = types ++ flagged flags tbl.
Proof.
  induction tbl as [|[k t] tbl IH]; intros types; cbn [appendFlags].
  - unfold flagged. simpl. rewrite app_nil_r. reflexivity.
  - rewrite IH. unfold flagged. rewrite filter_cons. cbn [fst].
    destruct (decide (flagSet flags k = true)) as [E|E].
    + rewrite E. cbn [map snd]. rewrite <- app_assoc. reflexivity.
    + apply not_true_is_false in E. rewrite E. reflexivity.
Qed.

Lemma parseWorldTypes_flagged flags :
  parseWorldTypes flags
  = match flagged flags flagTable with
    | [] => [WorldTypeFreeToPlay]
    | types => types
    end.
Proof.
  unfold parseWorldTypes. rewrite appendFlags_flagged. cbn [app].
  destruct (flagged flags flagTable); reflexivity.
Qed.

Lemma flagTable_types_distinct : NoDup (map snd flagTable).
Proof. apply (bool_decide_unpack _). vm_compute. reflexivity. Qed.

Lemma flagTable_no_default :
  ~ In WorldTypeFreeToPlay (map snd flagTable)
  /\ ~ In WorldTypeUnknown (map snd flagTable).
Proof. split; intros H; simpl in H; intuition discriminate. Qed.

Lemma flagged_In flags tbl t :
  In t (flagged flags tbl)
  <-> exists k, In (k, t) tbl /\ flagSet flags k = true.
Proof.
  unfold flagged. rewrite in_map_iff. split.
  - intros ([k t'] & Ht & Hin). cbn in Ht. subst t'.
    apply list_elem_of_In, list_elem_of_filter in Hin. destruct Hin as [Hf Hin].
    exists k. split; [apply list_elem_of_In; exact Hin | exact Hf].
  - intros (k & Hin & Hf). exists (k, t). split; [reflexivity|].
    apply list_elem_of_In, list_elem_of_filter. split; [exact Hf|].
    apply list_elem_of_In. exact Hin.
Qed.

Lemma NoDup_map_snd_inj {A B} (l : list (A * B)) a a' b :
  NoDup (map snd l) -> In (a, b) l -> In (a', b) l -> a = a'.
Proof.
  induction l as [|[x y] l IH]; intros Hnd H1 H2; [destruct H1|].
  cbn [map snd] in Hnd. apply NoDup_cons in Hnd. destruct Hnd as [Hnot Hnd].
  destruct H1 as [H1|H1], H2 as [H2|H2].
  - congruence.
  - inversion H1; subst. exfalso. apply Hnot. apply list_elem_of_In.
    apply in_map_iff. exists (a', b). split; [reflexivity | exact H2].
  - inversion H2; subst. exfalso. apply Hnot. apply list_elem_of_In.
    apply in_map_iff. exists (a, b). split; [reflexivity | exact H1].
  - apply IH; assumption.
Qed.

Lemma flagged_NoDup flags tbl : NoDup (map snd tbl) -> NoDup (flagged flags tbl).
Proof.
  induction tbl as [|[k t] tbl IH]; intros Hnd; unfold flagged.
  - simpl. constructor.
  - cbn [map snd] in Hnd. apply NoDup_cons in Hnd. destruct Hnd as [Hnot Hnd].
    rewrite filter_cons. cbn [fst].
    destruct (decide (flagSet flags k = true)); [|apply IH; exact Hnd].
    cbn [map snd]. apply NoDup_cons. split; [|apply IH; exact Hnd].
    intros Hin. apply Hnot. apply list_elem_of_In in Hin.
    apply (flagged_In flags tbl t) in Hin. destruct Hin as (k' & Hin & _).
    apply list_elem_of_In, in_map_iff. exists (k', t). split; [reflexivity | exact Hin].
Qed.

Lemma parseWorldTypes_nonempty flags : parseWorldTypes flags <> [].
Proof.
  rewrite parseWorldTypes_flagged.
  destruct (flagged flags flagTable); discriminate.
Qed.

Lemma parseWorldTypes_member flags k t :
  In (k, t) flagTable ->
  (In t (parseWorldTypes flags) <-> flagSet flags k = true).
Proof.
  intros Hk. rewrite parseWorldTypes_flagged.
  pose proof (flagged_In flags flagTable) as Hin.
  destruct flagTable_no_default as [Hf2p _].
  destruct (flagged flags flagTable) as [|t0 types] eqn:E.
  - split.
    + intros [Ht|[]]. subst t. exfalso. apply Hf2p.
      apply in_map_iff. exists (k, WorldTypeFreeToPlay). split; [reflexivity | exact Hk].
    + intros Hset. exfalso. apply (proj2 (Hin t)). exists k. split; assumption.
  - rewrite Hin. split.
    + intros (k' & Hk' & Hset).
      rewrite (NoDup_map_snd_inj flagTable k k' t flagTable_types_distinct Hk Hk').
      exact Hset.
    + intros Hset. exists k. split; assumption.
Qed.

(** X1. The types [parseWorldTypes] gives for a flag word are never
    empty and never repeat; a type of the flag table is among them exactly
    when its bit is set; free-to-play is among them exactly when no bit of
    the table is set; the unknown type never is. *)
Theorem parseWorldTypes_sound (flags : Z) :
  parseWorldTypes flags <> []
  /\ NoDup (parseWorldTypes flags)
  /\ (forall k t, In (k, t) flagTable ->
        (In t (parseWorldTypes flags) <-> flagSet flags k = true))
  /\ (In WorldTypeFreeToPlay (parseWorldTypes flags)
      <-> forall k t, In (k, t) flagTable -> flagSet flags k = false)
  /\ ~ In WorldTypeUnknown (parseWorldTypes flags).
Proof.
  rewrite parseWorldTypes_flagged.
  pose proof (flagged_NoDup flags flagTable flagTable_types_distinct) as Hnd.
  pose proof (flagged_In flags flagTable) as Hin.
  destruct flagTable_no_default as [Hf2p Hunk].
  assert (forall t, In t (flagged flags flagTable) -> In t (map snd flagTable)) as Hsub.
  { intros t Ht. apply Hin in Ht. destruct Ht as (k & Hk & _).
    apply in_map_iff. exists (k, t). split; [reflexivity | exact Hk]. }
  destruct (flagged flags flagTable) as [|t0 types] eqn:E.
  - split; [discriminate|]. split; [repeat constructor; intros H; inversion H|].
    split; [|split].
    + intros k t Hk. split.
      * intros [Ht|[]]. subst t. exfalso. apply Hf2p.
        apply in_map_iff. exists (k, WorldTypeFreeToPlay). split; [reflexivity | exact Hk].
      * intros Hset. exfalso. apply (proj2 (Hin t)). exists k. split; assumption.
    + split; [|intros _; left; reflexivity].
      intros _ k t Hk. destruct (flagSet flags k) eqn:Hset; [|reflexivity].
      exfalso. apply (proj2 (Hin t)). exists k. split; assumption.
    + intros [H|[]]. discriminate.
  - split; [discriminate|]. split; [exact Hnd|]. split; [|split].
    + intros k t Hk. rewrite Hin. split.
      * intros (k' & Hk' & Hset).
        rewrite (NoDup_map_snd_inj flagTable k k' t flagTable_types_distinct Hk Hk').
        exact Hset.
      * intros Hset. exists k. split; assumption.
    + split.
      * intros H. exfalso. apply Hf2p, Hsub, H.
      * intros Hnone. exfalso.
        destruct (proj1 (Hin t0) (or_introl eq_refl)) as (k & Hk & Hset).
        rewrite (Hnone k t0 Hk) in Hset. discriminate.
    + intros H. apply Hunk, Hsub, H.
Qed.


Lemma switchCase_same t t' : switchCase t = Some t' -> t' = t.
Proof. destruct t; simpl; intros H; inversion H; reflexivity. Qed.

Lemma rangeTypes_flagged flags tbl :
  rangeTypes (flagged flags tbl)
  = option_map snd
      (find (fun p => flagSet flags (fst p))
            (List.filter (fun p => match switchCase (snd p) with
                                   | Some _ => true | None => false end) tbl)).
Proof.
  induction tbl as [|[k t] tbl IH]; [reflexivity|].
  unfold flagged in *. rewrite filter_cons. cbn [fst List.filter snd].
  destruct (decide (flagSet flags k = true)) as [E|E].
  - cbn [map snd rangeTypes].
    destruct (switchCase t) as [t'|] eqn:Es.
    + cbn [find fst]. rewrite E. cbn [option_map snd].
      rewrite (switchCase_same _ _ Es). reflexivity.
    + exact IH.
  - apply not_true_is_false in E.
    destruct (switchCase t) as [t'|] eqn:Es; [|exact IH].
    cbn [find fst]. rewrite E. exact IH.
Qed.

Lemma hasMembers_In ts : hasMembers ts = true <-> In WorldTypeMembers ts.
Proof.
  induction ts as [|t ts IH]; simpl; [split; [discriminate | intros []]|].
  destruct (decide (t = WorldTypeMembers)) as [->|Hne].
  - split; [intros _; left; reflexivity | reflexivity].
  - rewrite IH. split; [intros H; right; exact H|].
    intros [H|H]; [contradiction | exact H].
Qed.

(** X2. For a world whose types come from [parseWorldTypes], the type
    [WorldType] reports is that of the lowest set bit among the types the
    switch knows, and members or free-to-play by bit 0 when none is set;
    [IsMembers] is bit 0; the result is never beta and never unknown. *)
Theorem world_type_in_bit_order (id flags : Z) (address activity : list byte)
    (location : WorldLocation) (players : Z) :
  let w := mkWorld id (parseWorldTypes flags) address activity location players in
  WorldType_of w
  = match find (fun p => flagSet flags (fst p)) switchTable with
    | Some (_, t) => t
    | None => if flagSet flags 0 then WorldTypeMembers else WorldTypeFreeToPlay
    end
  /\ IsMembers w = flagSet flags 0
  /\ WorldType_of w <> WorldTypeBeta
  /\ WorldType_of w <> WorldTypeUnknown.
Proof.
  cbv zeta.
  assert (IsMembers (mkWorld id (parseWorldTypes flags) address activity location players)
          = flagSet flags 0) as Hmem.
  { unfold IsMembers. cbn [Types].
    pose proof (parseWorldTypes_member flags 0 WorldTypeMembers
                  (or_introl eq_refl)) as Hin.
    destruct (hasMembers (parseWorldTypes flags)) eqn:Eh.
    - symmetry. apply Hin, hasMembers_In, Eh.
    - destruct (flagSet flags 0); [|reflexivity].
      pose proof (proj2 (hasMembers_In _) (proj2 Hin eq_refl)) as Ht.
      rewrite Eh in Ht. discriminate. }
  assert (WorldType_of (mkWorld id (parseWorldTypes flags) address activity location players)
          = match find (fun p => flagSet flags (fst p)) switchTable with
            | Some (_, t) => t
            | None => if flagSet flags 0 then WorldTypeMembers else WorldTypeFreeToPlay
            end) as Htype.
  { unfold WorldType_of. rewrite Hmem. cbn [Types].
    pose proof (rangeTypes_flagged flags flagTable) as Hr. fold switchTable in Hr.
    rewrite parseWorldTypes_flagged.
    destruct (flagged flags flagTable) as [|t0 types] eqn:E.
    - cbn [rangeTypes] in Hr.
      destruct (find (fun p => flagSet flags (fst p)) switchTable) as [[k t]|];
        [discriminate|]. reflexivity.
    - rewrite Hr.
      destruct (find (fun p => flagSet flags (fst p)) switchTable) as [[k t]|];
        reflexivity. }
  split; [exact Htype|]. split; [exact Hmem|].
  rewrite Htype.
  destruct (find (fun p => flagSet flags (fst p)) switchTable) as [[k t]|] eqn:Ef.
  - apply find_some in Ef. destruct Ef as [Hin _].
    assert (Forall (fun p => snd p <> WorldTypeBeta /\ snd p <> WorldTypeUnknown)
                   switchTable) as Hall.
    { vm_compute. repeat constructor; discriminate. }
    rewrite List.Forall_forall in Hall. exact (Hall _ Hin).
  - destruct (flagSet flags 0); split; discriminate.
Qed.

Example switch_table_order :
  map snd switchTable
  = [WorldTypePVP; WorldTypeBounty; WorldTypePVPArena; WorldTypeSkillTotal;
     WorldTypeQuestSpeedrunning; WorldTypeHighRisk; WorldTypeLastManStanding;
     WorldTypeSoulWars; WorldTypeNoSaveMode; WorldTypeTournament;
     WorldTypeFreshStartWorld; WorldTypeMinigame; WorldTypeDeadman;
     WorldTypeSeasonal].
Proof. reflexivity. Qed.

Lemma readStringLoop_complete fuel :
  forall r acc,
    (length (unread r) < fuel)%nat ->
    match readStringLoop fuel r acc with
    | Ok (s, r') =>
        exists s', s = acc ++ s' /\ noNul s'
                   /\ unread r = s' ++ x00 :: unread r'
                   /\ r' = advance r (S (length s'))
    | Err e => e = EOF /\ noNul (unread r)
    end.
Proof.
  induction fuel as [|fuel IH]; intros r acc Hfuel; [lia|].
  cbn [readStringLoop]. unfold ReadByte.
  destruct (unread r) as [|b rest] eqn:Hr.
  - split; [reflexivity | constructor].
  - destruct (Byte.eqb b x00) eqn:Eb.
    + apply Byte.byte_dec_bl in Eb. subst b.
      exists []. rewrite app_nil_r. split; [reflexivity|]. split; [constructor|].
      split; [|reflexivity].
      rewrite unread_advance, Hr. reflexivity.
    + assert (b <> x00) as Hb.
      { intros ->. discriminate Eb. }
      assert (unread (advance r 1) = rest) as Hr1
        by (rewrite unread_advance, Hr; reflexivity).
      specialize (IH (advance r 1) (acc ++ [b])).
      rewrite Hr1 in IH. simpl in Hfuel. specialize (IH ltac:(lia)).
      destruct (readStringLoop fuel (advance r 1) (acc ++ [b])) as [[s r']|e].
      * destruct IH as (s' & Hs & Hn & Hu & Hadv).
        exists (b :: s'). rewrite Hs, <- app_assoc.
        split; [reflexivity|]. split; [constructor; assumption|].
        split; [rewrite Hu; reflexivity|].
        rewrite Hadv, advance_advance. reflexivity.
      * destruct IH as [He Hn]. split; [exact He | constructor; assumption].
Qed.

(** X3. [readNullTerminatedString] returns the bytes before the first
    zero byte and leaves the reader just past that byte; it fails, with
    EOF, exactly when no zero byte is left to read. *)
Theorem string_read_complete (r : Reader) :
  match readNullTerminatedString r with
  | Ok (s, r') =>
      noNul s /\ unread r = s ++ x00 :: unread r'
      /\ r' = advance r (S (length s))
  | Err e => e = EOF /\ noNul (unread r)
  end.
Proof.
  unfold readNullTerminatedString.
  pose proof (readStringLoop_complete (S (Len r)) r []) as H.
  rewrite Len_unread in *. specialize (H ltac:(lia)).
  destruct (readStringLoop (S (length (unread r))) r []) as [[s r']|e]; [|exact H].
  destruct H as (s' & -> & Hn & Hu & Hadv). cbn [app].
  split; [exact Hn|]. split; assumption.
Qed.

Lemma signed_range w z :
  0 < w -> 0 <= z < 2 ^ w -> - 2 ^ (w - 1) <= signed w z < 2 ^ (w - 1).
Proof.
  intros Hw Hz. unfold signed.
  assert (2 ^ w = 2 * 2 ^ (w - 1)) as Hp.
  { replace w with (Z.succ (w - 1)) at 1 by lia. rewrite Z.pow_succ_r; lia. }
  destruct (Z.ltb_spec z (2 ^ (w - 1))); lia.
Qed.

Lemma le16_range b0 b1 : 0 <= le16 b0 b1 < 65536.
Proof.
  rewrite le16_add. pose proof (u8_range b0). pose proof (u8_range b1). lia.
Qed.

Lemma readInt16_range r v r' :
  readInt16 r = Ok (v, r') -> - 32768 <= v < 32768.
Proof.
  unfold readInt16, readUint16.
  destruct (unread r) as [|b0 [|b1 ?]]; try discriminate.
  intros H; inversion H; subst.
  apply (signed_range 16); [lia|]. apply le16_range.
Qed.

Lemma readWorldBody_plausible id r w r' :
  validID id = true -> readWorldBody id r = Ok (w, r') -> plausible w.
Proof.
  intros Hid. unfold readWorldBody.
  destruct (mapErr ErrTypeFlags (readInt32 r)) as [[flags r1]|]; [|discriminate].
  destruct (mapErr ErrAddress (readNullTerminatedString r1)) as [[? r2]|]; [|discriminate].
  destruct (mapErr ErrActivity (readNullTerminatedString r2)) as [[? r3]|]; [|discriminate].
  destruct (mapErr ErrLocation (readInt8 r3)) as [[? r4]|]; [|discriminate].
  destruct (mapErr ErrPlayerCount (readInt16 r4)) as [[p r5]|] eqn:E5; [|discriminate].
  intros H; inversion H; subst. unfold plausible. cbn [ID Types Players].
  apply mapErr_Ok in E5. apply readInt16_range in E5.
  split; [|split; [apply parseWorldTypes_nonempty | exact E5]].
  rewrite validID_window in Hid. apply andb_true_iff in Hid.
  destruct Hid as [H1 H2]. apply Z.leb_le in H1, H2. lia.
Qed.

Lemma scanAlignment_valid fuel :
  forall cur offset r id r',
    scanAlignment fuel cur offset r = Some (id, r') -> validID id = true.
Proof.
  induction fuel as [|fuel IH]; intros cur offset r id r'; simpl; [discriminate|].
  destruct (Len r <? 2)%nat; [discriminate|].
  destruct (readUint16 (Seek r (cur + offset))) as [[testID r1]|]; [|discriminate].
  destruct ((300 <=? testID) && (testID <=? 700)) eqn:E.
  - intros H; inversion H; subst. rewrite validID_window. exact E.
  - apply IH.
Qed.

Lemma decodeLoop_plausible iter fuel :
  forall i r ws,
    Forall plausible ws -> Forall plausible (parsed (decodeLoop iter fuel i r ws)).
Proof.
  induction fuel as [|fuel IH]; intros i r ws Hws; cbn [decodeLoop]; [exact Hws|].
  destruct (Len r <? 11)%nat; [exact Hws|].
  destruct (readUint16 r) as [[id r1]|e]; [|exact Hws].
  assert (forall id2 r2, validID id2 = true ->
    Forall plausible (parsed
      match readWorldBody id2 r2 with
      | Ok (world, r3) => decodeLoop iter fuel (S i) r3 (ws ++ [world])
      | Err e0 => mkLoopEnd (StopError e0) i r2 ws
      end)) as Hbody.
  { intros id2 r2 Hv. destruct (readWorldBody id2 r2) as [[world r3]|e] eqn:Eb;
      [|exact Hws].
    apply IH. apply Forall_app. split; [exact Hws|].
    constructor; [|constructor]. exact (readWorldBody_plausible _ _ _ _ Hv Eb). }
  destruct ((id <? 300) || (700 <? id)) eqn:Einv.
  - destruct ((i =? 0)%nat && iter).
    + destruct (scanAlignment 19 (Size r - Len r) 1 r1) as [[id2 r2]|] eqn:Es;
        [|exact Hws].
      apply Hbody. exact (scanAlignment_valid _ _ _ _ _ _ Es).
    + exact Hws.
  - apply Hbody. unfold validID. rewrite Einv. reflexivity.
Qed.

Lemma maxAttemptsOf_bound count : (maxAttemptsOf count <= 300)%nat.
Proof.
  unfold maxAttemptsOf, parseIterativelyOf, maxReasonableWorlds.
  destruct (Z.leb_spec count 0); [cbn; lia|].
  destruct (Z.ltb_spec 200 count); cbn; lia.
Qed.

(** X4. Every world [decodeWorldData] returns has an id in 300..700, at
    least one type and a player count that fits 16 bits; there are at most
    as many worlds as the attempt limit of the declared count, and never
    more than 300. *)
Theorem decoded_worlds_plausible (data : list byte) (worlds : list World) :
  decodeWorldData data = Ok worlds ->
  Forall (fun w => 300 <= ID w <= 700 /\ Types w <> []
                   /\ - 32768 <= Players w < 32768) worlds
  /\ (length worlds <= maxAttemptsOf (declaredCount data))%nat
  /\ (length worlds <= 300)%nat.
Proof.
  intros Hdec.
  destruct (Nat.ltb_spec (length data) 6) as [Hshort|Hlen].
  { unfold decodeWorldData in Hdec.
    destruct (Nat.ltb_spec (length data) 6); [discriminate | lia]. }
  rewrite (decodeWorldData_run data Hlen) in Hdec. unfold decodeRun in Hdec.
  pose proof (decodeLoop_plausible (parseIterativelyOf (declaredCount data))
                (maxAttemptsOf (declaredCount data)) 0 (mkReader data 6) []
                (List.Forall_nil _)) as Hok.
  destruct (decodeLoop_inv (parseIterativelyOf (declaredCount data))
              (maxAttemptsOf (declaredCount data)) 0 (mkReader data 6) [])
    as (Ha & (ws' & Hp & Hl) & _ & _).
  pose proof (maxAttemptsOf_bound (declaredCount data)) as Hmax.
  set (e := decodeLoop _ _ _ _ _) in *.
  assert (worlds = [] \/ worlds = parsed e) as [-> | ->].
  { unfold outcome in Hdec. destruct (stop e); inversion Hdec; auto. }
  - split; [constructor|]. simpl. lia.
  - split; [exact Hok|]. rewrite Hp. cbn [app]. lia.
Qed.

Lemma readWorldBody_fieldError id r e :
  readWorldBody id r = Err e -> fieldError e.
Proof.
  unfold readWorldBody.
  destruct (readInt32 r) as [[? r1]|]; cbn [mapErr];
    [|intros H; inversion H; exact I].
  destruct (readNullTerminatedString r1) as [[? r2]|]; cbn [mapErr];
    [|intros H; inversion H; exact I].
  destruct (readNullTerminatedString r2) as [[? r3]|]; cbn [mapErr];
    [|intros H; inversion H; exact I].
  destruct (readInt8 r3) as [[? r4]|]; cbn [mapErr];
    [|intros H; inversion H; exact I].
  destruct (readInt16 r4) as [[? r5]|]; cbn [mapErr];
    [discriminate | intros H; inversion H; exact I].
Qed.

(** X5. Fewer than 6 bytes are rejected as too short; 6 to 16 bytes give
    no world and no error; any other failure is a failed read of a field
    inside a record of a payload of at least 17 bytes. The three header
    errors cannot occur. *)
Theorem decode_error_kinds (data : list byte) :
  ((length data < 6)%nat -> decodeWorldData data = Err (ErrTooShort (length data)))
  /\ ((6 <= length data < 17)%nat -> decodeWorldData data = Ok [])
  /\ (forall e, decodeWorldData data = Err e ->
        match e with
        | ErrTooShort got => got = length data /\ (length data < 6)%nat
        | ErrTypeFlags _ | ErrAddress _ | ErrActivity _ | ErrLocation _
        | ErrPlayerCount _ => (17 <= length data)%nat
        | ErrBufferSize _ | ErrWorldCountEOF | ErrWorldCount _ => False
        end).
Proof.
  assert ((6 <= length data < 17)%nat -> decodeWorldData data = Ok []) as Hmid.
  { intros Hlen. rewrite decodeWorldData_run by lia. unfold decodeRun.
    apply outcome_decodeLoop_short. unfold Len. simpl. lia. }
  split; [|split; [exact Hmid|]].
  - intros Hlen. unfold decodeWorldData.
    destruct (Nat.ltb_spec (length data) 6); [reflexivity | lia].
  - intros e He.
    destruct (Nat.ltb_spec (length data) 6) as [Hshort|Hlen].
    { unfold decodeWorldData in He.
      destruct (Nat.ltb_spec (length data) 6); [|lia].
      inversion He; subst. split; [reflexivity | exact Hshort]. }
    assert (17 <= length data)%nat as Hlong.
    { destruct (Nat.ltb_spec (length data) 17); [|lia].
      rewrite Hmid in He by lia. discriminate. }
    rewrite (decodeWorldData_run data Hlen) in He. unfold decodeRun in He.
    destruct (decodeLoop_inv (parseIterativelyOf (declaredCount data))
                (maxAttemptsOf (declaredCount data)) 0 (mkReader data 6) [])
      as (_ & _ & _ & Hs).
    unfold outcome in He. unfold stopFacts in Hs.
    destruct (stop (decodeLoop _ _ _ _ _)); try discriminate.
    inversion He; subst. destruct Hs as (id & Hbody).
    apply readWorldBody_fieldError in Hbody.
    destruct e; try contradiction; exact Hlong.
Qed.

Lemma readUint16_unread r r' :
  unread r = unread r' ->
  match readUint16 r, readUint16 r' with
  | Ok (v, _), Ok (v', _) => v = v'
  | Err _, Err _ => True
  | _, _ => False
  end.
Proof.
  unfold readUint16. intros ->.
  destruct (unread r') as [|b0 [|b1 ?]]; try exact I. reflexivity.
Qed.

Lemma outcome_decodeLoop_invalid iter fuel i r ws tail :
  i <> 0%nat -> unread r = tail -> alignedAt tail 0 = false ->
  outcome (decodeLoop iter fuel i r ws) = Ok ws.
Proof.
  intros Hi Hr Hal. destruct fuel as [|fuel]; [reflexivity|].
  cbn [decodeLoop].
  destruct (Len r <? 11)%nat; [reflexivity|].
  pose proof (readUint16_unread r (mkReader tail 0)) as Hsame.
  rewrite Hr in Hsame. specialize (Hsame (eq_sym (drop_0 tail))).
  unfold alignedAt, idAt in Hal. cbn [Nat.add] in Hal.
  destruct (readUint16 r) as [[id r1]|e]; [|reflexivity].
  destruct (readUint16 (mkReader tail 0)) as [[id' ?]|]; [|contradiction].
  subst id'. unfold validID in Hal. apply negb_false_iff in Hal. rewrite Hal.
  destruct (Nat.eqb_spec i 0); [contradiction|]. reflexivity.
Qed.

(** X6. With a declared count N in 1..200 and N complete records, the
    decoder returns exactly those N worlds whatever bytes follow them. *)
Theorem declared_count_is_a_limit (bufferSize : Z) (recs : list WireWorld)
    (trailing : list byte) :
  (1 <= length recs <= 200)%nat ->
  Forall wellFormed recs ->
  Forall inRange recs ->
  decodeWorldData (header bufferSize (Z.of_nat (length recs))
                   ++ encodeWorlds recs ++ trailing)
  = Ok (map worldOf recs).
Proof.
  intros Hn Hwf Hid.
  rewrite decodeWorldData_header by lia.
  unfold decodeRun, maxAttemptsOf, parseIterativelyOf, maxReasonableWorlds.
  destruct (Z.leb_spec (Z.of_nat (length recs)) 0); [lia|].
  destruct (Z.ltb_spec 200 (Z.of_nat (length recs))); [lia|].
  cbn [orb]. rewrite Nat2Z.id.
  rewrite <- (Nat.add_0_r (length recs)) at 1.
  rewrite (decodeLoop_records recs false 0 0 _ [] trailing); try assumption.
  - reflexivity.
  - apply unread_after_header.
Qed.

(** X7. In iterative mode, complete records followed by bytes that do
    not start with an id in 300..700 decode to exactly those records,
    without error. *)
Theorem iterative_stops_at_bad_id (bufferSize count : Z)
    (recs : list WireWorld) (tail : list byte) :
  - 32768 <= count < 32768 ->
  parseIterativelyOf count = true ->
  (1 <= length recs <= 300)%nat ->
  Forall wellFormed recs ->
  Forall inRange recs ->
  alignedAt tail 0 = false ->
  decodeWorldData (header bufferSize count ++ encodeWorlds recs ++ tail)
  = Ok (map worldOf recs).
Proof.
  intros Hc Hiter Hk Hwf Hid Htail.
  rewrite decodeWorldData_header by lia.
  unfold decodeRun, maxAttemptsOf. rewrite Hiter.
  replace 300%nat with (length recs + (300 - length recs))%nat by lia.
  rewrite (decodeLoop_records recs _ _ 0 _ [] tail);
    try assumption; [|apply unread_after_header].
  apply (outcome_decodeLoop_invalid _ _ _ _ _ tail); [lia| |exact Htail].
  rewrite unread_advance, unread_after_header. apply drop_app_length.
Qed.

Lemma decoded_worlds_plausible_witness :
  Forall (fun w => 300 <= ID w <= 700 /\ Types w <> []
                   /\ - 32768 <= Players w < 32768)
         [worldOf sampleFirst; worldOf sampleSecond]
  /\ (length [worldOf sampleFirst; worldOf sampleSecond] <= 300)%nat.
Proof.
  destruct (decoded_worlds_plausible
              (header 0 2 ++ encodeWorlds [sampleFirst; sampleSecond])
              [worldOf sampleFirst; worldOf sampleSecond])
    as (Hall & _ & Hlen).
  - vm_compute. reflexivity.
  - split; [exact Hall | exact Hlen].
Defined.

Lemma declared_count_is_a_limit_witness :
  decodeWorldData (header 0 2 ++ encodeWorlds [sampleFirst; sampleSecond]
                   ++ [xff; xff; xff])
  = Ok [worldOf sampleFirst; worldOf sampleSecond].
Proof.
  apply (declared_count_is_a_limit 0 [sampleFirst; sampleSecond] [xff; xff; xff]).
  - simpl. lia.
  - apply samples_ok.
  - apply samples_ok.
Defined.

Lemma iterative_stops_at_bad_id_witness :
  decodeWorldData (header 0 0 ++ encodeWorlds [sampleFirst; sampleSecond]
                   ++ [xff; xff; xff; xff; xff; xff; xff; xff; xff; xff; xff; xff])
  = Ok [worldOf sampleFirst; worldOf sampleSecond].
Proof.
  apply (iterative_stops_at_bad_id 0 0 [sampleFirst; sampleSecond]
           [xff; xff; xff; xff; xff; xff; xff; xff; xff; xff; xff; xff]).
  - lia.
  - reflexivity.
  - simpl. lia.
  - apply samples_ok.
  - apply samples_ok.
  - vm_compute. reflexivity.
Defined.

(** *** What a decoded world holds of its record *)

Lemma land_pow2 a k :
  0 <= k -> Z.land a (2 ^ k) = if Z.testbit a k then 2 ^ k else 0.
Proof.
  intros Hk. apply Z.bits_inj'. intros n Hn.
  rewrite Z.land_spec, Z.pow2_bits_eqb by exact Hk.
  destruct (Z.eqb_spec k n) as [->|Hne].
  - destruct (Z.testbit a n) eqn:E.
    + rewrite Z.pow2_bits_eqb, Z.eqb_refl by exact Hn. reflexivity.
    + rewrite Z.bits_0. reflexivity.
  - rewrite andb_false_r. destruct (Z.testbit a k).
    + rewrite Z.pow2_bits_eqb by exact Hk.
      symmetry. apply Z.eqb_neq. exact Hne.
    + rewrite Z.bits_0. reflexivity.
Qed.

Lemma flagSet_testbit flags k : 0 <= k -> flagSet flags k = Z.testbit flags k.
Proof.
  intros Hk. unfold flagSet. rewrite Z.shiftl_1_l, (land_pow2 flags k Hk).
  destruct (Z.testbit flags k); [|reflexivity].
  destruct (Z.eqb_spec (2 ^ k) 0) as [E|E]; [|reflexivity].
  pose proof (Z.pow_pos_nonneg 2 k ltac:(lia) Hk). lia.
Qed.

Lemma bitOf_flagTable t k : bitOf t = Some k <-> In (k, t) flagTable.
Proof.
  split.
  - destruct t; intros H; inversion H; subst; simpl; tauto.
  - intros H. simpl in H.
    repeat (destruct H as [H|H]; [inversion H; subst; reflexivity|]).
    destruct H.
Qed.

Lemma bitOf_nonneg t k : bitOf t = Some k -> 0 <= k.
Proof. destruct t; intros H; inversion H; lia. Qed.

Lemma flagTable_rising : Sorted.StronglySorted lowerBit (map snd flagTable).
Proof.
  cbn [map snd flagTable].
  repeat (apply Sorted.SSorted_cons; [|repeat (apply List.Forall_cons; [reflexivity|]); apply List.Forall_nil]).
  apply Sorted.SSorted_nil.
Qed.

Lemma flagged_rising flags tbl :
  Sorted.StronglySorted lowerBit (map snd tbl) ->
  Sorted.StronglySorted lowerBit (flagged flags tbl).
Proof.
  induction tbl as [|[k t] tbl IH]; intros Hs; unfold flagged.
  - simpl. constructor.
  - cbn [map snd] in Hs. apply Sorted.StronglySorted_inv in Hs.
    destruct Hs as [Hs Hall].
    rewrite filter_cons. cbn [fst].
    destruct (decide (flagSet flags k = true)); [|apply IH; exact Hs].
    cbn [map snd]. apply Sorted.SSorted_cons; [apply IH; exact Hs|].
    apply List.Forall_forall. intros t' Hin.
    apply (flagged_In flags tbl t') in Hin. destruct Hin as (k' & Hin & _).
    apply (proj1 (List.Forall_forall _ _) Hall).
    apply in_map_iff. exists (k', t'). split; [reflexivity | exact Hin].
Qed.

Lemma parseWorldTypes_rising flags :
  Sorted.StronglySorted lowerBit (parseWorldTypes flags).
Proof.
  rewrite parseWorldTypes_flagged.
  pose proof (flagged_rising flags flagTable flagTable_rising) as Hs.
  destruct (flagged flags flagTable); [|exact Hs].
  apply Sorted.SSorted_cons; constructor.
Qed.

Lemma parseWorldTypes_default flags :
  In WorldTypeFreeToPlay (parseWorldTypes flags)
  <-> forall k t, In (k, t) flagTable -> flagSet flags k = false.
Proof.
  rewrite parseWorldTypes_flagged.
  pose proof (flagged_In flags flagTable) as Hin.
  destruct flagTable_no_default as [Hf2p _].
  destruct (flagged flags flagTable) as [|t0 types] eqn:E.
  - split; [|intros _; left; reflexivity].
    intros _ k t Hk. destruct (flagSet flags k) eqn:Hset; [|reflexivity].
    exfalso. apply (proj2 (Hin t)). exists k. split; assumption.
  - split.
    + intros H. exfalso. apply Hf2p. apply Hin in H. destruct H as (k & Hk & _).
      apply in_map_iff. exists (k, WorldTypeFreeToPlay). split; [reflexivity | exact Hk].
    + intros Hnone. exfalso.
      assert (In t0 (t0 :: types)) as H0 by (left; reflexivity).
      apply Hin in H0. destruct H0 as (k & Hk & Hset).
      rewrite (Hnone k t0 Hk) in Hset. discriminate.
Qed.

Lemma parseWorldTypes_known flags :
  ~ In WorldTypeUnknown (parseWorldTypes flags).
Proof.
  rewrite parseWorldTypes_flagged.
  pose proof (flagged_In flags flagTable) as Hin.
  destruct flagTable_no_default as [_ Hunk].
  destruct (flagged flags flagTable) as [|t0 types] eqn:E.
  - intros [H|[]]. discriminate.
  - intros H. apply Hunk. apply Hin in H. destruct H as (k & Hk & _).
    apply in_map_iff. exists (k, WorldTypeUnknown). split; [reflexivity | exact Hk].
Qed.

Lemma locationFromByte_cases b :
  locationFromByte b
  = if b =? 0 then WorldLocationUSA
    else if b =? 1 then WorldLocationUK
    else if b =? 3 then WorldLocationAustralia
    else if b =? 7 then WorldLocationGermany
    else WorldLocationUnknown.
Proof.
  destruct b as [|p|p]; [reflexivity| |reflexivity].
  destruct p as [[[p|p|]|[p|p|]|]|[[p|p|]|[p|p|]|]|]; reflexivity.
Qed.

Lemma locationFromByte_code b l c :
  codeOf l = Some c -> (locationFromByte b = l <-> b = c).
Proof.
  rewrite locationFromByte_cases.
  destruct l; intros H; inversion H; subst c;
    destruct (Z.eqb_spec b 0), (Z.eqb_spec b 1), (Z.eqb_spec b 3), (Z.eqb_spec b 7);
    split; intros; try discriminate; try lia; try reflexivity.
Qed.

Lemma locationFromByte_no_code b :
  locationFromByte b = WorldLocationUnknown
  <-> (forall l c, codeOf l = Some c -> b <> c).
Proof.
  rewrite locationFromByte_cases. split.
  - intros H l c Hc.
    destruct (Z.eqb_spec b 0), (Z.eqb_spec b 1), (Z.eqb_spec b 3), (Z.eqb_spec b 7);
      try discriminate.
    destruct l; inversion Hc; subst c; assumption.
  - intros H.
    pose proof (H WorldLocationUSA 0 eq_refl).
    pose proof (H WorldLocationUK 1 eq_refl).
    pose proof (H WorldLocationAustralia 3 eq_refl).
    pose proof (H WorldLocationGermany 7 eq_refl).
    destruct (Z.eqb_spec b 0), (Z.eqb_spec b 1), (Z.eqb_spec b 3), (Z.eqb_spec b 7);
      try contradiction. reflexivity.
Qed.

Lemma worldOf_carries rec : carries rec (worldOf rec).
Proof.
  unfold worldOf. constructor; cbn [ID Types Address Activity Location Players];
    try reflexivity.
  - intros t k Hb. rewrite <- (flagSet_testbit _ k (bitOf_nonneg t k Hb)).
    apply parseWorldTypes_member, bitOf_flagTable, Hb.
  - rewrite parseWorldTypes_default. split.
    + intros H t k Hb. rewrite <- (flagSet_testbit _ k (bitOf_nonneg t k Hb)).
      apply (H k t), bitOf_flagTable, Hb.
    + intros H k t Hin. apply bitOf_flagTable in Hin.
      rewrite (flagSet_testbit _ k (bitOf_nonneg t k Hin)). apply (H t k Hin).
  - apply parseWorldTypes_known.
  - apply parseWorldTypes_rising.
  - intros l c. apply locationFromByte_code.
  - apply locationFromByte_no_code.
Qed.

Lemma lowerBit_irrefl t : ~ lowerBit t t.
Proof. unfold lowerBit. destruct (bitOf t); [lia | tauto]. Qed.

Lemma lowerBit_trans t1 t2 t3 : lowerBit t1 t2 -> lowerBit t2 t3 -> lowerBit t1 t3.
Proof.
  unfold lowerBit. destruct (bitOf t1), (bitOf t2), (bitOf t3); try tauto. lia.
Qed.

Lemma rising_same_members (l1 : list WorldType) :
  forall l2,
  Sorted.StronglySorted lowerBit l1 -> Sorted.StronglySorted lowerBit l2 ->
  (forall t, In t l1 <-> In t l2) -> l1 = l2.
Proof.
  induction l1 as [|a l1 IH]; intros l2 H1 H2 Hm.
  - destruct l2 as [|b l2]; [reflexivity|].
    exfalso. apply (proj2 (Hm b)). left. reflexivity.
  - destruct l2 as [|b l2].
    { exfalso. apply (proj1 (Hm a)). left. reflexivity. }
    apply Sorted.StronglySorted_inv in H1, H2.
    destruct H1 as [H1 Ha], H2 as [H2 Hb].
    pose proof (proj1 (List.Forall_forall _ _) Ha) as Ha'.
    pose proof (proj1 (List.Forall_forall _ _) Hb) as Hb'.
    assert (a = b) as ->.
    { destruct (proj1 (Hm a) (or_introl eq_refl)) as [E|Hin]; [congruence|].
      destruct (proj2 (Hm b) (or_introl eq_refl)) as [E|Hin']; [congruence|].
      exfalso. apply (lowerBit_irrefl a).
      apply (lowerBit_trans a b a); [apply Ha', Hin' | apply Hb', Hin]. }
    f_equal. apply IH; [exact H1 | exact H2 |].
    intros t. split; intros Hin.
    + destruct (proj1 (Hm t) (or_intror Hin)) as [E|Hin2]; [|exact Hin2].
      subst t. exfalso. apply (lowerBit_irrefl b), Ha', Hin.
    + destruct (proj2 (Hm t) (or_intror Hin)) as [E|Hin2]; [|exact Hin2].
      subst t. exfalso. apply (lowerBit_irrefl b), Hb', Hin.
Qed.

(** Two worlds that hold what one record says are the same world. *)
Lemma carries_unique rec w w' : carries rec w -> carries rec w' -> w = w'.
Proof.
  intros [Hid Hty Hfr Hkn Hor Had Hac Hlo Hnl Hpl] [Hid' Hty' Hfr' Hkn' Hor' Had' Hac' Hlo' Hnl' Hpl'].
  destruct w as [i ts ad ac lo pl], w' as [i' ts' ad' ac' lo' pl'].
  cbn [ID Types Address Activity Location Players] in *.
  subst i i' ad ad' ac ac' pl pl'.
  assert (ts = ts') as ->.
  { apply rising_same_members; [exact Hor | exact Hor' |].
    intros t. destruct (bitOf t) as [k|] eqn:Hb.
    - rewrite (Hty t k Hb), (Hty' t k Hb). reflexivity.
    - destruct t; try discriminate Hb.
      + rewrite Hfr, Hfr'. reflexivity.
      + split; intros H; contradiction. }
  assert (lo = lo') as ->; [|reflexivity].
  destruct (codeOf lo) as [c|] eqn:Hc.
  - symmetry. apply (Hlo' lo c Hc). apply (Hlo lo c Hc). reflexivity.
  - destruct lo; try discriminate Hc. symmetry. apply Hnl'.
    apply Hnl. reflexivity.
Qed.

(** C6. A well-formed payload -- a header declaring N records, N between 1
    and 200, followed by exactly N complete records whose ids lie in
    300..700 -- decodes without error to exactly N worlds, and the i-th
    world holds what the bytes of the i-th record say: its id, address,
    activity and player count; the types whose bits are set in its flag
    word, by rising bit, or free-to-play alone when none is set; and the
    location whose code its location byte is. *)
Theorem well_formed_payload_decodes (bufferSize : Z) (recs : list WireWorld) :
  (1 <= length recs <= 200)%nat ->
  Forall wellFormed recs ->
  Forall inRange recs ->
  exists worlds,
    decodeWorldData (header bufferSize (Z.of_nat (length recs))
                     ++ encodeWorlds recs) = Ok worlds
    /\ length worlds = length recs
    /\ Forall2 carries recs worlds.
Proof.
  intros Hn Hwf Hid. exists (map worldOf recs).
  split; [apply complete_records_decode; assumption|].
  split; [apply length_map|].
  clear. induction recs as [|rec recs IH]; cbn [map]; constructor.
  - apply worldOf_carries.
  - exact IH.
Qed.

Lemma well_formed_payload_decodes_witness :
  exists worlds,
    decodeWorldData (header 0 2 ++ encodeWorlds [sampleFirst; sampleSecond])
    = Ok worlds
    /\ length worlds = 2%nat
    /\ Forall2 carries [sampleFirst; sampleSecond] worlds.
Proof.
  apply (well_formed_payload_decodes 0 [sampleFirst; sampleSecond]).
  - simpl. lia.
  - apply samples_ok.
  - apply samples_ok.
Defined.

End DecoderMore.

(** ** More about the rate-limit coordinator *)

Module LimiterMore.
Import Cache Steam Scenarios SteamFacts Codecs CodecFacts Samples.

Section MoreCoordinator.
Context {jsonState : JSON RateLimitState}.

Lemma backoff_bounds n :
  Hour <= backoffLoop n initialBackoff <= 24 * Hour.
Proof.
  replace initialBackoff with (Hour * 2 ^ 0) by reflexivity.
  rewrite backoffLoop_pow by lia. unfold maxBackoff.
  pose proof (Z.pow_pos_nonneg 2 (0 + Z.of_nat n) ltac:(lia) ltac:(lia)).
  rewrite Hour_value. lia.
Qed.

Lemma Record403_blocks (now : Z) (rl : RateLimitState) (c : Cache) :
  let rl' := fst (Record403 now rl c) in
  IsRateLimited rl' = true
  /\ now + 1 * Hour <= BlockedUntil rl' <= now + 24 * Hour.
Proof.
  cbv zeta. unfold Record403. cbn [fst IsRateLimited BlockedUntil].
  split; [reflexivity|].
  pose proof (backoff_bounds
                (Z.to_nat (wrap64 (wrap64 (Consecutive403 rl + 1) - 1)))).
  lia.
Qed.

(** X15. Whatever the state was, even with a counter that is negative or
    about to wrap, a rejection leaves the limiter blocked for a whole
    number of hours between 1 and 24 from now, and a check made at the same
    instant reports blocked. *)
Theorem rejection_window_bounds (now : Z) (rl : RateLimitState) (c : Cache) :
  let rl' := fst (Record403 now rl c) in
  IsRateLimited rl' = true
  /\ now + 1 * Hour <= BlockedUntil rl' <= now + 24 * Hour
  /\ 1 <= BackoffHours rl' <= 24
  /\ BlockedUntil rl' = now + BackoffHours rl' * Hour
  /\ fst (fst (CheckAndBlock now rl' (snd (Record403 now rl c)))) = true.
Proof.
  cbv zeta. unfold Record403. cbn [fst snd IsRateLimited BlockedUntil BackoffHours].
  set (n := Z.to_nat _).
  pose proof (backoff_bounds n) as Hb.
  assert (backoffLoop n initialBackoff = hoursOf (backoffLoop n initialBackoff) * Hour
          /\ 1 <= hoursOf (backoffLoop n initialBackoff) <= 24) as [Hmul Hh].
  { replace initialBackoff with (Hour * 2 ^ 0) by reflexivity.
    rewrite backoffLoop_pow by lia.
    replace (Hour * 2 ^ (0 + Z.of_nat n)) with (initialBackoff * 2 ^ Z.of_nat n)
      by (unfold initialBackoff; rewrite Z.add_0_l; lia).
    rewrite backoff_hours.
    pose proof (Z.pow_pos_nonneg 2 (Z.of_nat n) ltac:(lia) ltac:(lia)).
    split; [|lia].
    unfold initialBackoff, maxBackoff.
    replace (1 * Hour * 2 ^ Z.of_nat n) with (Hour * 2 ^ Z.of_nat n) by lia.
    replace (24 * Hour) with (Hour * 24) by lia.
    rewrite Z.mul_min_distr_nonneg_l by (rewrite Hour_value; lia). lia. }
  split; [reflexivity|]. split; [lia|]. split; [exact Hh|]. split; [lia|].
  unfold CheckAndBlock. cbn [IsRateLimited BlockedUntil negb].
  pose proof Hour_value.
  destruct (Z.ltb_spec now (now + backoffLoop n initialBackoff)); [reflexivity | lia].
Qed.


(** X16. With a codec that loses nothing, a rejection stores the state
    for the length of the block plus one hour. A collector started while
    the entry lives loads exactly that state, and is blocked until the
    block ends; one started later finds nothing and starts unblocked. *)
Theorem rejection_survives_restart (now : Z) (rl : RateLimitState) (c : Cache)
    (now' : Z) :
  faithful jsonState ->
  let rl' := fst (Record403 now rl c) in
  let c' := snd (Record403 now rl c) in
  (exists it, items c' !! rateLimitCacheKey = Some it
              /\ ttl it = BlockedUntil rl' - now + 1 * Hour
              /\ Unmarshal (value it) = Some rl')
  /\ (now' < BlockedUntil rl' + 1 * Hour ->
      NewRateLimitState now' c' = rl'
      /\ fst (fst (CheckAndBlock now' (NewRateLimitState now' c') c'))
         = (now' <? BlockedUntil rl'))
  /\ (BlockedUntil rl' + 1 * Hour <= now' ->
      NewRateLimitState now' c' = mkRateLimitState false 0 0 1).
Proof.
  intros Hf. cbv zeta.
  pose proof (Record403_blocks now rl c) as Hb. cbv zeta in Hb.
  destruct Hb as (Hlim & Hwin).
  pose proof Hour_value as HH.
  unfold Record403 in *. cbn [fst snd] in *.
  set (rl' := mkRateLimitState _ _ _ _) in *.
  destruct (Hf rl') as (data & Hm & Hu).
  assert (saveState now rl' c
          = Set_ now c rateLimitCacheKey data (BlockedUntil rl' - now + 1 * Hour))
    as Hsave.
  { unfold saveState. rewrite Hm, Hlim.
    destruct (Z.ltb_spec now (BlockedUntil rl')); [reflexivity | lia]. }
  rewrite Hsave.
  split; [|split].
  - eexists. split; [cbn [Set_ items]; apply lookup_insert_eq|].
    split; [reflexivity | exact Hu].
  - intros Hlive.
    assert (NewRateLimitState now' (Set_ now c rateLimitCacheKey data
              (BlockedUntil rl' - now + 1 * Hour)) = rl') as Hnew.
    { unfold NewRateLimitState, loadState. rewrite Get_Set_eq.
      destruct (Z.leb_spec (BlockedUntil rl' - now + 1 * Hour) 0); [lia|].
      destruct (Z.ltb_spec now' (now + (BlockedUntil rl' - now + 1 * Hour)));
        [|lia].
      cbn [orb]. rewrite Hu. reflexivity. }
    split; [exact Hnew|]. rewrite Hnew.
    unfold CheckAndBlock. rewrite Hlim. cbn [negb].
    destruct (now' <? BlockedUntil rl'); reflexivity.
  - intros Hgone.
    unfold NewRateLimitState, loadState. rewrite Get_Set_eq.
    destruct (Z.leb_spec (BlockedUntil rl' - now + 1 * Hour) 0); [lia|].
    destruct (Z.ltb_spec now' (now + (BlockedUntil rl' - now + 1 * Hour)));
      [lia|]. reflexivity.
Qed.

(** X17. A success recorded while the block lasts changes nothing. One
    recorded without a block or after it, and a check made once the block
    has ended, clear the state; the next rejection then blocks for one
    hour again, however long the last block was. *)
Theorem cleared_block_restarts_backoff (now t : Z) (rl : RateLimitState)
    (c c2 : Cache) :
  (IsRateLimited rl = true -> now <= BlockedUntil rl ->
   RecordSuccess now rl c = (rl, c))
  /\ (IsRateLimited rl = false \/ BlockedUntil rl < now ->
      let rl1 := fst (RecordSuccess now rl c) in
      IsRateLimited rl1 = false /\ Consecutive403 rl1 = 0
      /\ BackoffHours rl1 = 1
      /\ BlockedUntil (fst (Record403 t rl1 c2)) = t + 1 * Hour)
  /\ (IsRateLimited rl = true -> BlockedUntil rl <= now ->
      let '(blocked, rl1, c1) := CheckAndBlock now rl c in
      blocked = false
      /\ IsRateLimited rl1 = false /\ Consecutive403 rl1 = 0
      /\ BackoffHours rl1 = 1
      /\ BlockedUntil (fst (Record403 t rl1 c1)) = t + 1 * Hour).
Proof.
  split; [|split].
  - intros Hl Hn. unfold RecordSuccess. rewrite Hl. cbn [negb orb].
    destruct (Z.ltb_spec (BlockedUntil rl) now); [lia | reflexivity].
  - intros H. cbv zeta. unfold RecordSuccess.
    assert (negb (IsRateLimited rl) || (BlockedUntil rl <? now) = true) as ->.
    { destruct H as [-> | H]; [reflexivity|].
      apply orb_true_iff. right. apply Z.ltb_lt. exact H. }
    cbn [fst IsRateLimited Consecutive403 BackoffHours].
    repeat split.
  - intros Hl Hn. unfold CheckAndBlock. rewrite Hl. cbn [negb].
    destruct (Z.ltb_spec now (BlockedUntil rl)); [lia|].
    repeat split.
Qed.

End MoreCoordinator.

Lemma rejection_survives_restart_witness :
  faithful stateJSON
  /\ NewRateLimitState (jsonState := stateJSON) (30 * Minute)
       (snd (Record403 (jsonState := stateJSON) 0
               (mkRateLimitState false 0 0 1) empty))
     = mkRateLimitState true (1 * Hour) 1 1.
Proof.
  split; [apply countableJSON_faithful|].
  pose proof (rejection_survives_restart (jsonState := stateJSON)
                0 (mkRateLimitState false 0 0 1) empty (30 * Minute)
                (countableJSON_faithful RateLimitState)) as H.
  cbv zeta in H. destruct H as (_ & H & _).
  exact (proj1 (H ltac:(vm_compute; reflexivity))).
Defined.

End LimiterMore.

(** ** More about the Steam collector *)

Module CollectorMore.
Import Cache Steam Scenarios SteamFacts SteamReport SteamCollect.
Import Codecs CodecFacts CollectorTerms Samples.

Lemma limiter_key_not_global appId : rateLimitCacheKey <> globalAchievementsKey appId.
Proof. unfold rateLimitCacheKey, globalAchievementsKey. cbn. intros H. discriminate H. Qed.

Lemma writesOnly_same P e1 e2 : cache e2 = cache e1 -> writesOnly P e1 e2.
Proof.
  intros H. exists []. rewrite app_nil_r, H. split; [reflexivity|]. intros ? ? [].
Qed.

Lemma writesOnly_refl P env : writesOnly P env env.
Proof. apply writesOnly_same. reflexivity. Qed.

Lemma writesOnly_trans P e1 e2 e3 :
  writesOnly P e1 e2 -> writesOnly P e2 e3 -> writesOnly P e1 e3.
Proof.
  intros (n1 & H1 & K1) (n2 & H2 & K2). exists (n1 ++ n2).
  rewrite H2, H1, <- app_assoc. split; [reflexivity|].
  intros key item Hin. apply in_app_or in Hin. destruct Hin; eauto.
Qed.

Lemma writesOnly_Set (P : string -> Item -> Prop) env key v t clock' draws' rl' reps :
  P key (mkItem v t (clock env)) ->
  writesOnly P env (mkEnv (Set_ (clock env) (cache env) key v t) clock' draws' rl' reps).
Proof.
  intros HP. eexists. split; [reflexivity|].
  intros key' item [H|[]]. inversion H; subst. exact HP.
Qed.

Section MoreCollector.
Context {jsonState : JSON RateLimitState}.
Context {jsonEntry : JSON cacheEntry}.
Context {jsonGlobal : JSON (slice GlobalAchievement)}.
Context {jsonOwned : JSON OwnedGamesResponse}.
Context {jsonName : JSON string}.
Variable randSource : nat -> Z.

Lemma pauseUnlessBlocked_writes (P : string -> Item -> Prop) env :
  (forall item, P rateLimitCacheKey item) ->
  writesOnly P env (pauseUnlessBlocked env).
Proof.
  intros HP. unfold pauseUnlessBlocked.
  destruct (rateLimit env) as [rl|]; [|apply writesOnly_same; reflexivity].
  unfold CheckAndBlock.
  destruct (negb (IsRateLimited rl)); [apply writesOnly_same; reflexivity|].
  destruct (clock env <? BlockedUntil rl); [apply writesOnly_same; reflexivity|].
  unfold saveState.
  destruct (Marshal _) as [data|]; [|apply writesOnly_same; reflexivity].
  apply writesOnly_Set. apply HP.
Qed.

Lemma pauseUnlessBlocked_reports env : reports (pauseUnlessBlocked env) = reports env.
Proof.
  unfold pauseUnlessBlocked. destruct (rateLimit env) as [rl|]; [|reflexivity].
  destruct (CheckAndBlock (clock env) rl (cache env)) as [[blocked rl'] c'].
  reflexivity.
Qed.

Lemma loadGlobalAchievements_reports client game env :
  reports (snd (loadGlobalAchievements randSource client game env)) = reports env.
Proof.
  unfold loadGlobalAchievements.
  destruct (match Get (clock env) (cache env) (globalAchievementsKey (AppId game)) with
            | Some cachedData => _ | None => _ end) as [l|]; [reflexivity|].
  destruct (GetGlobalAchievementPercentages client (AppId game)) as [globals|msg].
  - destruct (Marshal globals) as [data|]; reflexivity.
  - destruct (_ || _); reflexivity.
Qed.

(** X18. Whenever [collectAchievements] stores a global achievement
    list, it is the list the upstream just returned, stored at the time of
    the call for seven days plus less than twelve hours. *)
Theorem global_list_ttl_window (client : Client) (steamId : string)
    (game : OwnedGame) (username : string) (env : Env) :
  let env' :=
    snd (collectAchievements randSource client steamId game username env) in
  exists new,
    setCalls (cache env') = setCalls (cache env) ++ new
    /\ forall key item, In (key, item) new ->
         key = globalAchievementsKey (AppId game) ->
         storedAt item = clock env
         /\ 7 * 24 * Hour <= ttl item < 7 * 24 * Hour + 12 * Hour
         /\ exists fetched,
              GetGlobalAchievementPercentages client (AppId game) = Ok fetched
              /\ Marshal fetched = Some (value item).
Proof.
  cbv zeta.
  set (P := fun (key : string) (item : Item) =>
    key = globalAchievementsKey (AppId game) ->
    storedAt item = clock env
    /\ 7 * 24 * Hour <= ttl item < 7 * 24 * Hour + 12 * Hour
    /\ exists fetched,
         GetGlobalAchievementPercentages client (AppId game) = Ok fetched
         /\ Marshal fetched = Some (value item)).
  change (writesOnly P env
            (snd (collectAchievements randSource client steamId game username env))).
  assert (writesOnly P env (snd (loadGlobalAchievements randSource client game env)))
    as H1.
  { unfold loadGlobalAchievements.
    destruct (match Get (clock env) (cache env) (globalAchievementsKey (AppId game)) with
              | Some cachedData => _ | None => _ end) as [l|];
      [apply writesOnly_refl|].
    destruct (GetGlobalAchievementPercentages client (AppId game)) as [globals|msg] eqn:Ef.
    - destruct (Marshal globals) as [data|] eqn:Em; [|apply writesOnly_refl].
      cbn [snd]. apply writesOnly_Set. intros _. cbn [storedAt ttl value].
      split; [reflexivity|]. split.
      + pose proof (Intn_range randSource 720 (draws env) ltac:(lia)).
        unfold Hour, Minute, Second in *. lia.
      + exists globals. split; [reflexivity | exact Em].
    - destruct (_ || _); apply writesOnly_refl. }
  unfold collectAchievements.
  destruct (loadGlobalAchievements randSource client game env) as [[globals|e] env1];
    [|exact H1].
  cbn [snd] in H1.
  destruct (len globals =? 0)%nat; [exact H1|].
  match goal with
  | |- context [if negb ?a then ?fromCache else None] =>
      destruct (if negb a then fromCache else None) as [cached|]
  end.
  { cbn [snd]. exact H1. }
  assert (writesOnly P env (pauseUnlessBlocked env1)) as H2.
  { eapply writesOnly_trans; [exact H1|]. apply pauseUnlessBlocked_writes.
    intros item Hk. exfalso. exact (limiter_key_not_global _ Hk). }
  destruct (match GetUserStatsForGame client steamId (AppId game) with
            | Ok achievements => Ok achievements
            | Err msg => cachedOnRateLimit (pauseUnlessBlocked env1) _ msg
            end) as [fetched|e]; [|exact H2].
  destruct (Marshal (mkCacheEntry fetched (PlaytimeForever game))) as [data|];
    [|exact H2].
  cbn [snd]. eapply writesOnly_trans; [exact H2|].
  unfold report. cbn [cache].
  apply writesOnly_Set. intros Hk. exfalso.
  exact (user_key_not_global _ _ _ (eq_sym Hk)).
Qed.

(** X19. With a non-empty global list and user achievements in the
    cache and playtime no higher than the stored one, [collectAchievements]
    reports the cached data and changes nothing else: no request, no pause,
    no write, no draw. *)
Theorem cached_game_needs_no_request (client : Client) (steamId : string)
    (game : OwnedGame) (username : string) (env : Env)
    (globalData userData : list byte) (globals : list GlobalAchievement)
    (entry : cacheEntry) (achievements : list Achievement) :
  Get (clock env) (cache env) (globalAchievementsKey (AppId game))
  = Some globalData ->
  @Unmarshal _ jsonGlobal globalData = Some (Some globals) ->
  globals <> [] ->
  Get (clock env) (cache env) (userAchievementsKey steamId (AppId game))
  = Some userData ->
  Unmarshal userData = Some entry ->
  PlaytimeForever game <= Playtime entry ->
  UserAchievements entry = Some achievements ->
  collectAchievements randSource client steamId game username env
  = (Ok tt,
     report env (mkReport (Some achievements) (Some globals) (GameName game)
                          (AppId game) steamId username)).
Proof.
  intros Hg Hgu Hne Hu Huu Hp Ha.
  unfold collectAchievements, loadGlobalAchievements.
  rewrite Hg, Hgu.
  destruct globals as [|g globals]; [congruence|].
  cbn [len length Nat.ltb Nat.leb Nat.eqb].
  unfold hasPlaytimeIncreased. rewrite Hu, Huu.
  destruct (Z.ltb_spec (Playtime entry) (PlaytimeForever game)); [lia|].
  cbn [negb]. rewrite Ha. reflexivity.
Qed.

(** X20. [collectAchievements] reports at most once, only when it
    returns no error and the global list is not empty, and under the game,
    user and name it was called with. *)
Theorem reports_only_on_success (client : Client) (steamId : string)
    (game : OwnedGame) (username : string) (env : Env) :
  let r := collectAchievements randSource client steamId game username env in
  match fst r with
  | Err _ => reports (snd r) = reports env
  | Ok _ =>
      reports (snd r) = reports env
      \/ exists user globals,
           reports (snd r)
           = reports env ++ [mkReport user globals (GameName game) (AppId game)
                                      steamId username]
           /\ (0 < len globals)%nat
  end.
Proof.
  cbv zeta. unfold collectAchievements.
  pose proof (loadGlobalAchievements_reports client game env) as H1.
  destruct (loadGlobalAchievements randSource client game env) as [[globals|e] env1];
    cbn [snd] in H1; [|exact H1].
  destruct (len globals =? 0)%nat eqn:El; [left; exact H1|].
  apply Nat.eqb_neq in El.
  match goal with
  | |- context [if negb ?a then ?fromCache else None] =>
      destruct (if negb a then fromCache else None) as [cached|]
  end.
  { cbn [fst snd]. right. exists (Some cached), globals.
    unfold report. cbn [reports]. rewrite H1. split; [reflexivity | lia]. }
  pose proof (pauseUnlessBlocked_reports env1) as H2.
  destruct (match GetUserStatsForGame client steamId (AppId game) with
            | Ok achievements => Ok achievements
            | Err msg => cachedOnRateLimit (pauseUnlessBlocked env1) _ msg
            end) as [fetched|e]; [|cbn [fst snd]; congruence].
  cbn [fst snd]. right. exists fetched, globals.
  split; [|lia].
  destruct (Marshal (mkCacheEntry fetched (PlaytimeForever game))) as [data|];
    unfold report; cbn [reports]; congruence.
Qed.


(** X21. While the limiter blocks, a failed fetch whose message says
    "rate limited" is answered from the cache when the cached list is not
    empty: the cached achievements are reported, without a pause, and are
    stored again under the current playtime with the time-to-live of an
    active player, so that the next call sees no increase. *)
Theorem rate_limited_fetch_serves_cache (client : Client) (steamId : string)
    (game : OwnedGame) (username : string) (env : Env) (rl : RateLimitState)
    (msg : string) (globalData userData data : list byte)
    (globals : list GlobalAchievement) (entry : cacheEntry)
    (first : Achievement) (rest : list Achievement) :
  let cached := Some (first :: rest) in
  let userKey := userAchievementsKey steamId (AppId game) in
  Get (clock env) (cache env) (globalAchievementsKey (AppId game))
  = Some globalData ->
  @Unmarshal _ jsonGlobal globalData = Some (Some globals) ->
  globals <> [] ->
  rateLimit env = Some rl ->
  IsRateLimited rl = true ->
  clock env < BlockedUntil rl ->
  GetUserStatsForGame client steamId (AppId game) = Err msg ->
  Contains (ToLower msg) "rate limited" = true ->
  Get (clock env) (cache env) userKey = Some userData ->
  Unmarshal userData = Some entry ->
  Playtime entry < PlaytimeForever game ->
  UserAchievements entry = cached ->
  Marshal (mkCacheEntry cached (PlaytimeForever game)) = Some data ->
  Unmarshal data = Some (mkCacheEntry cached (PlaytimeForever game)) ->
  let r := collectAchievements randSource client steamId game username env in
  fst r = Ok tt
  /\ reports (snd r)
     = reports env ++ [mkReport cached (Some globals) (GameName game)
                                (AppId game) steamId username]
  /\ clock (snd r) = clock env
  /\ cache (snd r)
     = Set_ (clock env) (cache env) userKey data
            (2 * Minute + Intn randSource 180 (draws env) * Second)
  /\ hasPlaytimeIncreased (snd r) (AppId game) steamId (PlaytimeForever game)
     = false.
Proof.
  intros cached userKey Hg Hgu Hne Hrl Hlim Hblk Hfetch Hmsg Hu Huu Hp Ha Hm Hmu.
  cbv zeta.
  assert (pauseUnlessBlocked env = env) as Hpause.
  { unfold pauseUnlessBlocked, CheckAndBlock. rewrite Hrl, Hlim. cbn [negb].
    destruct (Z.ltb_spec (clock env) (BlockedUntil rl)); [|lia].
    destruct env; cbn in *. subst. reflexivity. }
  assert (hasPlaytimeIncreased env (AppId game) steamId (PlaytimeForever game)
          = true) as Hact.
  { unfold hasPlaytimeIncreased. fold userKey. rewrite Hu, Huu.
    apply Z.ltb_lt. exact Hp. }
  assert (collectAchievements randSource client steamId game username env
          = (Ok tt,
             report
               (mkEnv (Set_ (clock env) (cache env) userKey data
                            (2 * Minute + Intn randSource 180 (draws env) * Second))
                      (clock env) (S (draws env)) (rateLimit env) (reports env))
               (mkReport cached (Some globals) (GameName game) (AppId game)
                         steamId username))) as Hres.
  { unfold collectAchievements, loadGlobalAchievements.
    rewrite Hg, Hgu.
    destruct globals as [|g globals]; [congruence|].
    cbn [len length Nat.ltb Nat.leb Nat.eqb].
    rewrite Hact. cbn [negb]. rewrite Hpause, Hfetch.
    unfold cachedOnRateLimit. fold userKey. rewrite Hmsg, Hu, Huu, Ha.
    unfold cached at 1. cbn [len length Nat.ltb Nat.leb].
    fold cached. rewrite Hm. reflexivity. }
  rewrite Hres. cbn [fst snd report reports clock cache].
  split; [reflexivity|]. split; [reflexivity|]. split; [reflexivity|].
  split; [reflexivity|].
  unfold hasPlaytimeIncreased. cbn [clock cache]. fold userKey.
  unfold report. cbn [clock cache]. rewrite Get_Set_eq.
  pose proof (Intn_range randSource 180 (draws env) ltac:(lia)) as Hi.
  assert (0 < 2 * Minute + Intn randSource 180 (draws env) * Second) as Ht.
  { unfold Minute, Second in *. lia. }
  destruct (Z.leb_spec (2 * Minute + Intn randSource 180 (draws env) * Second) 0);
    [lia|].
  destruct (Z.ltb_spec (clock env)
              (clock env + (2 * Minute + Intn randSource 180 (draws env) * Second)));
    [|lia].
  cbn [orb]. rewrite Hmu. cbn [Playtime]. apply Z.ltb_irrefl.
Qed.

(** X22. Steam [IsActive] passes the error of the owned-games request
    on; otherwise it answers true exactly when some game with playtime
    counts as increased. Games never played are not looked at. *)
Theorem steam_activity_rule (env : Env) (steamId : string)
    (resp : result string (list OwnedGame)) :
  match resp with
  | Err e => IsActive env steamId resp = Err e
  | Ok games =>
      exists active,
        IsActive env steamId resp = Ok active
        /\ (active = true <->
            exists game,
              In game games
              /\ PlaytimeForever game <> 0
              /\ hasPlaytimeIncreased env (AppId game) steamId
                                      (PlaytimeForever game) = true)
  end.
Proof.
  destruct resp as [games|e]; [|reflexivity].
  exists (anyGameActive env steamId games). split; [reflexivity|].
  induction games as [|g games IH]; cbn [anyGameActive].
  - split; [discriminate | intros (g & [] & _)].
  - unfold shouldInvalidateUserCache.
    destruct (Z.eqb_spec (PlaytimeForever g) 0) as [Hz|Hz].
    + rewrite IH. split.
      * intros (g' & Hin & H). exists g'. split; [right; exact Hin | exact H].
      * intros (g' & [->|Hin] & Hnz & H); [contradiction|]. exists g'. auto.
    + destruct (hasPlaytimeIncreased env (AppId g) steamId (PlaytimeForever g)) eqn:Eh.
      * split; [|reflexivity]. intros _. exists g. split; [left; reflexivity|]. auto.
      * rewrite IH. split.
        -- intros (g' & Hin & H). exists g'. split; [right; exact Hin | exact H].
        -- intros (g' & [->|Hin] & Hnz & H); [congruence|]. exists g'. auto.
Qed.

Lemma collectGame_owned up steamId username limited games :
  forall s,
    ownedReports (fold_left (collectGame randSource up steamId username limited)
                            games s)
    = ownedReports s ++ map (fun game => (game, steamId, username)) games.
Proof.
  induction games as [|game games IH]; intros s; simpl.
  - rewrite app_nil_r. reflexivity.
  - rewrite IH. unfold collectGame.
    destruct limited; [|destruct (PlaytimeForever game =? 0)];
      cbn [ownedReports]; rewrite <- app_assoc; reflexivity.
Qed.






(** X24. When the owned games are there, [Collect] returns no error and
    reports the playtime of every game, in order, under the user name, or
    under the empty name when the name lookup failed; failures of the
    achievement collection do not show. *)
Theorem playtime_reported_for_every_game (up : Upstream) (steamId : string)
    (s : Session) (resp : OwnedGamesResponse) :
  let named := fst (getUsername randSource up steamId (base s)) in
  let env1 := snd (getUsername randSource up steamId (base s)) in
  let username := match named with Ok n => n | Err _ => ""%string end in
  fst (getOwnedGames up steamId env1) = Ok resp ->
  fst (Collect randSource up steamId s) = Ok tt
  /\ ownedReports (snd (Collect randSource up steamId s))
     = ownedReports s
       ++ map (fun game => (game, steamId, username)) (rangeOf (Games resp)).
Proof.
  cbv zeta. intros Hok. unfold Collect.
  destruct (getUsername randSource up steamId (base s)) as [named env1].
  cbn [fst snd] in *.
  destruct (getOwnedGames up steamId env1) as [answer env2].
  cbn [fst] in Hok. subst answer. cbn [resolveOwnedGames].
  destruct (checkRateLimited env2) as [limited env3].
  cbn [fst snd]. split; [reflexivity|].
  rewrite collectGame_owned. reflexivity.
Qed.

Lemma collectAchievements_reports client steamId game username env :
  exists new,
    reports (snd (collectAchievements randSource client steamId game username env))
    = reports env ++ new
    /\ forall r, In r new ->
         repAppId r = AppId game /\ repSteamId r = steamId
         /\ repUsername r = username /\ repGame r = GameName game.
Proof.
  assert (forall env' : Env, reports env' = reports env ->
            exists new, reports env' = reports env ++ new
              /\ forall r, In r new ->
                   repAppId r = AppId game /\ repSteamId r = steamId
                   /\ repUsername r = username /\ repGame r = GameName game)
    as Hnone.
  { intros env' H. exists []. rewrite app_nil_r.
    split; [exact H | intros ? []]. }
  assert (forall (env' : Env) user globals, reports env' = reports env ->
            exists new,
              reports (report env' (mkReport user globals (GameName game)
                                             (AppId game) steamId username))
              = reports env ++ new
              /\ forall r, In r new ->
                   repAppId r = AppId game /\ repSteamId r = steamId
                   /\ repUsername r = username /\ repGame r = GameName game)
    as Hone.
  { intros env' user globals H. eexists. unfold report. cbn [reports].
    rewrite H. split; [reflexivity|]. intros r [<-|[]]. repeat split. }
  unfold collectAchievements.
  pose proof (loadGlobalAchievements_reports client game env) as H1.
  destruct (loadGlobalAchievements randSource client game env) as [[globals|e] env1];
    cbn [snd] in H1; [|apply Hnone; exact H1].
  destruct (len globals =? 0)%nat; [apply Hnone; exact H1|].
  match goal with
  | |- context [if negb ?a then ?fromCache else None] =>
      destruct (if negb a then fromCache else None) as [cached|]
  end.
  { cbn [snd]. apply Hone. exact H1. }
  pose proof (pauseUnlessBlocked_reports env1) as H2.
  destruct (match GetUserStatsForGame client steamId (AppId game) with
            | Ok achievements => Ok achievements
            | Err msg => cachedOnRateLimit (pauseUnlessBlocked env1) _ msg
            end) as [fetched|e]; [|cbn [snd]; apply Hnone; congruence].
  cbn [snd]. apply Hone.
  destruct (Marshal (mkCacheEntry fetched (PlaytimeForever game))) as [data|];
    cbn [reports]; congruence.
Qed.

Lemma collectGame_reports (up : Upstream) (steamId : string)
    (username : string) (limited : bool) (games : list OwnedGame) (s : Session) :
  let s' := fold_left (collectGame randSource up steamId username limited)
                      games s in
  (exists new,
     reports (base s') = reports (base s) ++ new
     /\ forall r, In r new ->
          exists game,
            In game games
            /\ repAppId r = AppId game
            /\ repGame r = GameName game
            /\ repSteamId r = steamId
            /\ repUsername r = username
            /\ (limited = true \/ PlaytimeForever game <> 0))
  /\ (limited = false ->
      (forall game, In game games -> PlaytimeForever game = 0) ->
      base s' = base s).
Proof.
  cbv zeta. split.
  - revert s. induction games as [|game games IH]; intros s.
    + exists []. rewrite app_nil_r. split; [reflexivity | intros ? []].
    + cbn [fold_left].
      destruct (IH (collectGame randSource up steamId username limited s game))
        as (new2 & Hn2 & Hk2).
      assert (exists new1,
                reports (base (collectGame randSource up steamId username
                                           limited s game))
                = reports (base s) ++ new1
                /\ forall r, In r new1 ->
                     repAppId r = AppId game /\ repGame r = GameName game
                     /\ repSteamId r = steamId /\ repUsername r = username
                     /\ (limited = true \/ PlaytimeForever game <> 0))
        as (new1 & Hn1 & Hk1).
      { unfold collectGame.
        destruct (collectAchievements_reports (achievements up) steamId game
                    username (base s)) as (new & Hn & Hk).
        destruct limited.
        - cbn [base]. exists new. split; [exact Hn|]. intros r Hr.
          destruct (Hk r Hr) as (H1 & H2 & H3 & H4). auto 7.
        - destruct (Z.eqb_spec (PlaytimeForever game) 0) as [Hz|Hz].
          + cbn [base]. exists []. rewrite app_nil_r.
            split; [reflexivity | intros ? []].
          + cbn [base]. exists new. split; [exact Hn|]. intros r Hr.
            destruct (Hk r Hr) as (H1 & H2 & H3 & H4). auto 7. }
      exists (new1 ++ new2). rewrite Hn2, Hn1, <- app_assoc.
      split; [reflexivity|].
      intros r Hr. apply in_app_or in Hr. destruct Hr as [Hr|Hr].
      * exists game. split; [left; reflexivity|].
        destruct (Hk1 r Hr) as (H1 & H2 & H3 & H4 & H5). auto 7.
      * destruct (Hk2 r Hr) as (g' & Hin & H). exists g'.
        split; [right; exact Hin | exact H].
  - intros -> Hzero. revert s.
    induction games as [|game games IH]; intros s; [reflexivity|].
    cbn [fold_left]. rewrite IH.
    + unfold collectGame. rewrite (Hzero game (or_introl eq_refl)).
      reflexivity.
    + intros g' Hin. apply Hzero. right. exact Hin.
Qed.

Lemma getUsername_reports up steamId env :
  reports (snd (getUsername randSource up steamId env)) = reports env.
Proof.
  unfold getUsername.
  match goal with
  | |- context [match ?c with Some username => (Ok username, env) | None => _ end] =>
      destruct c as [cachedName|]
  end; [reflexivity|].
  destruct (GetPlayerSummaries up [steamId]) as [summaries|e]; [|reflexivity].
  destruct (rangeOf summaries) as [|first rest]; [reflexivity|].
  destruct (String.eqb (PersonaName first) ""); [reflexivity|].
  destruct (Marshal (PersonaName first)); reflexivity.
Qed.

Lemma getOwnedGames_reports up steamId env :
  reports (snd (getOwnedGames up steamId env)) = reports env.
Proof.
  unfold getOwnedGames.
  match goal with
  | |- context [match ?c with Some resp => (Ok resp, env) | None => _ end] =>
      destruct c as [cachedResp|]
  end; [reflexivity|].
  destruct (GetOwnedGames up steamId) as [resp|e]; [|reflexivity].
  destruct (Marshal resp); reflexivity.
Qed.

Lemma checkRateLimited_reports env :
  reports (snd (checkRateLimited env)) = reports env.
Proof.
  unfold checkRateLimited. destruct (rateLimit env) as [rl|]; [|reflexivity].
  destruct (CheckAndBlock (clock env) rl (cache env)) as [[blocked rl'] c'].
  reflexivity.
Qed.

(** X25. Every achievement report of [Collect] is for an owned game,
    and unless the limiter blocks, for one with playtime; with no played
    game and no block the achievement collection does nothing at all. *)
Theorem achievements_only_for_played_games (up : Upstream) (steamId : string)
    (s : Session) (resp : OwnedGamesResponse) :
  let named := fst (getUsername randSource up steamId (base s)) in
  let env1 := snd (getUsername randSource up steamId (base s)) in
  let username := match named with Ok n => n | Err _ => ""%string end in
  let env2 := snd (getOwnedGames up steamId env1) in
  let limited := fst (checkRateLimited env2) in
  let s' := snd (Collect randSource up steamId s) in
  fst (getOwnedGames up steamId env1) = Ok resp ->
  (exists new,
     reports (base s') = reports (base s) ++ new
     /\ forall r, In r new ->
          exists game,
            In game (rangeOf (Games resp))
            /\ repAppId r = AppId game
            /\ repGame r = GameName game
            /\ repSteamId r = steamId
            /\ repUsername r = username
            /\ (limited = true \/ PlaytimeForever game <> 0))
  /\ (limited = false ->
      (forall game, In game (rangeOf (Games resp)) -> PlaytimeForever game = 0) ->
      base s' = snd (checkRateLimited env2)).
Proof.
  cbv zeta. intros Hok.
  pose proof (getUsername_reports up steamId (base s)) as R1.
  pose proof (getOwnedGames_reports up steamId
                (snd (getUsername randSource up steamId (base s)))) as R2.
  pose proof (checkRateLimited_reports
                (snd (getOwnedGames up steamId
                        (snd (getUsername randSource up steamId (base s))))))
    as R3.
  unfold Collect.
  destruct (getUsername randSource up steamId (base s)) as [named env1].
  cbn [fst snd] in *.
  destruct (getOwnedGames up steamId env1) as [answer env2].
  cbn [fst snd] in *. subst answer. cbn [resolveOwnedGames].
  destruct (checkRateLimited env2) as [limited env3].
  cbn [fst snd] in *.
  pose proof (collectGame_reports up steamId
                (match named with Ok n => n | Err _ => ""%string end)
                limited (rangeOf (Games resp))
                (mkSession env3 (ownedReports s))) as H.
  cbv zeta in H. cbn [base] in H. destruct H as [(new & Hn & Hk) Hz].
  split.
  - exists new. split; [|exact Hk]. rewrite Hn. congruence.
  - exact Hz.
Qed.

(** X26. [getUsername] never returns an empty name without an error.
    It stores at most one entry, the name it returns, for 24 to 26 hours,
    and leaves the clock, the limiter and the reports alone. *)
Theorem username_lookup (up : Upstream) (steamId : string) (env : Env) :
  let r := getUsername randSource up steamId env in
  (forall username, fst r = Ok username -> username <> ""%string)
  /\ clock (snd r) = clock env
  /\ reports (snd r) = reports env
  /\ rateLimit (snd r) = rateLimit env
  /\ exists new,
       setCalls (cache (snd r)) = setCalls (cache env) ++ new
       /\ (length new <= 1)%nat
       /\ draws (snd r) = (draws env + length new)%nat
       /\ forall key item, In (key, item) new ->
            key = usernameKey steamId
            /\ storedAt item = clock env
            /\ 24 * Hour <= ttl item < 26 * Hour
            /\ exists username,
                 fst r = Ok username /\ Marshal username = Some (value item).
Proof.
  cbv zeta. unfold getUsername.
  assert (forall e : result string string,
            (forall username, e = Ok username -> username <> ""%string) ->
            (forall username, fst (e, env) = Ok username -> username <> ""%string)
            /\ clock (snd (e, env)) = clock env
            /\ reports (snd (e, env)) = reports env
            /\ rateLimit (snd (e, env)) = rateLimit env
            /\ exists new,
                 setCalls (cache (snd (e, env))) = setCalls (cache env) ++ new
                 /\ (length new <= 1)%nat
                 /\ draws (snd (e, env)) = (draws env + length new)%nat
                 /\ forall key item, In (key, item) new ->
                      key = usernameKey steamId
                      /\ storedAt item = clock env
                      /\ 24 * Hour <= ttl item < 26 * Hour
                      /\ exists username,
                           fst (e, env) = Ok username
                           /\ Marshal username = Some (value item)) as Hsame.
  { intros e He. cbn [fst snd]. split; [exact He|].
    split; [reflexivity|]. split; [reflexivity|]. split; [reflexivity|].
    exists []. rewrite app_nil_r. cbn [length].
    split; [reflexivity|]. split; [lia|]. split; [lia|]. intros ? ? []. }
  match goal with
  | |- context [match ?c with Some username => (Ok username, env) | None => _ end] =>
      destruct c as [cachedName|] eqn:Ec
  end.
  - apply Hsame. intros n Hn. inversion Hn; subst n.
    destruct (Get (clock env) (cache env) (usernameKey steamId)) as [d|];
      [|discriminate].
    destruct (Unmarshal d) as [n|]; [|discriminate].
    destruct (String.eqb_spec n "") as [E|E]; [discriminate|].
    cbn [negb] in Ec. inversion Ec; subst. exact E.
  - destruct (GetPlayerSummaries up [steamId]) as [summaries|e];
      [|apply Hsame; discriminate].
    destruct (rangeOf summaries) as [|first rest]; [apply Hsame; discriminate|].
    destruct (String.eqb_spec (PersonaName first) "") as [E|E];
      [apply Hsame; discriminate|].
    destruct (Marshal (PersonaName first)) as [data|] eqn:Em.
    + cbn [fst snd clock reports rateLimit cache draws].
      split; [intros n Hn; inversion Hn; subst; exact E|].
      split; [reflexivity|]. split; [reflexivity|]. split; [reflexivity|].
      eexists. split; [cbn [Set_ setCalls]; reflexivity|].
      cbn [length]. split; [lia|]. split; [lia|].
      intros key item [H|[]]. inversion H; subst. cbn [storedAt ttl value].
      split; [reflexivity|]. split; [reflexivity|]. split.
      * pose proof (Intn_range randSource 120 (draws env) ltac:(lia)).
        unfold Hour, Minute, Second in *. lia.
      * exists (PersonaName first). split; [reflexivity | exact Em].
    + apply Hsame. intros n Hn. inversion Hn; subst. exact E.
Qed.

End MoreCollector.

Lemma cached_game_needs_no_request_witness :
  collectAchievements (jsonState := stateJSON) (jsonEntry := entryJSON)
    (jsonGlobal := globalsJSON) (fun _ => 7) (failingClient "down") "7656"
    (mkOwnedGame 440 "game" 90) "name" (warmEnv 90 None)
  = (Ok tt,
     report (warmEnv 90 None)
       (mkReport (Some [mkAchievement "first" 1]) (Some sampleGlobals)
                 "game" 440 "7656" "name")).
Proof.
  apply (cached_game_needs_no_request (jsonState := stateJSON)
           (jsonEntry := entryJSON) (jsonGlobal := globalsJSON) (fun _ => 7)
           (failingClient "down") "7656" (mkOwnedGame 440 "game" 90) "name"
           (warmEnv 90 None)
           (bytesOf globalsJSON (Some sampleGlobals))
           (bytesOf entryJSON (sampleEntry 90))
           sampleGlobals (sampleEntry 90) [mkAchievement "first" 1]).
  - vm_compute. reflexivity.
  - vm_compute. reflexivity.
  - discriminate.
  - vm_compute. reflexivity.
  - vm_compute. reflexivity.
  - vm_compute. discriminate.
  - reflexivity.
Defined.

Lemma rate_limited_fetch_serves_cache_witness :
  let limiter := mkRateLimitState true (1 * Hour) 1 1 in
  let r :=
    collectAchievements (jsonState := stateJSON) (jsonEntry := entryJSON)
      (jsonGlobal := globalsJSON) (fun _ => 7)
      (failingClient "steam API rate limited - backoff period active") "7656"
      (mkOwnedGame 440 "game" 90) "name" (warmEnv 60 (Some limiter)) in
  fst r = Ok tt
  /\ reports (snd r)
     = [mkReport (Some [mkAchievement "first" 1]) (Some sampleGlobals)
                 "game" 440 "7656" "name"]
  /\ hasPlaytimeIncreased (jsonEntry := entryJSON) (snd r) 440 "7656" 90 = false.
Proof.
  cbv zeta.
  pose proof (rate_limited_fetch_serves_cache (jsonState := stateJSON)
           (jsonEntry := entryJSON) (jsonGlobal := globalsJSON) (fun _ => 7)
           (failingClient "steam API rate limited - backoff period active")
           "7656" (mkOwnedGame 440 "game" 90) "name"
           (warmEnv 60 (Some (mkRateLimitState true (1 * Hour) 1 1)))
           (mkRateLimitState true (1 * Hour) 1 1)
           "steam API rate limited - backoff period active"
           (bytesOf globalsJSON (Some sampleGlobals))
           (bytesOf entryJSON (sampleEntry 60))
           (bytesOf entryJSON (sampleEntry 90))
           sampleGlobals (sampleEntry 60) (mkAchievement "first" 1) []
           ltac:(vm_compute; reflexivity) ltac:(vm_compute; reflexivity)
           ltac:(discriminate) eq_refl eq_refl ltac:(vm_compute; reflexivity)
           eq_refl ltac:(vm_compute; reflexivity)
           ltac:(vm_compute; reflexivity) ltac:(vm_compute; reflexivity)
           ltac:(vm_compute; reflexivity) eq_refl
           ltac:(vm_compute; reflexivity) ltac:(vm_compute; reflexivity)) as H.
  cbv zeta in H. destruct H as (H1 & H2 & _ & _ & H5).
  split; [exact H1|]. split; [exact H2 | exact H5].
Defined.


Lemma playtime_reported_for_every_game_witness :
  let r := Collect (jsonState := stateJSON) (jsonEntry := entryJSON)
             (jsonGlobal := globalsJSON) (jsonOwned := ownedJSON)
             (jsonName := nameJSON) (fun _ => 7) sampleUpstream "7656"
             freshSession in
  fst r = Ok tt
  /\ ownedReports (snd r)
     = [(mkOwnedGame 440 "game" 90, "7656", "name");
        (mkOwnedGame 570 "other" 0, "7656", "name")]%string.
Proof.
  exact (playtime_reported_for_every_game (jsonState := stateJSON)
           (jsonEntry := entryJSON) (jsonGlobal := globalsJSON)
           (jsonOwned := ownedJSON) (jsonName := nameJSON) (fun _ => 7)
           sampleUpstream "7656" freshSession sampleLibrary eq_refl).
Defined.

Lemma achievements_only_for_played_games_witness :
  let s' := snd (Collect (jsonState := stateJSON) (jsonEntry := entryJSON)
                   (jsonGlobal := globalsJSON) (jsonOwned := ownedJSON)
                   (jsonName := nameJSON) (fun _ => 7) sampleUpstream "7656"
                   freshSession) in
  exists new,
    reports (base s') = [] ++ new
    /\ forall r, In r new -> repAppId r = 440.
Proof.
  destruct (achievements_only_for_played_games (jsonState := stateJSON)
              (jsonEntry := entryJSON) (jsonGlobal := globalsJSON)
              (jsonOwned := ownedJSON) (jsonName := nameJSON) (fun _ => 7)
              sampleUpstream "7656" freshSession sampleLibrary eq_refl)
    as [(new & Hnew & Hall) _].
  exists new. split; [exact Hnew|].
  intros r Hr. destruct (Hall r Hr) as (game & Hin & Hid & _ & _ & _ & Hplayed).
  destruct Hin as [<-|[<-|[]]]; [exact Hid|].
  destruct Hplayed as [Hl|Hp]; [discriminate Hl | contradiction Hp; reflexivity].
Defined.

End CollectorMore.

(** ** Loops that set gauges, and the Steam gauges *)

Module GaugeLoops.

Section GaugeLoopMore.
Context {G A V : Type} {K : Type} `{Countable K}.
Variable step : G -> A -> G.
Variable gauge : G -> gmap K V.
Variable key : A -> K.
Variable val : A -> V.
Variable cond : A -> bool.
Hypothesis step_gauge :
  forall g a,
    gauge (step g a) = if cond a then <[key a := val a]> (gauge g) else gauge g.

Lemma gauge_stays l :
  forall g k, (forall a, In a l -> cond a = true -> key a <> k) ->
    gauge (fold_left step l g) !! k = gauge g !! k.
Proof.
  induction l as [|a l IH]; intros g k Hk; simpl; [reflexivity|].
  rewrite IH by (intros b Hb; apply Hk; right; exact Hb).
  rewrite step_gauge. destruct (cond a) eqn:Ec; [|reflexivity].
  rewrite lookup_insert_ne; [reflexivity|].
  apply Hk; [left; reflexivity | exact Ec].
Qed.

Lemma gauge_last l :
  (forall a b, In a l -> In b l -> cond a = true -> cond b = true ->
     key a = key b -> val a = val b) ->
  forall g a, In a l -> cond a = true ->
    gauge (fold_left step l g) !! key a = Some (val a).
Proof.
  induction l as [|b l IH]; intros Hcons g a Hin Hc; [destruct Hin|].
  simpl.
  destruct (in_dec (fun x y => decide (x = y)) (key a)
                   (map key (List.filter cond l))) as [Hl|Hl].
  - apply in_map_iff in Hl. destruct Hl as (c & Hkc & Hcf).
    apply filter_In in Hcf. destruct Hcf as [Hcl Hcc].
    rewrite <- Hkc.
    rewrite (Hcons a c Hin (or_intror Hcl) Hc Hcc (eq_sym Hkc)).
    apply IH; [|exact Hcl|exact Hcc].
    intros x y Hx Hy. apply Hcons; right; assumption.
  - destruct Hin as [->|Hin].
    + rewrite gauge_stays.
      * rewrite step_gauge, Hc. apply lookup_insert_eq.
      * intros c Hcl Hcc He. apply Hl. rewrite <- He. apply in_map.
        apply filter_In. split; assumption.
    + exfalso. apply Hl. apply in_map. apply filter_In. split; assumption.
Qed.

Lemma gauge_size l :
  List.NoDup (map key l) ->
  forall g, (forall a, In a l -> gauge g !! key a = None) ->
    size (gauge (fold_left step l g))
    = (size (gauge g) + length (List.filter cond l))%nat.
Proof.
  induction l as [|a l IH]; intros Hnd g Hfresh; simpl; [lia|].
  inversion Hnd as [|? ? Hna Hnd']; subst.
  rewrite IH; [|exact Hnd'|].
  - rewrite step_gauge. destruct (cond a); [|reflexivity].
    rewrite map_size_insert_None; [simpl; lia|].
    apply Hfresh. left. reflexivity.
  - intros b Hb. rewrite step_gauge.
    destruct (cond a); [|apply Hfresh; right; exact Hb].
    rewrite lookup_insert_ne.
    + apply Hfresh. right. exact Hb.
    + intros He. apply Hna. rewrite He. apply in_map. exact Hb.
Qed.

End GaugeLoopMore.

End GaugeLoops.

Module ReportFacts.
Import Cache Steam SteamReport GaugeLoops ReportTerms.

Section ReportFacts.
Context {float64 : Type}.
Variable ofInt : Z -> float64.

Lemma userAchievementMap_origin l :
  forall (m : gmap string Z) n v,
    fold_left (fun m a => <[AchName a := Achieved a]> m) l m !! n = Some v ->
    m !! n = Some v \/ exists a, In a l /\ AchName a = n /\ Achieved a = v.
Proof.
  induction l as [|a l IH]; intros m n v Hn; simpl in Hn; [left; exact Hn|].
  apply IH in Hn. destruct Hn as [Hn|(b & Hin & Hb)].
  - destruct (decide (AchName a = n)) as [E|E].
    + subst n. rewrite lookup_insert_eq in Hn. inversion Hn.
      right. exists a. split; [left; reflexivity|]. split; reflexivity.
    + rewrite lookup_insert_ne in Hn by exact E. left. exact Hn.
  - right. exists b. split; [right; exact Hin | exact Hb].
Qed.

Lemma achievementLabels_name gameName appId userId username n n' a a' :
  achievementLabels gameName appId userId username n a
  = achievementLabels gameName appId userId username n' a' ->
  n = n' /\ achievedLabel a = achievedLabel a'.
Proof. unfold achievementLabels. intros H. inversion H. split; reflexivity. Qed.

Lemma ReportAchievements_listed
    (userAchievements : slice Achievement)
    (globalAchievements : slice GlobalAchievement) (gameName : string)
    (appId : Z) (userId username : string) (g : Gauges) (a : GlobalAchievement) :
  let m := userAchievementMap userAchievements in
  In a (rangeOf globalAchievements) ->
  achievementGauge (ReportAchievements ofInt userAchievements globalAchievements
                      gameName appId userId username g)
    !! achievementLabels gameName appId userId username (GlobalName a)
                         (achievedOf m a)
  = Some (ofInt (achievedOf m a)).
Proof.
  cbv zeta. intros Hin. unfold ReportAchievements.
  set (m := userAchievementMap userAchievements).
  set (step := reportAchievement ofInt m gameName appId userId username).
  set (key := fun a => achievementLabels gameName appId userId username
                         (GlobalName a) (achievedOf m a)).
  set (val := fun a => ofInt (achievedOf m a)).
  apply (gauge_last step achievementGauge key val (fun _ => true));
    [| |exact Hin|reflexivity].
  - intros g0 x. reflexivity.
  - intros x y _ _ _ _ Hk. unfold key in Hk.
    apply achievementLabels_name in Hk. destruct Hk as [Hn _].
    unfold val, achievedOf. rewrite Hn. reflexivity.
Qed.

Lemma lastNamed_snoc l name u v :
  lastNamed l name u -> AchName v <> name -> lastNamed (l ++ [v]) name u.
Proof.
  intros (before & after & Hl & Hn & Hafter) Hv.
  exists before, (after ++ [v]). split; [|split; [exact Hn|]].
  - rewrite Hl, <- app_assoc. reflexivity.
  - intros w Hw. apply in_app_iff in Hw. destruct Hw as [Hw|[<-|[]]].
    + apply Hafter, Hw.
    + exact Hv.
Qed.

Lemma userAchievementMap_last (l : list Achievement) (name : string) :
  let m := fold_left (fun m a => <[AchName a := Achieved a]> m) l
                     (∅ : gmap string Z) in
  (exists u, lastNamed l name u /\ m !! name = Some (Achieved u))
  \/ ((forall u, In u l -> AchName u <> name) /\ m !! name = None).
Proof.
  cbv zeta. induction l as [|v l IH] using rev_ind.
  - right. split; [intros u []|]. simpl. apply lookup_empty.
  - rewrite fold_left_app. cbn [fold_left].
    destruct (decide (AchName v = name)) as [E|E].
    + left. exists v. split.
      * exists l, []. split; [reflexivity|]. split; [exact E | intros w []].
      * rewrite <- E. apply lookup_insert_eq.
    + rewrite lookup_insert_ne by exact E.
      destruct IH as [(u & Hlast & Hm)|[Hnone Hm]].
      * left. exists u. split; [apply lastNamed_snoc; assumption | exact Hm].
      * right. split; [|exact Hm].
        intros w Hw. apply in_app_iff in Hw. destruct Hw as [Hw|[<-|[]]].
        -- apply Hnone, Hw.
        -- exact E.
Qed.

Lemma achievedOf_earned (userAchievements : slice Achievement)
    (a : GlobalAchievement) :
  earned (rangeOf userAchievements) (GlobalName a)
         (achievedOf (userAchievementMap userAchievements) a).
Proof.
  unfold achievedOf, userAchievementMap, earned.
  destruct (userAchievementMap_last (rangeOf userAchievements) (GlobalName a))
    as [(u & Hlast & Hm)|[Hnone Hm]]; cbv zeta in Hm; rewrite Hm.
  - left. exists u. split; [exact Hlast | reflexivity].
  - right. split; [exact Hnone | reflexivity].
Qed.

(** The list says one thing only of a name. *)
Lemma earned_functional l name v v' :
  earned l name v -> earned l name v' -> v = v'.
Proof.
  assert (forall u u', lastNamed l name u -> lastNamed l name u' -> u = u') as Hlast.
  { intros u u' (b & a & Hl & Hn & Ha) (b' & a' & Hl' & Hn' & Ha').
    rewrite Hl in Hl'. clear Hl. revert b' Hl'.
    induction b as [|x b IH]; intros b' Hl'.
    - destruct b' as [|x' b']; cbn [app] in Hl'.
      + inversion Hl'. reflexivity.
      + inversion Hl' as [[Hx Hrest]]. exfalso. apply (Ha u'); [|exact Hn'].
        rewrite Hrest. apply in_app_iff. right. left. reflexivity.
    - destruct b' as [|x' b']; cbn [app] in Hl'.
      + inversion Hl' as [[Hx Hrest]]. exfalso. apply (Ha' u); [|exact Hn].
        rewrite <- Hrest. apply in_app_iff. right. left. reflexivity.
      + inversion Hl' as [[Hx Hrest]]. apply (IH b' Hrest). }
  intros [(u & Hu & ->)|[Hnone ->]] [(u' & Hu' & ->)|[Hnone' ->]].
  - rewrite (Hlast u u' Hu Hu'). reflexivity.
  - exfalso. destruct Hu as (b & a & Hl & Hn & _). apply (Hnone' u); [|exact Hn].
    rewrite Hl. apply in_app_iff. right. left. reflexivity.
  - exfalso. destruct Hu' as (b & a & Hl & Hn & _). apply (Hnone u'); [|exact Hn].
    rewrite Hl. apply in_app_iff. right. left. reflexivity.
  - reflexivity.
Qed.

(** X27. [ReportAchievements] leaves the playtime gauge alone and gives
    every achievement of the global list a series under its name whose
    value is what the user's list says of that name -- the achieved value
    of the last entry with that name, 0 when no entry has it -- labelled
    achieved="true" when that value is 1 and "false" otherwise. Every
    other series was there before; achievements only the user's list names
    get none. *)
Theorem every_listed_achievement_gets_a_series
    (userAchievements : slice Achievement)
    (globalAchievements : slice GlobalAchievement) (gameName : string)
    (appId : Z) (userId username : string) (g : Gauges) :
  let series := fun (name : string) (value : Z) =>
    (Strconv.FormatUint appId, gameName, name, userId, username,
     if (value =? 1)%Z then "true"%string else "false"%string) in
  let g' := ReportAchievements ofInt userAchievements globalAchievements
                               gameName appId userId username g in
  ownedGamePlaytimeGauge g' = ownedGamePlaytimeGauge g
  /\ (forall a, In a (rangeOf globalAchievements) ->
        exists value,
          earned (rangeOf userAchievements) (GlobalName a) value
          /\ achievementGauge g' !! series (GlobalName a) value
             = Some (ofInt value))
  /\ (forall k v, achievementGauge g' !! k = Some v ->
        achievementGauge g !! k = Some v
        \/ exists a value,
             In a (rangeOf globalAchievements)
             /\ earned (rangeOf userAchievements) (GlobalName a) value
             /\ k = series (GlobalName a) value /\ v = ofInt value).
Proof.
  cbv zeta. unfold ReportAchievements.
  set (m := userAchievementMap userAchievements).
  set (step := reportAchievement ofInt m gameName appId userId username).
  set (key := fun a => achievementLabels gameName appId userId username
                         (GlobalName a) (achievedOf m a)).
  set (val := fun a => ofInt (achievedOf m a)).
  assert (forall g a, achievementGauge (step g a)
                      = <[key a := val a]> (achievementGauge g)) as Hstep.
  { intros g0 a. reflexivity. }
  split; [|split].
  - generalize g. induction (rangeOf globalAchievements) as [|a l IH]; intros g0;
      [reflexivity|]. simpl. rewrite IH. reflexivity.
  - intros a Hin. exists (achievedOf m a).
    split; [apply achievedOf_earned|].
    exact (ReportAchievements_listed userAchievements globalAchievements
             gameName appId userId username g a Hin).
  - intros k v Hk.
    destruct (OsrsFacts.gauge_origin step achievementGauge key val
                (fun _ => true) Hstep _ _ _ _ Hk) as [H0|(a & Hin & _ & Hka & Hv)].
    + left. exact H0.
    + right. exists a, (achievedOf m a). split; [exact Hin|].
      split; [apply achievedOf_earned|]. split; assumption.
Qed.

(** X28. [ReportAchievements] never removes a series: once an
    achievement reported as not achieved is reported as achieved, the gauge
    holds both the old series labelled "false", still 0, and the new one
    labelled "true". *)
Theorem unlocking_leaves_the_false_series
    (before after : slice Achievement)
    (globalAchievements : slice GlobalAchievement) (gameName : string)
    (appId : Z) (userId username : string) (g : Gauges)
    (a : GlobalAchievement) :
  In a (rangeOf globalAchievements) ->
  achievedOf (userAchievementMap before) a = 0 ->
  achievedOf (userAchievementMap after) a = 1 ->
  let g1 := ReportAchievements ofInt before globalAchievements gameName appId
                               userId username g in
  let g2 := ReportAchievements ofInt after globalAchievements gameName appId
                               userId username g1 in
  let series := fun label =>
    (Strconv.FormatUint appId, gameName, GlobalName a, userId, username, label) in
  achievementGauge g2 !! series "false"%string = Some (ofInt 0)
  /\ achievementGauge g2 !! series "true"%string = Some (ofInt 1).
Proof.
  intros Hin H0 H1. cbv zeta.
  pose proof (ReportAchievements_listed before globalAchievements
                gameName appId userId username g a Hin) as Hb.
  cbv zeta in Hb. rewrite H0 in Hb.
  set (g1 := ReportAchievements ofInt before globalAchievements gameName appId
                                userId username g) in *.
  pose proof (ReportAchievements_listed after globalAchievements
                gameName appId userId username g1 a Hin) as Ha.
  cbv zeta in Ha. rewrite H1 in Ha.
  split; [|exact Ha].
  unfold ReportAchievements.
  set (m := userAchievementMap after) in *.
  set (step := reportAchievement ofInt m gameName appId userId username).
  set (key := fun a => achievementLabels gameName appId userId username
                         (GlobalName a) (achievedOf m a)).
  set (val := fun a => ofInt (achievedOf m a)).
  rewrite (gauge_stays step achievementGauge key val (fun _ => true)).
  - exact Hb.
  - intros g0 x. reflexivity.
  - intros x _ _ Hk. unfold key, achievementLabels in Hk. inversion Hk as [[Hn Hl]].
    assert (achievedOf m x = achievedOf m a) as He.
    { unfold achievedOf. rewrite Hn. reflexivity. }
    rewrite He, H1 in Hl. discriminate Hl.
Qed.

End ReportFacts.

Lemma unlocking_leaves_the_false_series_witness :
  let globals := Some [mkGlobalAchievement "first" "50.0"] in
  let g1 := ReportAchievements (float64 := Z) id None globals "game" 440
                               "7656" "name" (mkGauges ∅ ∅) in
  let g2 := ReportAchievements id (Some [mkAchievement "first" 1]) globals
                               "game" 440 "7656" "name" g1 in
  achievementGauge g2 !! ("440", "game", "first", "7656", "name", "false")%string
  = Some 0
  /\ achievementGauge g2 !! ("440", "game", "first", "7656", "name", "true")%string
     = Some 1.
Proof.
  exact (unlocking_leaves_the_false_series (float64 := Z) id None
           (Some [mkAchievement "first" 1])
           (Some [mkGlobalAchievement "first" "50.0"]) "game" 440 "7656" "name"
           (mkGauges ∅ ∅) (mkGlobalAchievement "first" "50.0")
           (or_introl eq_refl) eq_refl eq_refl).
Defined.

End ReportFacts.

(** ** More about the OSRS client and collector *)

Module OsrsMore.
Import Cache Wire Osrs WireFormat Scenarios DecoderFacts OsrsFacts OsrsCollect.
Import Steam(slice, len).
Import SteamReport(rangeOf).
Import Codecs CodecFacts OsrsTerms GaugeLoops Samples.

Lemma xpStep_snd last stats :
  forall b m,
    snd (fold_left (xpStep last) stats (b, m))
    = fold_left (fun m s => <[Name s := xpOf s]> m) stats m.
Proof.
  induction stats as [|s stats IH]; intros b m; [reflexivity|].
  cbn [fold_left]. unfold xpStep at 2. fold (xpOf s).
  destruct (last !! Name s); apply IH.
Qed.

Lemma xpStep_fst last stats :
  forall b m,
    fst (fold_left (xpStep last) stats (b, m)) = true
    <-> b = true
        \/ exists s v, In s stats /\ last !! Name s = Some v /\ v < xpOf s.
Proof.
  induction stats as [|s stats IH]; intros b m.
  - cbn. split; [auto | intros [H|(s & v & [] & _)]; exact H].
  - cbn [fold_left]. unfold xpStep at 2. fold (xpOf s).
    destruct (last !! Name s) as [v|] eqn:El.
    + rewrite IH. destruct (Z.ltb_spec v (xpOf s)) as [Hlt|Hge].
      * split; [|auto]. intros _. right. exists s, v. split; [left; reflexivity|]. auto.
      * split.
        -- intros [H|(s' & v' & Hin & H)]; [auto|].
           right. exists s', v'. split; [right; exact Hin | exact H].
        -- intros [H|(s' & v' & [->|Hin] & Hl & Hv)]; [auto| |].
           ++ rewrite El in Hl. inversion Hl; subst. lia.
           ++ right. exists s', v'. auto.
    + rewrite IH. split.
      * intros [H|(s' & v' & Hin & H)]; [auto|].
        right. exists s', v'. split; [right; exact Hin | exact H].
      * intros [H|(s' & v' & [->|Hin] & Hl & Hv)]; [auto| |].
        -- rewrite El in Hl. discriminate.
        -- right. exists s', v'. auto.
Qed.

Lemma fold_insert_lookup stats :
  forall (m : gmap string Z) n v,
    fold_left (fun m s => <[Name s := xpOf s]> m) stats m !! n = Some v ->
    m !! n = Some v \/ exists s, In s stats /\ Name s = n /\ xpOf s = v.
Proof.
  induction stats as [|s stats IH]; intros m n v H; [left; exact H|].
  cbn [fold_left] in H. apply IH in H. destruct H as [H|(s' & Hin & H)].
  - destruct (decide (Name s = n)) as [He|Hne].
    + subst n. rewrite lookup_insert_eq in H. inversion H.
      right. exists s. split; [left; reflexivity|]. auto.
    + rewrite lookup_insert_ne in H by exact Hne. left. exact H.
  - right. exists s'. split; [right; exact Hin | exact H].
Qed.

Lemma fold_insert_keep stats :
  forall (m : gmap string Z) n v,
    m !! n = Some v -> ~ In n (map Name stats) ->
    fold_left (fun m s => <[Name s := xpOf s]> m) stats m !! n = Some v.
Proof.
  induction stats as [|s stats IH]; intros m n v H Hn; [exact H|].
  cbn [fold_left]. apply IH.
  - rewrite lookup_insert_ne; [exact H|]. intros He. apply Hn. left. exact He.
  - intros Hin. apply Hn. right. exact Hin.
Qed.

Lemma snapshot_fold stats :
  snapshot stats = fold_left (fun m s => <[Name s := xpOf s]> m) stats ∅.
Proof. apply xpStep_snd. Qed.

Lemma snapshot_NoDup stats :
  List.NoDup (map Name stats) ->
  forall s, In s stats -> snapshot stats !! Name s = Some (xpOf s).
Proof.
  rewrite snapshot_fold. generalize (∅ : gmap string Z).
  induction stats as [|s0 stats IH]; intros m Hnd s Hin; [destruct Hin|].
  cbn [map] in Hnd. inversion Hnd as [|? ? Hfresh Hnd']; subst.
  cbn [fold_left]. destruct Hin as [->|Hin].
  - apply fold_insert_keep; [apply lookup_insert_eq | exact Hfresh].
  - apply IH; assumption.
Qed.

Section MoreActivity.
Context {jsonXP : JSON (gmap string Z)}.

Lemma IsActive_store now rsn stats c :
  snd (IsActive now rsn stats c)
  = storeXP now c ("osrs:last_xp:" ++ rsn)%string (snapshot stats).
Proof.
  unfold IsActive.
  match goal with
  | |- context [(size ?l =? 0)%nat] => set (lastXP := l)
  end.
  destruct (size lastXP =? 0)%nat; [reflexivity|].
  pose proof (xpStep_snd lastXP stats false ∅) as H.
  destruct (fold_left (xpStep lastXP) stats (false, ∅)) as [a cur].
  cbn [snd] in *. rewrite H, snapshot_fold. reflexivity.
Qed.

(** X14. OSRS [IsActive] answers false when nothing is stored. Each call
    stores the experience of the skills it saw for 24 hours; with a codec
    that loses nothing, the next call within that time answers true exactly
    when some skill has more experience than was stored under its name,
    and a call after it answers false. *)
Theorem activity_compares_with_last_look (now1 now2 : Z) (rsn : string)
    (stats1 stats2 : list SkillInfo) (c : Cache) :
  faithful jsonXP ->
  let first := IsActive now1 rsn stats1 c in
  let second := IsActive now2 rsn stats2 (snd first) in
  (Get now1 c ("osrs:last_xp:" ++ rsn)%string = None -> fst first = false)
  /\ (now2 < now1 + 24 * Hour ->
      (fst second = true <->
       exists s v, In s stats2 /\ snapshot stats1 !! Name s = Some v
                   /\ v < xpOf s))
  /\ (now1 + 24 * Hour <= now2 -> fst second = false)
  /\ (forall n v, snapshot stats1 !! n = Some v ->
        exists s, In s stats1 /\ Name s = n /\ xpOf s = v)
  /\ (List.NoDup (map Name stats1) ->
      forall s, In s stats1 -> snapshot stats1 !! Name s = Some (xpOf s)).
Proof.
  intros Hf. cbv zeta.
  set (key := ("osrs:last_xp:" ++ rsn)%string).
  split; [|split; [|split; [|split]]].
  - intros Hg. unfold IsActive. fold key. rewrite Hg.
    rewrite map_size_empty. reflexivity.
  - intros Hlive. rewrite IsActive_store. fold key.
    destruct (Hf (snapshot stats1)) as (data & Hm & Hu).
    unfold storeXP. rewrite Hm. unfold IsActive. fold key.
    rewrite Get_Set_eq.
    assert (0 < Hour) as HH by reflexivity.
    destruct (Z.leb_spec (24 * Hour) 0) as [Hle|Hle]; [lia|].
    destruct (Z.ltb_spec now2 (now1 + 24 * Hour)) as [Hlt|Hlt]; [|lia].
    cbn [orb]. rewrite Hu.
    destruct (size (snapshot stats1) =? 0)%nat eqn:Es.
    + apply Nat.eqb_eq in Es. apply map_size_empty_iff in Es.
      cbn [fst]. split; [discriminate|].
      intros (s & v & _ & Hl & _). rewrite Es, lookup_empty in Hl. discriminate.
    + pose proof (xpStep_fst (snapshot stats1) stats2 false ∅) as Hx.
      destruct (fold_left (xpStep (snapshot stats1)) stats2 (false, ∅)) as [a cur].
      cbn [fst] in *. rewrite Hx. split; [|auto].
      intros [Hb|Hb]; [discriminate | exact Hb].
  - intros Hgone. rewrite IsActive_store. fold key.
    destruct (Hf (snapshot stats1)) as (data & Hm & Hu).
    unfold storeXP. rewrite Hm. unfold IsActive. fold key.
    rewrite Get_Set_eq.
    assert (0 < Hour) as HH by reflexivity.
    destruct (Z.leb_spec (24 * Hour) 0) as [Hle|Hle]; [lia|].
    destruct (Z.ltb_spec now2 (now1 + 24 * Hour)) as [Hlt|Hlt]; [lia|].
    cbn [orb]. rewrite map_size_empty. reflexivity.
  - intros n v H. rewrite snapshot_fold in H.
    apply fold_insert_lookup in H. destruct H as [H|H]; [|exact H].
    rewrite lookup_empty in H. discriminate.
  - apply snapshot_NoDup.
Qed.

End MoreActivity.

Lemma Split_nonempty s sep : Split s sep <> [].
Proof.
  destruct s as [|c s]; cbn; [discriminate|].
  destruct (Ascii.eqb c sep); [discriminate|].
  destruct (Split s sep); discriminate.
Qed.

Lemma Split_no_sep sep :
  forall s part, In part (Split s sep) -> occurs sep part = false.
Proof.
  induction s as [|c s IH]; intros part Hin; cbn in Hin.
  - destruct Hin as [<-|[]]. reflexivity.
  - destruct (Ascii.eqb c sep) eqn:Ec.
    + destruct Hin as [<-|Hin]; [reflexivity | apply IH; exact Hin].
    + pose proof (Split_nonempty s sep) as Hne.
      destruct (Split s sep) as [|p ps]; [contradiction|].
      destruct Hin as [<-|Hin].
      * cbn. rewrite Ec. apply IH. left. reflexivity.
      * apply IH. right. exact Hin.
Qed.

Lemma Split_Join sep :
  forall s, Join (Split s sep) sep = s.
Proof.
  induction s as [|ch s IH]; [reflexivity|].
  cbn [Split].
  pose proof (Split_nonempty s sep) as Hnon.
  destruct (Ascii.eqb_spec ch sep) as [->|Hne].
  - destruct (Split s sep) as [|p ps]; [contradiction|].
    change (Join ("" :: p :: ps) sep) with (String sep (Join (p :: ps) sep)).
    rewrite IH. reflexivity.
  - destruct (Split s sep) as [|p ps]; [contradiction|].
    destruct ps as [|q ps].
    + cbn in *. rewrite IH. reflexivity.
    + change (Join (String ch p :: q :: ps) sep)
        with (String ch (Join (p :: q :: ps) sep)).
      rewrite IH. reflexivity.
Qed.

Lemma Split_three s sep a b c :
  Split s sep = [a; b; c] ->
  s = (a ++ String sep (b ++ String sep c))%string.
Proof.
  intros H. rewrite <- (Split_Join sep s), H. reflexivity.
Qed.

Section ParseFacts.
Variable TrimSpace : string -> string.

Lemma Skills_NoDup : NoDup Skills.
Proof. apply (bool_decide_unpack _). vm_compute. reflexivity. Qed.

Lemma take_step (i : nat) : sublist (take i Skills) (take (S i) Skills).
Proof.
  destruct (Skills !! i) as [name|] eqn:E.
  - rewrite (take_S_r _ _ _ E). apply sublist_inserts_r. reflexivity.
  - apply lookup_ge_None in E. rewrite !take_ge by lia. reflexivity.
Qed.

Lemma parseLines_sound rsn lines :
  forall i skills,
    sublist (map Name (rangeOf skills)) (take i Skills) ->
    let out := rangeOf (parseLines TrimSpace rsn i lines skills) in
    sublist (map Name out) Skills
    /\ forall s, In s out ->
         In s (rangeOf skills)
         \/ (Player s = rsn /\ Profile s = PlayerProfileStandard
             /\ exists k line,
                  lines !! k = Some line
                  /\ Skills !! (i + k)%nat = Some (Name s)
                  /\ Split (TrimSpace line) comma = [Rank s; Level s; XP s]).
Proof.
  induction lines as [|line lines IH]; intros i skills Hsub; cbv zeta.
  - cbn [parseLines]. split; [|auto].
    etransitivity; [exact Hsub | apply sublist_take].
  - assert (let out := rangeOf (parseLines TrimSpace rsn (S i) lines skills) in
            sublist (map Name out) Skills
            /\ forall s, In s out ->
                 In s (rangeOf skills)
                 \/ (Player s = rsn /\ Profile s = PlayerProfileStandard
                     /\ exists k l,
                          (line :: lines) !! k = Some l
                          /\ Skills !! (i + k)%nat = Some (Name s)
                          /\ Split (TrimSpace l) comma = [Rank s; Level s; XP s]))
      as Hskip.
    { destruct (IH (S i) skills) as [H1 H2].
      - etransitivity; [exact Hsub | apply take_step].
      - cbv zeta. split; [exact H1|]. intros s Hs.
        destruct (H2 s Hs) as [H|(Hp & Hf & k & l & Hl & Hk & Hsp)];
          [left; exact H|].
        right. split; [exact Hp|]. split; [exact Hf|].
        exists (S k), l. split; [exact Hl|]. split; [|exact Hsp].
        rewrite <- Hk. f_equal. lia. }
    cbn [parseLines].
    destruct (String.eqb (TrimSpace line) ""); [exact Hskip|].
    destruct (Split (TrimSpace line) comma) as [|rank [|level [|xp [|extra parts]]]]
      eqn:Esplit; try exact Hskip.
    destruct (Skills !! i) as [name|] eqn:Ename.
    + set (skill := mkSkillInfo rank level xp name rsn PlayerProfileStandard).
      destruct (IH (S i) (Some (rangeOf skills ++ [skill]))) as [H1 H2].
      * cbn [rangeOf]. rewrite map_app, (take_S_r _ _ _ Ename). cbn [map].
        apply sublist_app; [exact Hsub | reflexivity].
      * split; [exact H1|]. intros s Hs.
        destruct (H2 s Hs) as [H|(Hp & Hf & k & l & Hl & Hk & Hsp)].
        -- cbn [rangeOf] in H. apply in_app_or in H.
           destruct H as [H|[<-|[]]]; [left; exact H|].
           right. split; [reflexivity|]. split; [reflexivity|].
           exists 0%nat, line. split; [reflexivity|].
           rewrite Nat.add_0_r. split; [exact Ename | exact Esplit].
        -- right. split; [exact Hp|]. split; [exact Hf|].
           exists (S k), l. split; [exact Hl|]. split; [|exact Hsp].
           rewrite <- Hk. f_equal. lia.
    + split.
      * etransitivity; [exact Hsub | apply sublist_take].
      * intros s Hs. left. exact Hs.
Qed.

(** X9. The skills [GetPlayerStats] parses out of a 200 answer carry
    the player name and the standard profile; the skill of a line is named
    by the index of that line among all lines of the body, blank and
    malformed ones included, so the names follow the order of the skill
    table, never repeat and are at most 25; rank, level and experience are
    the three comma-free parts of the trimmed line. *)
Theorem parsed_skills_follow_the_skill_table (rsn body : string) :
  let lines := Split body newline in
  let out := rangeOf (parseLines TrimSpace rsn 0 lines None) in
  GetPlayerStats TrimSpace rsn (Responded 200 (Ok body))
  = Ok (parseLines TrimSpace rsn 0 lines None)
  /\ sublist (map Name out) Skills
  /\ List.NoDup (map Name out)
  /\ (length out <= 25)%nat
  /\ forall s, In s out ->
       Player s = rsn
       /\ Profile s = "Standard"%string
       /\ occurs comma (Rank s) = false
       /\ occurs comma (Level s) = false
       /\ occurs comma (XP s) = false
       /\ exists k line,
            lines !! k = Some line
            /\ Skills !! k = Some (Name s)
            /\ TrimSpace line
               = (Rank s ++ "," ++ Level s ++ "," ++ XP s)%string.
Proof.
  cbv zeta.
  destruct (parseLines_sound rsn (Split body newline) 0 None) as [Hsub Hin].
  { cbn. constructor. }
  cbv zeta in Hsub, Hin.
  split; [reflexivity|]. split; [exact Hsub|]. split; [|split].
  - apply NoDup_ListNoDup.
    eapply sublist_NoDup; [apply Skills_NoDup | exact Hsub].
  - apply sublist_length in Hsub. rewrite length_map in Hsub.
    exact Hsub.
  - intros s Hs.
    destruct (Hin s Hs) as [[]|(Hp & Hf & k & line & Hl & Hk & Hsp)].
    split; [exact Hp|]. split; [exact Hf|].
    pose proof (Split_no_sep comma (TrimSpace line)) as Hno. rewrite Hsp in Hno.
    split; [apply Hno; left; reflexivity|].
    split; [apply Hno; right; left; reflexivity|].
    split; [apply Hno; right; right; left; reflexivity|].
    exists k, line. split; [exact Hl|]. split; [exact Hk|].
    apply Split_three in Hsp. exact Hsp.
Qed.

End ParseFacts.

Lemma decodedSlice_outcome e :
  outcome e = match decodedSlice e with
              | Ok s => Ok (rangeOf s)
              | Err err => Err err
              end.
Proof.
  unfold outcome, decodedSlice.
  destruct (stop e); try reflexivity; destruct (parsed e); reflexivity.
Qed.

Lemma decodeWorldDataSlice_lists data :
  decodeWorldData data = match decodeWorldDataSlice data with
                         | Ok s => Ok (rangeOf s)
                         | Err err => Err err
                         end.
Proof.
  unfold decodeWorldData, decodeWorldDataSlice.
  destruct (length data <? 6)%nat; [reflexivity|].
  destruct (mapErr ErrBufferSize (readInt32 (NewReader data))) as [[raw r1]|e];
    [|reflexivity].
  destruct (readInt16 r1) as [[numWorlds r2]|[]]; try reflexivity.
  apply decodedSlice_outcome.
Qed.

Lemma decodeWorldDataSlice_run data :
  (6 <= length data)%nat ->
  decodeWorldDataSlice data
  = decodedSlice (decodeRun (declaredCount data) (mkReader data 6)).
Proof.
  intros Hlen. unfold decodeWorldDataSlice, declaredCount.
  destruct (Nat.ltb_spec (length data) 6); [lia|].
  destruct data as [|b0 [|b1 [|b2 [|b3 [|b4 [|b5 rest]]]]]]; simpl in Hlen; try lia.
  reflexivity.
Qed.

Lemma decodedSlice_short iter fuel i r :
  (Len r < 11)%nat -> decodedSlice (decodeLoop iter fuel i r []) = Ok None.
Proof.
  intros H. destruct fuel as [|fuel]; simpl; [reflexivity|].
  destruct (Nat.ltb_spec (Len r) 11); [reflexivity | lia].
Qed.

(** X8. [GetWorldData] fails on a transport error, on a status other
    than 200, on a failed read and on an empty body; a body of 1 to 5 bytes
    is too short; one of 6 to 16 bytes gives the nil list without error;
    otherwise the result is that of [decodeWorldData] on the body. *)
Theorem world_fetch_outcomes (answer : Answer (list byte)) :
  match answer with
  | Failed err => GetWorldData answer = Err (FetchFailed err)
  | Responded status (Err err) =>
      GetWorldData answer
      = Err (if status =? 200 then ReadFailed err else BadStatus status)
  | Responded status (Ok body) =>
      (status <> 200 -> GetWorldData answer = Err (BadStatus status))
      /\ (status = 200 ->
          (body = [] -> GetWorldData answer = Err EmptyBody)
          /\ ((1 <= length body < 6)%nat ->
              GetWorldData answer = Err (Undecodable (ErrTooShort (length body))))
          /\ ((6 <= length body < 17)%nat -> GetWorldData answer = Ok None)
          /\ (body <> [] ->
              match GetWorldData answer with
              | Ok worlds => decodeWorldData body = Ok (rangeOf worlds)
              | Err (Undecodable err) => decodeWorldData body = Err err
              | Err _ => False
              end))
  end.
Proof.
  destruct answer as [err|status [body|err]]; [reflexivity| |].
  - split.
    + intros Hs. unfold GetWorldData.
      destruct (Z.eqb_spec status 200); [contradiction | reflexivity].
    + intros ->. unfold GetWorldData. cbn [Z.eqb Pos.eqb negb].
      split; [intros ->; reflexivity|].
      assert (body <> [] ->
              (if (length body =? 0)%nat then Err EmptyBody
               else mapErr Undecodable (decodeWorldDataSlice body))
              = mapErr Undecodable (decodeWorldDataSlice body)) as Hne.
      { intros Hb. destruct body; [contradiction | reflexivity]. }
      split; [|split].
      * intros Hlen. rewrite Hne by (destruct body; simpl in *; [lia|discriminate]).
        unfold decodeWorldDataSlice.
        destruct (Nat.ltb_spec (length body) 6); [reflexivity | lia].
      * intros Hlen. rewrite Hne by (destruct body; simpl in *; [lia|discriminate]).
        rewrite decodeWorldDataSlice_run by lia. unfold decodeRun.
        rewrite decodedSlice_short; [reflexivity|]. unfold Len. simpl. lia.
      * intros Hb. rewrite (Hne Hb), (decodeWorldDataSlice_lists body).
        destruct (decodeWorldDataSlice body); reflexivity.
  - unfold GetWorldData. destruct (status =? 200); reflexivity.
Qed.

Section CollectorFacts.
Context {float64 : Type}.
Variable ParseFloat : string -> float64.
Variable ofInt : Z -> float64.
Context {jsonStats : JSON statsEntry}.
Context {jsonWorlds : JSON (slice World)}.

Lemma reportWorld_players worlds :
  forall g : Gauges (float64 := float64),
    let g' := fold_left (reportWorld ofInt) worlds g in
    playerLevelGauge g' = playerLevelGauge g
    /\ playerXPGauge g' = playerXPGauge g
    /\ playerRankGauge g' = playerRankGauge g.
Proof.
  induction worlds as [|w worlds IH]; intros g; cbv zeta; cbn [fold_left];
    [auto|].
  destruct (IH (reportWorld ofInt g w)) as (H1 & H2 & H3).
  rewrite H1, H2, H3. auto.
Qed.

Lemma reportStat_worlds mode stats :
  forall g : Gauges (float64 := float64),
    worldPlayersGauge (fold_left (reportStat ParseFloat ofInt mode) stats g)
    = worldPlayersGauge g.
Proof.
  induction stats as [|s stats IH]; intros g; cbn [fold_left]; [reflexivity|].
  rewrite IH. reflexivity.
Qed.

(** X12. A failed collection leaves cache and gauges as they were. A
    successful world collection leaves no player series, a successful
    player collection no world series, and in both the gauges afterwards
    do not depend on what they held before. *)
Theorem collection_replaces_all_series :
  (forall (E : Type) (fetched : result E (slice World)) (now : Z) (c : Cache)
          (g : Gauges),
      let '(r, c', g') := CollectWorldData ofInt fetched now c g in
      match r with
      | Err _ => c' = c /\ g' = g
      | Ok _ =>
          playerLevelGauge g' = ∅ /\ playerXPGauge g' = ∅
          /\ playerRankGauge g' = ∅
          /\ forall g0, snd (CollectWorldData ofInt fetched now c g0) = g'
      end)
  /\ (forall (E : Type) (fetched : result E (slice SkillInfo))
             (rsn mode : string) (now : Z) (c : Cache) (g : Gauges),
        let '(r, c', g') :=
          CollectPlayerStats ParseFloat ofInt fetched rsn mode now c g in
        match r with
        | Err _ => c' = c /\ g' = g
        | Ok _ =>
            worldPlayersGauge g' = ∅
            /\ forall g0,
                 snd (CollectPlayerStats ParseFloat ofInt fetched rsn mode now
                                         c g0) = g'
        end).
Proof.
  split.
  - intros E fetched now c g. unfold CollectWorldData.
    assert (forall worlds : slice World,
              let g' := ReportWorldData ofInt (rangeOf worlds)
                                        (ResetPlayerMetrics g) in
              playerLevelGauge g' = ∅ /\ playerXPGauge g' = ∅
              /\ playerRankGauge g' = ∅) as Hempty.
    { intros worlds. unfold ReportWorldData.
      apply (reportWorld_players (rangeOf worlds)
               (ResetWorldMetrics (ResetPlayerMetrics g))). }
    match goal with
    | |- context [match ?cached with Some _ => _ | None => _ end] =>
        destruct cached as [cachedWorlds|]
    end.
    + destruct (Hempty (Some cachedWorlds)) as (H1 & H2 & H3). auto.
    + destruct fetched as [fresh|err]; [|auto].
      destruct (Hempty fresh) as (H1 & H2 & H3). auto.
  - intros E fetched rsn mode now c g. unfold CollectPlayerStats.
    assert (forall stats : slice SkillInfo,
              worldPlayersGauge
                (ReportPlayerStats ParseFloat ofInt (rangeOf stats) mode
                                   (ResetWorldMetrics g)) = ∅) as Hempty.
    { intros stats. unfold ReportPlayerStats. rewrite reportStat_worlds.
      reflexivity. }
    match goal with
    | |- context [match ?cached with Some _ => _ | None => _ end] =>
        destruct cached as [cachedStats|]
    end.
    + split; [apply (Hempty (Some cachedStats)) | reflexivity].
    + destruct fetched as [fresh|err]; [|auto].
      split; [apply Hempty | reflexivity].
Qed.

(** X13. With a codec that loses nothing, a fetched world list that is
    not nil is served from the cache for the next five minutes, whatever
    the upstream would answer; a nil list, or a call after the five
    minutes, asks the upstream again. *)
Theorem world_list_cached_five_minutes (E : Type) (fresh : slice World)
    (again : result E (slice World)) (now1 now2 : Z) (c : Cache)
    (g : Gauges) :
  faithful jsonWorlds ->
  Get now1 c worldDataKey = None ->
  let first := CollectWorldData (E := E) ofInt (Ok fresh) now1 c g in
  let second :=
    CollectWorldData ofInt again now2 (snd (fst first)) (snd first) in
  fst (fst first) = Ok tt
  /\ (forall worlds, fresh = Some worlds -> now2 < now1 + 5 * Minute ->
        second = (Ok tt, snd (fst first), snd first))
  /\ (fresh = None \/ now1 + 5 * Minute <= now2 ->
      match again with
      | Err err => fst (fst second) = Err (FailedToGetWorldData err)
      | Ok worlds =>
          snd second
          = ReportWorldData ofInt (rangeOf worlds) (ResetPlayerMetrics g)
      end).
Proof.
  intros Hf Hmiss. cbv zeta.
  destruct (Hf fresh) as (data & Hm & Hu).
  assert (CollectWorldData (E := E) ofInt (Ok fresh) now1 c g
          = (Ok tt, Set_ now1 c worldDataKey data (5 * Minute),
             ReportWorldData ofInt (rangeOf fresh) (ResetPlayerMetrics g)))
    as Hfirst.
  { unfold CollectWorldData. rewrite Hmiss, Hm. reflexivity. }
  rewrite Hfirst. cbn [fst snd].
  assert (0 < 5 * Minute) as Hpos by reflexivity.
  split; [reflexivity|]. split.
  - intros worlds -> Hlive. unfold CollectWorldData.
    rewrite Get_Set_eq.
    destruct (Z.leb_spec (5 * Minute) 0) as [Hle|Hle]; [lia|].
    destruct (Z.ltb_spec now2 (now1 + 5 * Minute)) as [Hlt|Hlt]; [|lia].
    cbn [orb]. rewrite Hu. reflexivity.
  - intros Hcase. unfold CollectWorldData. rewrite Get_Set_eq.
    destruct (Z.leb_spec (5 * Minute) 0) as [Hle|Hle]; [lia|].
    cbn [orb].
    destruct (Z.ltb_spec now2 (now1 + 5 * Minute)) as [Hlt|Hlt].
    + destruct Hcase as [->|Hlate]; [|lia].
      rewrite Hu. destruct again as [worlds|err]; reflexivity.
    + destruct again as [worlds|err]; reflexivity.
Qed.

Lemma FormatUint_inj a b :
  0 <= a -> 0 <= b -> Strconv.FormatUint a = Strconv.FormatUint b -> a = b.
Proof.
  intros Ha Hb H. unfold Strconv.FormatUint in H.
  apply pretty_N_inj in H. apply Z2N.inj in H; assumption.
Qed.

Lemma map_NoDup_inj {A B : Type} (f : A -> B) l :
  List.NoDup (map f l) ->
  forall a b, In a l -> In b l -> f a = f b -> a = b.
Proof.
  induction l as [|x l IH]; intros Hnd a b Ha Hb Hab; [destruct Ha|].
  cbn [map] in Hnd. inversion Hnd as [|? ? Hx Hnd']; subst.
  destruct Ha as [->|Ha], Hb as [->|Hb].
  - reflexivity.
  - exfalso. apply Hx. rewrite Hab. apply in_map. exact Hb.
  - exfalso. apply Hx. rewrite <- Hab. apply in_map. exact Ha.
  - apply IH; assumption.
Qed.

Lemma NoDup_map_through {A B C : Type} (f : A -> B) (h : A -> C) l :
  (forall a b, In a l -> In b l -> h a = h b -> f a = f b) ->
  List.NoDup (map f l) -> List.NoDup (map h l).
Proof.
  induction l as [|x l IH]; intros Hfh Hnd; cbn [map]; [constructor|].
  cbn [map] in Hnd. inversion Hnd as [|? ? Hx Hnd']; subst.
  constructor.
  - intros Hin. apply in_map_iff in Hin. destruct Hin as (y & Hy & Hyl).
    apply Hx. rewrite <- (Hfh y x (or_intror Hyl) (or_introl eq_refl) Hy).
    apply in_map. exact Hyl.
  - apply IH; [|exact Hnd'].
    intros a b Ha Hb. apply Hfh; right; assumption.
Qed.

(** X11. When the world ids are distinct, [ReportWorldData] leaves one
    series per world, each with the clamped player count of its own
    world. *)
Theorem one_series_per_world_id (worlds : list World) (g : Gauges) :
  (forall world, In world worlds -> 0 <= ID world) ->
  List.NoDup (map ID worlds) ->
  let g' := ReportWorldData ofInt worlds g in
  size (worldPlayersGauge g') = length worlds
  /\ forall world, In world worlds ->
       worldPlayersGauge g' !! worldLabels world
       = Some (ofInt (clampPlayers (Players world))).
Proof.
  intros Hpos Hnd. cbv zeta. unfold ReportWorldData.
  set (val := fun world => ofInt (clampPlayers (Players world))).
  assert (forall g0 world,
    worldPlayersGauge (reportWorld ofInt g0 world)
    = if (fun _ : World => true) world
      then <[worldLabels world := val world]> (worldPlayersGauge g0)
      else worldPlayersGauge g0) as Hstep by reflexivity.
  assert (forall a b, In a worlds -> In b worlds ->
            worldLabels a = worldLabels b -> a = b) as Hinj.
  { intros a b Ha Hb Hl. apply (map_NoDup_inj ID worlds Hnd a b Ha Hb).
    unfold worldLabels in Hl. injection Hl as Hid _ _ _.
    apply FormatUint_inj; [apply Hpos; exact Ha | apply Hpos; exact Hb | exact Hid]. }
  split.
  - rewrite (gauge_size (reportWorld ofInt) worldPlayersGauge worldLabels val
               (fun _ => true) Hstep).
    + cbn [ResetWorldMetrics worldPlayersGauge]. rewrite map_size_empty.
      assert (List.filter (fun _ : World => true) worlds = worlds) as ->.
      { clear. induction worlds as [|w l IH]; cbn; [|rewrite IH]; reflexivity. }
      reflexivity.
    + apply (NoDup_map_through ID worldLabels worlds); [|exact Hnd].
      intros a b Ha Hb Hl. rewrite (Hinj a b Ha Hb Hl). reflexivity.
    + intros a _. apply lookup_empty.
  - intros world Hin.
    apply (gauge_last (reportWorld ofInt) worldPlayersGauge worldLabels val
             (fun _ => true) Hstep); [|exact Hin|reflexivity].
    intros a b Ha Hb _ _ Hl. rewrite (Hinj a b Ha Hb Hl). reflexivity.
Qed.

Lemma ReportPlayerStats_series (stats : list SkillInfo) (mode : string)
    (g : Gauges) :
  List.NoDup (map Name stats) ->
  let g' := ReportPlayerStats ParseFloat ofInt stats mode g in
  size (playerLevelGauge g') = length stats
  /\ size (playerXPGauge g') = length stats
  /\ size (playerRankGauge g')
     = length (List.filter (fun stat => 0 <=? rankIntOf stat) stats)
  /\ forall stat, In stat stats ->
       playerLevelGauge g' !! playerLabels stat mode
       = Some (ParseFloat (Level stat))
       /\ playerXPGauge g' !! playerLabels stat mode
          = Some (ParseFloat (XP stat))
       /\ playerRankGauge g' !! playerLabels stat mode
          = if 0 <=? rankIntOf stat then Some (ofInt (rankIntOf stat))
            else None.
Proof.
  intros Hnd. cbv zeta. unfold ReportPlayerStats.
  set (step := reportStat ParseFloat ofInt mode).
  set (key := fun stat => playerLabels stat mode).
  assert (forall g0 stat,
    playerLevelGauge (step g0 stat)
    = if (fun _ : SkillInfo => true) stat
      then <[key stat := ParseFloat (Level stat)]> (playerLevelGauge g0)
      else playerLevelGauge g0) as Hlevel by reflexivity.
  assert (forall g0 stat,
    playerXPGauge (step g0 stat)
    = if (fun _ : SkillInfo => true) stat
      then <[key stat := ParseFloat (XP stat)]> (playerXPGauge g0)
      else playerXPGauge g0) as Hxp by reflexivity.
  assert (forall g0 stat,
    playerRankGauge (step g0 stat)
    = if 0 <=? rankIntOf stat
      then <[key stat := ofInt (rankIntOf stat)]> (playerRankGauge g0)
      else playerRankGauge g0) as Hrank.
  { intros g0 stat. unfold step, reportStat. cbn [playerRankGauge].
    destruct (0 <=? rankIntOf stat); reflexivity. }
  assert (forall a b, In a stats -> In b stats -> key a = key b -> a = b) as Hinj.
  { intros a b Ha Hb Hl. apply (map_NoDup_inj Name stats Hnd a b Ha Hb).
    unfold key, playerLabels in Hl. injection Hl as Hname _ _. exact Hname. }
  assert (List.NoDup (map key stats)) as Hkeys.
  { apply (NoDup_map_through Name key stats); [|exact Hnd].
    intros a b Ha Hb Hl. rewrite (Hinj a b Ha Hb Hl). reflexivity. }
  assert (List.filter (fun _ : SkillInfo => true) stats = stats) as Hall.
  { clear. induction stats as [|w l IH]; cbn; [|rewrite IH]; reflexivity. }
  split; [|split; [|split]].
  - rewrite (gauge_size step playerLevelGauge key _ (fun _ => true) Hlevel _ Hkeys).
    + rewrite Hall. cbn. rewrite map_size_empty. reflexivity.
    + intros a _. apply lookup_empty.
  - rewrite (gauge_size step playerXPGauge key _ (fun _ => true) Hxp _ Hkeys).
    + rewrite Hall. cbn. rewrite map_size_empty. reflexivity.
    + intros a _. apply lookup_empty.
  - rewrite (gauge_size step playerRankGauge key _ _ Hrank _ Hkeys).
    + cbn. rewrite map_size_empty. reflexivity.
    + intros a _. apply lookup_empty.
  - intros stat Hin. split; [|split].
    + apply (gauge_last step playerLevelGauge key _ (fun _ => true) Hlevel);
        [|exact Hin|reflexivity].
      intros a b Ha Hb _ _ Hl. rewrite (Hinj a b Ha Hb Hl). reflexivity.
    + apply (gauge_last step playerXPGauge key _ (fun _ => true) Hxp);
        [|exact Hin|reflexivity].
      intros a b Ha Hb _ _ Hl. rewrite (Hinj a b Ha Hb Hl). reflexivity.
    + destruct (0 <=? rankIntOf stat) eqn:Er.
      * apply (gauge_last step playerRankGauge key _ _ Hrank);
          [|exact Hin|exact Er].
        intros a b Ha Hb _ _ Hl. rewrite (Hinj a b Ha Hb Hl). reflexivity.
      * rewrite (gauge_stays step playerRankGauge key _ _ Hrank).
        -- apply lookup_empty.
        -- intros a Ha Hc Hk. rewrite (Hinj a stat Ha Hin Hk) in Hc. congruence.
Qed.

Variable TrimSpace : string -> string.

(** X10. Reporting the skills parsed from a hiscores body gives every
    parsed skill its own level and experience series, and a rank series
    exactly when its rank is not negative. *)
Theorem each_parsed_skill_has_its_series (rsn body mode : string)
    (g : Gauges) :
  let stats :=
    rangeOf (parseLines TrimSpace rsn 0 (Split body newline) None) in
  let g' := ReportPlayerStats ParseFloat ofInt stats mode g in
  size (playerLevelGauge g') = length stats
  /\ size (playerXPGauge g') = length stats
  /\ size (playerRankGauge g')
     = length (List.filter (fun stat => 0 <=? rankIntOf stat) stats)
  /\ forall stat, In stat stats ->
       playerLevelGauge g' !! (Name stat, rsn, "Standard"%string, mode)
       = Some (ParseFloat (Level stat))
       /\ playerXPGauge g' !! (Name stat, rsn, "Standard"%string, mode)
          = Some (ParseFloat (XP stat))
       /\ playerRankGauge g' !! (Name stat, rsn, "Standard"%string, mode)
          = if 0 <=? rankIntOf stat then Some (ofInt (rankIntOf stat))
            else None.
Proof.
  cbv zeta.
  destruct (parseLines_sound TrimSpace rsn (Split body newline) 0 None)
    as [Hsub Hin].
  { cbn. constructor. }
  cbv zeta in Hsub, Hin.
  assert (List.NoDup (map Name
            (rangeOf (parseLines TrimSpace rsn 0 (Split body newline) None))))
    as Hnd.
  { apply NoDup_ListNoDup.
    eapply sublist_NoDup; [apply Skills_NoDup | exact Hsub]. }
  destruct (ReportPlayerStats_series _ mode g Hnd) as (H1 & H2 & H3 & H4).
  split; [exact H1|]. split; [exact H2|]. split; [exact H3|].
  intros stat Hs. specialize (H4 stat Hs).
  destruct (Hin stat Hs) as [[]|(Hp & Hf & _)].
  unfold playerLabels in H4. rewrite Hp, Hf in H4. exact H4.
Qed.

End CollectorFacts.

Lemma activity_compares_with_last_look_witness :
  let first := IsActive (jsonXP := xpJSON) 0 "player" [sampleSkill "100"] empty in
  let second :=
    IsActive (jsonXP := xpJSON) Hour "player" [sampleSkill "250"] (snd first) in
  fst first = false /\ fst second = true.
Proof.
  cbv zeta.
  destruct (activity_compares_with_last_look (jsonXP := xpJSON) 0 Hour "player"
              [sampleSkill "100"] [sampleSkill "250"] empty
              (countableJSON_faithful (gmap string Z)))
    as (Hfirst & Hsecond & _).
  split; [apply Hfirst; reflexivity|].
  apply Hsecond; [reflexivity|].
  exists (sampleSkill "250"), 100. split; [left; reflexivity|].
  split; [vm_compute; reflexivity | vm_compute; reflexivity].
Defined.

Lemma world_list_cached_five_minutes_witness :
  let fresh := Some [worldOf sampleFirst; worldOf sampleSecond] in
  let first :=
    CollectWorldData (E := string) (jsonWorlds := worldsJSON) (float64 := Z) id
                     (Ok fresh) 0 empty Examples.noGauges in
  CollectWorldData (jsonWorlds := worldsJSON) id (Err "down"%string) Minute
                   (snd (fst first)) (snd first)
  = (Ok tt, snd (fst first), snd first).
Proof.
  cbv zeta.
  destruct (world_list_cached_five_minutes (jsonWorlds := worldsJSON)
              (float64 := Z) id string
              (Some [worldOf sampleFirst; worldOf sampleSecond])
              (Err "down"%string) 0 Minute empty Examples.noGauges
              (countableJSON_faithful (option (list World))) eq_refl)
    as (_ & Hhit & _).
  exact (Hhit _ eq_refl eq_refl).
Defined.

Lemma one_series_per_world_id_witness :
  let g' := ReportWorldData (float64 := Z) id
              [worldOf sampleFirst; worldOf sampleSecond] Examples.noGauges in
  size (worldPlayersGauge g') = 2%nat.
Proof.
  cbv zeta.
  destruct (one_series_per_world_id (float64 := Z) id
              [worldOf sampleFirst; worldOf sampleSecond] Examples.noGauges)
    as [Hsize _].
  - intros world [<-|[<-|[]]]; vm_compute; discriminate.
  - repeat constructor; simpl; intuition discriminate.
  - exact Hsize.
Defined.

End OsrsMore.

(** ** The metric endpoints *)

Module GatherFacts.
Import Api GatherTerms.

Lemma substring_prefix (p : string) :
  forall rest, substring 0 (String.length p) (p ++ rest) = p.
Proof.
  induction p as [|c p IH]; intros rest.
  - destruct rest; reflexivity.
  - change (String c (substring 0 (String.length p) (p ++ rest)) = String c p).
    rewrite IH. reflexivity.
Qed.

Lemma substring_split n :
  forall s, (n <= String.length s)%nat ->
    exists rest, s = (substring 0 n s ++ rest)%string.
Proof.
  induction n as [|n IH]; intros s Hn.
  - exists s. destruct s; reflexivity.
  - destruct s as [|c s]; cbn in Hn; [lia|].
    destruct (IH s ltac:(lia)) as (rest & Hr). exists rest.
    change (String c s = String c (substring 0 n s ++ rest)).
    rewrite <- Hr. reflexivity.
Qed.

Lemma length_append (a b : string) :
  String.length (a ++ b) = (String.length a + String.length b)%nat.
Proof.
  induction a as [|c a IH]; [reflexivity|].
  change (S (String.length (a ++ b)) = S (String.length a + String.length b)).
  rewrite IH. reflexivity.
Qed.

Lemma startsWith_spec name prefix :
  startsWith name prefix = true <-> exists rest, name = (prefix ++ rest)%string.
Proof.
  unfold startsWith. rewrite andb_true_iff, Nat.leb_le. split.
  - intros [Hlen He]. apply String.eqb_eq in He.
    destruct (substring_split _ _ Hlen) as (rest & Hr).
    exists rest. rewrite <- He at 1. exact Hr.
  - intros (rest & ->). split.
    + rewrite length_append. lia.
    + rewrite substring_prefix. apply String.eqb_refl.
Qed.

Section GatherFacts.
Context {content : Type}.

Lemma keepPrefixed_filter prefix (all : list (MetricFamily content)) :
  forall acc,
    fold_left (keepPrefixed prefix) all acc
    = acc ++ List.filter (named prefix) all.
Proof.
  induction all as [|mf all IH]; intros acc; cbn [fold_left List.filter].
  - rewrite app_nil_r. reflexivity.
  - rewrite IH. unfold keepPrefixed, named.
    destruct (FamilyName mf) as [name|]; [|reflexivity].
    destruct (startsWith name prefix); [|reflexivity].
    rewrite <- app_assoc. reflexivity.
Qed.

Lemma dropExcluded_filter excluded (all : list (MetricFamily content)) :
  forall acc,
    fold_left (dropExcluded excluded) all acc
    = acc ++ List.filter (kept excluded) all.
Proof.
  induction all as [|mf all IH]; intros acc; cbn [fold_left List.filter].
  - rewrite app_nil_r. reflexivity.
  - rewrite IH. unfold dropExcluded, kept.
    destruct (FamilyName mf) as [name|]; [|reflexivity].
    destruct (negb (anyPrefix name excluded)); [|reflexivity].
    rewrite <- app_assoc. reflexivity.
Qed.

Lemma anyPrefix_spec name excluded :
  anyPrefix name excluded = true
  <-> exists prefix, In prefix excluded /\ startsWith name prefix = true.
Proof.
  induction excluded as [|p ps IH]; cbn.
  - split; [discriminate | intros (p & [] & _)].
  - destruct (startsWith name p) eqn:E.
    + split; [|reflexivity]. intros _. exists p. auto.
    + rewrite IH. split.
      * intros (q & Hq & Hs). exists q. auto.
      * intros (q & [->|Hq] & Hs); [congruence|]. exists q. auto.
Qed.

(** X29. [FilteredGatherer.Gather] passes an error of the wrapped
    gatherer on; otherwise it returns, in their order, exactly the families
    whose name is there and starts with the prefix. *)
Theorem filtered_gather_keeps_the_prefixed (prefix : string)
    (inner : Gathered content) :
  match inner with
  | Err e => FilteredGather prefix inner = Err e
  | Ok all =>
      exists filtered,
        FilteredGather prefix inner = Ok filtered
        /\ sublist filtered all
        /\ forall mf,
             In mf filtered
             <-> In mf all
                 /\ exists rest, FamilyName mf = Some (prefix ++ rest)%string
  end.
Proof.
  destruct inner as [all|e]; [|reflexivity].
  exists (List.filter (named prefix) all). split; [|split].
  - unfold FilteredGather. rewrite keepPrefixed_filter. reflexivity.
  - induction all as [|mf all IH]; cbn; [constructor|].
    destruct (named prefix mf); [apply sublist_skip | apply sublist_cons];
      exact IH.
  - intros mf. split.
    + intros H. apply filter_In in H. destruct H as [Hin Hn].
      split; [exact Hin|]. unfold named in Hn.
      destruct (FamilyName mf) as [name|]; [|discriminate].
      apply startsWith_spec in Hn. destruct Hn as (rest & ->).
      exists rest. reflexivity.
    + intros [Hin (rest & Hn)]. apply filter_In. split; [exact Hin|].
      unfold named. rewrite Hn.
      apply startsWith_spec. exists rest. reflexivity.
Qed.

Lemma steam_not_osrs name :
  startsWith name "steam_" = true -> startsWith name "osrs_" = true -> False.
Proof.
  intros H1 H2. apply startsWith_spec in H1, H2.
  destruct H1 as (r1 & ->). destruct H2 as (r2 & H2). discriminate H2.
Qed.

(** X30. The gatherers behind the Steam, OSRS and system handlers split
    the named families among them: each named family is served by exactly
    one of the three, and a family without a name by none. *)
Theorem endpoints_partition_the_families (all : list (MetricFamily content)) :
  exists steam osrs system,
    SteamHandler (Ok all) = Ok steam
    /\ OSRSHandler (Ok all) = Ok osrs
    /\ SystemMetricsHandler (Ok all) = Ok system
    /\ steam ++ osrs ++ system
       ≡ₚ List.filter (fun mf => bool_decide (is_Some (FamilyName mf))) all
    /\ (forall mf, In mf steam -> In mf osrs -> False)
    /\ (forall mf, In mf steam -> In mf system -> False)
    /\ (forall mf, In mf osrs -> In mf system -> False).
Proof.
  exists (List.filter (named "steam_") all),
         (List.filter (named "osrs_") all),
         (List.filter (kept ["steam_"; "osrs_"]%string) all).
  split; [unfold SteamHandler, FilteredGather;
          rewrite keepPrefixed_filter; reflexivity|].
  split; [unfold OSRSHandler, FilteredGather;
          rewrite keepPrefixed_filter; reflexivity|].
  split; [unfold SystemMetricsHandler, ExcludedGather;
          rewrite dropExcluded_filter; reflexivity|].
  assert (forall mf : MetricFamily content,
            (named "steam_" mf = true -> named "osrs_" mf = true -> False)
            /\ (named "steam_" mf = true ->
                kept ["steam_"; "osrs_"]%string mf = true -> False)
            /\ (named "osrs_" mf = true ->
                kept ["steam_"; "osrs_"]%string mf = true -> False)
            /\ (is_Some (FamilyName mf) ->
                named "steam_" mf = true \/ named "osrs_" mf = true
                \/ kept ["steam_"; "osrs_"]%string mf = true)
            /\ (FamilyName mf = None ->
                named "steam_" mf = false /\ named "osrs_" mf = false
                /\ kept ["steam_"; "osrs_"]%string mf = false)) as Hcases.
  { intros mf. unfold named, kept. cbn [anyPrefix].
    destruct (FamilyName mf) as [name|].
    - pose proof (steam_not_osrs name) as Hx.
      destruct (startsWith name "steam_"), (startsWith name "osrs_");
        cbn; repeat split; try discriminate; auto.
    - repeat split; try discriminate. intros [x Hx]. discriminate. }
  split; [|split; [|split]].
  - induction all as [|mf all IH]; [reflexivity|].
    cbn [List.filter].
    destruct (Hcases mf) as (H1 & H2 & H3 & H4 & H5).
    destruct (FamilyName mf) as [name|] eqn:En.
    + rewrite bool_decide_eq_true_2 by (eexists; reflexivity).
      destruct (named "steam_" mf) eqn:E1.
      * destruct (named "osrs_" mf) eqn:E2; [exfalso; auto|].
        destruct (kept ["steam_"; "osrs_"]%string mf) eqn:E3; [exfalso; auto|].
        cbn. constructor. exact IH.
      * destruct (named "osrs_" mf) eqn:E2.
        -- destruct (kept ["steam_"; "osrs_"]%string mf) eqn:E3; [exfalso; auto|].
           rewrite <- IH. cbn [app]. symmetry. apply Permutation_middle.
        -- destruct (kept ["steam_"; "osrs_"]%string mf) eqn:E3.
           ++ rewrite <- IH.
              rewrite (app_assoc _ _ (mf :: _)), (app_assoc _ _ (List.filter _ all)).
              symmetry. apply Permutation_middle.
           ++ exfalso. destruct (H4 ltac:(eexists; reflexivity)) as [H|[H|H]];
                discriminate.
    + rewrite bool_decide_eq_false_2 by (intros [x Hx]; discriminate).
      destruct (H5 eq_refl) as (-> & -> & ->). exact IH.
  - intros mf Ha Hb. apply filter_In in Ha, Hb.
    destruct (Hcases mf) as (H1 & _). tauto.
  - intros mf Ha Hb. apply filter_In in Ha, Hb.
    destruct (Hcases mf) as (_ & H2 & _). tauto.
  - intros mf Ha Hb. apply filter_In in Ha, Hb.
    destruct (Hcases mf) as (_ & _ & H3 & _). tauto.
Qed.

End GatherFacts.

End GatherFacts.
